(** * The NCCH loader of Citra (src/core/loader/ncch.cpp)

    A shallow embedding of the container loader: the backward LZSS
    decompressor of the [.code] section, the derivation of the AES-CTR
    contexts from the NCCH header, and the loader's operations
    ([LoadExeFS], [LoadSectionExeFS], [LoadExec], [Load], [ReadRomFS]),
    followed by the properties of the loader's specification.

    Conventions.  A [u8]/[u16]/[u32] value is a [Z] and every operation
    that can wrap has its reduction written out ([u32], [u8]).  A buffer
    is a [list Z] of bytes; reads and writes go through [rd] and [wr],
    which answer [None] outside the buffer: C++ leaves such an access
    undefined, and the embedding keeps that case apart instead of
    inventing a value for it. *)

From Stdlib Require Import ZArith Lia List Bool.
From stdpp Require Import base option list strings.

Local Open Scope Z_scope.

(** ** Fixed-width integers and byte buffers *)

Definition u8 (z : Z) : Z := z mod 2 ^ 8.
Definition u32 (z : Z) : Z := z mod 2 ^ 32.

Abbreviation bytes := (list Z).

(** [buf[i]] *)
Definition rd (buf : bytes) (i : Z) : option Z :=
  if 0 <=? i then buf !! Z.to_nat i else None.

(** [buf[i] = v] *)
Definition wr (buf : bytes) (i v : Z) : option bytes :=
  if (0 <=? i) && (i <? Z.of_nat (length buf))
  then Some (<[Z.to_nat i := v]> buf) else None.

(** [*(u32* )(buf + i)] on a little-endian host *)
Definition read_u32 (buf : bytes) (i : Z) : option Z :=
  b0 ← rd buf i; b1 ← rd buf (i + 1); b2 ← rd buf (i + 2); b3 ← rd buf (i + 3);
  Some (Z.lor b0 (Z.lor (Z.shiftl b1 8) (Z.lor (Z.shiftl b2 16) (Z.shiftl b3 24)))).

(** The value of four bytes read as a little-endian number. *)
Definition le32 (b0 b1 b2 b3 : Z) : Z :=
  b0 + 2 ^ 8 * b1 + 2 ^ 16 * b2 + 2 ^ 24 * b3.

Definition is_byte (b : Z) : Prop := 0 <= b < 256.

(** ** LZSS *)

Module LZSS.

(** [LZSS_GetDecompressedSize] (lines 42-45).  [None]: the four bytes
  before [buffer + size] are not all inside the buffer. *)
Definition LZSS_GetDecompressedSize (buffer : bytes) (size : Z) : option Z :=
offset_size ← read_u32 buffer (size - 4);
Some (u32 (offset_size + size)).

(** The locals of [LZSS_Decompress] that change while it runs. *)
Record lz_state := LzState {
index : Z;
out : Z;
decompressed : bytes
}.

(** Where control is: at the test of the [while] (line 66), or at the
  head of the [for] (line 69) with the current [control] byte and [i]. *)
Inductive lz_pc :=
| AtWhile
| AtFor (control : Z) (i : Z).

Inductive lz_result :=
| LZ_return (b : bool) (decompressed : bytes)
| LZ_out_of_bounds.

Inductive lz_step_result :=
| Next (c : lz_pc * lz_state)
| Halt (r : lz_result).

Section Decompress.
Variable compressed : bytes.
Variable decompressed_size : Z.
Variable stop_index : Z.

(** The inner [for (j ...)] copy loop (lines 92-99), [n] iterations left. *)
Fixpoint copy_segment (n : nat) (segment_offset : Z) (st : lz_state)
  : lz_result + lz_state :=
  match n with
  | O => inr st
  | S n' =>
      if decompressed_size <=? u32 (out st + segment_offset)
      then inl (LZ_return false (decompressed st))
      else
        match rd (decompressed st) (u32 (out st + segment_offset)) with
        | None => inl LZ_out_of_bounds
        | Some data =>
            match wr (decompressed st) (out st - 1) data with
            | None => inl LZ_out_of_bounds
            | Some d' =>
                copy_segment n' segment_offset
                  (LzState (index st) (out st - 1) d')
            end
        end
  end.

(** One step: the [while] test with the read of the control byte, or
    one turn of the [for] loop (lines 66-107).  The decrements of
    [index] and [out] cannot wrap: each is guarded by the test before
    it ([stop_index] is an unsigned value). *)
Definition lz_step (c : lz_pc * lz_state) : lz_step_result :=
  let '(pc, st) := c in
  match pc with
  | AtWhile =>
      if stop_index <? index st then
        match rd compressed (index st - 1) with
        | None => Halt LZ_out_of_bounds
        | Some control =>
            Next (AtFor control 0,
                  LzState (index st - 1) (out st) (decompressed st))
        end
      else Halt (LZ_return true (decompressed st))
  | AtFor control i =>
      if 8 <=? i then Next (AtWhile, st)
      else if index st <=? stop_index then Next (AtWhile, st)
      else if index st <=? 0 then Next (AtWhile, st)
      else if out st <=? 0 then Next (AtWhile, st)
      else if negb (Z.land control 0x80 =? 0) then
        if index st <? 2 then Halt (LZ_return false (decompressed st))
        else
          let index' := index st - 2 in
          match rd compressed index', rd compressed (index' + 1) with
          | Some b0, Some b1 =>
              let segment_offset := Z.lor b0 (Z.shiftl b1 8) in
              let segment_size := Z.land (Z.shiftr segment_offset 12) 15 + 3 in
              let segment_offset := Z.land segment_offset 0x0FFF + 2 in
              if out st <? segment_size
              then Halt (LZ_return false (decompressed st))
              else
                match copy_segment (Z.to_nat segment_size) segment_offset
                        (LzState index' (out st) (decompressed st)) with
                | inl r => Halt r
                | inr st' => Next (AtFor (u8 (Z.shiftl control 1)) (i + 1), st')
                end
          | _, _ => Halt LZ_out_of_bounds
          end
      else
        if out st <? 1 then Halt (LZ_return false (decompressed st))
        else
          match rd compressed (index st - 1) with
          | None => Halt LZ_out_of_bounds
          | Some b =>
              match wr (decompressed st) (out st - 1) b with
              | None => Halt LZ_out_of_bounds
              | Some d' =>
                  Next (AtFor (u8 (Z.shiftl control 1)) (i + 1),
                        LzState (index st - 1) (out st - 1) d')
              end
          end
  end.

Fixpoint lz_run (fuel : nat) (c : lz_pc * lz_state) : option lz_result :=
  match fuel with
  | O => None
  | S n =>
      match lz_step c with
      | Halt r => Some r
      | Next c' => lz_run n c'
      end
  end.

(** The configurations the loops go through. *)
Inductive lz_reach (c : lz_pc * lz_state) : lz_pc * lz_state -> Prop :=
| lz_reach_refl : lz_reach c c
| lz_reach_step c1 c2 :
    lz_reach c c1 -> lz_step c1 = Next c2 -> lz_reach c c2.

(** Every step makes this smaller. *)
Definition lz_measure (c : lz_pc * lz_state) : nat :=
  match fst c with
  | AtWhile => 11 * Z.to_nat (index (snd c))
  | AtFor _ i => 11 * Z.to_nat (index (snd c)) + 1 + Z.to_nat (9 - i)
  end.

(** The invariant of the loops: the output buffer keeps its size and
    the write cursor stays inside it. *)
Definition lz_inv (c : lz_pc * lz_state) : Prop :=
  Z.of_nat (length (decompressed (snd c))) = decompressed_size
  /\ 0 <= out (snd c) <= decompressed_size.

(** [n] steps from a configuration, for concrete runs. *)
Fixpoint lz_iter (n : nat) (c : lz_pc * lz_state) : option (lz_pc * lz_state) :=
  match n with
  | O => Some c
  | S n' =>
      match lz_step c with
      | Next c' => lz_iter n' c'
      | Halt _ => None
      end
  end.

End Decompress.

(** Lines 57-64: the footer, the cursors, and the output buffer after
  [memset] and [memcpy].  [None]: the footer is not inside the
  compressed buffer, or [memcpy] would run over the end of a buffer. *)
Definition lz_init (compressed : bytes) (compressed_size decompressed_size : Z)
: option (Z * lz_state) :=
buffer_top_and_bottom ← read_u32 compressed (compressed_size - 8);
let out := decompressed_size in
let index :=
  u32 (compressed_size - Z.land (Z.shiftr buffer_top_and_bottom 24) 0xFF) in
let stop_index :=
  u32 (compressed_size - Z.land buffer_top_and_bottom 0xFFFFFF) in
if (compressed_size <=? Z.of_nat (length compressed))
   && (compressed_size <=? decompressed_size)
then
  let d := take (Z.to_nat compressed_size) compressed
           ++ replicate (Z.to_nat (decompressed_size - compressed_size)) 0 in
  Some (stop_index, LzState index out d)
else None.

(** Enough steps for any run that starts at the [while] test. *)
Definition lz_fuel (compressed : bytes) : nat := S (S (11 * length compressed)).

(** [LZSS_Decompress] (lines 55-110).  The output buffer is taken to
  hold [decompressed_size] bytes, as the caller allocates it. *)
Definition LZSS_Decompress (compressed : bytes)
  (compressed_size decompressed_size : Z) : lz_result :=
match lz_init compressed compressed_size decompressed_size with
| None => LZ_out_of_bounds
| Some (stop_index, st) =>
    match lz_run compressed decompressed_size stop_index
            (lz_fuel compressed) (AtWhile, st) with
    | Some r => r
    | None => LZ_out_of_bounds
    end
end.

End LZSS.

(** ** The headers and the collaborators of the loader *)

Definition kMaxSections : nat := 8.
Definition kBlockSize : Z := 0x200.

(** The result codes of core/loader/loader.h that ncch.cpp returns. *)
Inductive ResultStatus :=
| Success
| Error
| ErrorInvalidFormat
| ErrorNotLoaded
| ErrorNotUsed
| ErrorAlreadyLoaded
| ErrorMemoryAllocationFailed
| ErrorEncrypted.

(** The fields of [NCCH_Header] that the loader reads ([flags] is the
    array [u8 flags[8]], [partition_id] the array [u8 partition_id[8]],
    [signature] the leading array of the header). *)
Module NCCH_Header.
Record t := Make {
  signature : bytes;
  magic : Z;
  partition_id : bytes;
  version : Z;
  program_id : Z;
  flags : nat -> Z;
  exefs_offset : Z;
  exefs_size : Z;
  romfs_offset : Z;
  romfs_size : Z
}.
End NCCH_Header.

(** The fields of [ExHeader_Header] that [LoadExeFS] and [LoadExec]
    read: [program_id] is [arm11_system_local_caps.program_id], the
    others belong to [codeset_info] and [arm11_system_local_caps]. *)
Module ExHeader_Header.
Record t := Make {
  program_id : Z;
  flag : Z;
  text_address : Z;
  text_code_size : Z;
  stack_size : Z;
  bss_size : Z;
  core_version : Z;
  priority : Z;
  resource_limit_category : Z
}.
End ExHeader_Header.

Module ExeFs_SectionHeader.
Record t := Make {
  name : string;
  offset : Z;
  size : Z
}.
End ExeFs_SectionHeader.

(** ncch.h and smdh.h are not among the sources: the sizes of the
    structures, the two magic numbers and the way a structure's bytes
    are read as its fields are taken as given. *)
Record Layout := {
  sizeof_NCCH_Header : Z;
  sizeof_ExHeader_Header : Z;
  sizeof_ExeFs_Header : Z;
  sizeof_SMDH : Z;
  magic_NCSD : Z;
  magic_NCCH : Z;
  as_NCCH_Header : bytes -> NCCH_Header.t;
  as_ExHeader_Header : bytes -> ExHeader_Header.t;
  exefs_section : bytes -> nat -> ExeFs_SectionHeader.t;
  smdh_region_lockout : bytes -> Z
}.

Inductive KeySlotID := NCCH | NCCH7x | NCCHSec3 | NCCHSec4.

Global Instance KeySlotID_eq_dec : EqDecision KeySlotID.
Proof. solve_decision. Defined.

(** What lies outside the loader: the counter-mode cipher of CryptoPP
    ([aes_ctr key iv pos data] is the data processed after [Seek (pos)]),
    the key generator behind a key slot, whether [new u8[n]] succeeds and
    whether the file can be opened a second time. *)
Record Env := {
  aes_ctr : bytes -> bytes -> Z -> bytes -> bytes;
  normal_key : KeySlotID -> bytes -> option bytes;
  alloc_ok : Z -> bool;
  reopen_ok : bool
}.

Record AesContext := { key : bytes; ctr : bytes }.

Definition zeros16 : bytes := replicate 16 0.

(** Modelled from the spec: the key store [HW::AES] (core/hw/aes/key.h
    is not among the sources), "derive normal key for key-slot X from
    16-byte key-seed Y, returns either a 16-byte key or unavailable".
    The store keeps the key-seed of each slot and a record of the calls
    made to it. *)
Inductive KeyOp :=
| OpInitKeys
| OpSetKeyY (slot : KeySlotID) (key_y : bytes)
| OpIsNormalKeyAvailable (slot : KeySlotID)
| OpGetNormalKey (slot : KeySlotID).

Record KeyStore := {
  key_y_of : KeySlotID -> option bytes;
  calls : list KeyOp
}.

(** [FileUtil::IOFile]: the bytes of the file and the read position. *)
Record IOFile := {
  IsOpen : bool;
  content : bytes;
  pos : Z
}.

(** What the loader does to the rest of the emulator. *)
Inductive Event :=
| EvTelemetryProgramId (program_id : Z)
| EvProcessRun (exheader : bytes) (program_id : Z) (memory : bytes)
| EvRegisterArchiveType
| EvSetPreferredRegionCode (region : Z).

(** The values [LoadExeFS] copies out of the extended header
    (lines 408-415). *)
Record ExInfo := {
  is_compressed : bool;
  entry_point : Z;
  code_size : Z;
  stack_size : Z;
  bss_size : Z;
  core_version : Z;
  priority : Z;
  resource_limit_category : Z
}.

(** The members of [AppLoader_NCCH]. *)
Record AppLoader_NCCH := {
  file : IOFile;
  is_loaded : bool;
  is_exefs_loaded : bool;
  info : ExInfo;
  ncch_header : bytes;
  exheader_header : bytes;
  exefs_header : bytes;
  ncch_offset : Z;
  exefs_offset : Z;
  exefs_aes : option AesContext;
  exerfs_code_aes : option AesContext;
  romfs_aes : option AesContext
}.

Record World := {
  loader : AppLoader_NCCH;
  keys : KeyStore;
  events : list Event
}.

(** *** Assignments to members *)

Definition set_file (f : IOFile) (l : AppLoader_NCCH) : AppLoader_NCCH :=
  {| file := f; is_loaded := is_loaded l; is_exefs_loaded := is_exefs_loaded l;
     info := info l; ncch_header := ncch_header l;
     exheader_header := exheader_header l; exefs_header := exefs_header l;
     ncch_offset := ncch_offset l; exefs_offset := exefs_offset l;
     exefs_aes := exefs_aes l; exerfs_code_aes := exerfs_code_aes l;
     romfs_aes := romfs_aes l |}.

Definition set_is_loaded (b : bool) (l : AppLoader_NCCH) : AppLoader_NCCH :=
  {| file := file l; is_loaded := b; is_exefs_loaded := is_exefs_loaded l;
     info := info l; ncch_header := ncch_header l;
     exheader_header := exheader_header l; exefs_header := exefs_header l;
     ncch_offset := ncch_offset l; exefs_offset := exefs_offset l;
     exefs_aes := exefs_aes l; exerfs_code_aes := exerfs_code_aes l;
     romfs_aes := romfs_aes l |}.

Definition set_is_exefs_loaded (b : bool) (l : AppLoader_NCCH) : AppLoader_NCCH :=
  {| file := file l; is_loaded := is_loaded l; is_exefs_loaded := b;
     info := info l; ncch_header := ncch_header l;
     exheader_header := exheader_header l; exefs_header := exefs_header l;
     ncch_offset := ncch_offset l; exefs_offset := exefs_offset l;
     exefs_aes := exefs_aes l; exerfs_code_aes := exerfs_code_aes l;
     romfs_aes := romfs_aes l |}.

Definition set_info (i : ExInfo) (l : AppLoader_NCCH) : AppLoader_NCCH :=
  {| file := file l; is_loaded := is_loaded l; is_exefs_loaded := is_exefs_loaded l;
     info := i; ncch_header := ncch_header l;
     exheader_header := exheader_header l; exefs_header := exefs_header l;
     ncch_offset := ncch_offset l; exefs_offset := exefs_offset l;
     exefs_aes := exefs_aes l; exerfs_code_aes := exerfs_code_aes l;
     romfs_aes := romfs_aes l |}.

Definition set_ncch_header (h : bytes) (l : AppLoader_NCCH) : AppLoader_NCCH :=
  {| file := file l; is_loaded := is_loaded l; is_exefs_loaded := is_exefs_loaded l;
     info := info l; ncch_header := h;
     exheader_header := exheader_header l; exefs_header := exefs_header l;
     ncch_offset := ncch_offset l; exefs_offset := exefs_offset l;
     exefs_aes := exefs_aes l; exerfs_code_aes := exerfs_code_aes l;
     romfs_aes := romfs_aes l |}.

Definition set_exheader_header (h : bytes) (l : AppLoader_NCCH) : AppLoader_NCCH :=
  {| file := file l; is_loaded := is_loaded l; is_exefs_loaded := is_exefs_loaded l;
     info := info l; ncch_header := ncch_header l;
     exheader_header := h; exefs_header := exefs_header l;
     ncch_offset := ncch_offset l; exefs_offset := exefs_offset l;
     exefs_aes := exefs_aes l; exerfs_code_aes := exerfs_code_aes l;
     romfs_aes := romfs_aes l |}.

Definition set_exefs_header (h : bytes) (l : AppLoader_NCCH) : AppLoader_NCCH :=
  {| file := file l; is_loaded := is_loaded l; is_exefs_loaded := is_exefs_loaded l;
     info := info l; ncch_header := ncch_header l;
     exheader_header := exheader_header l; exefs_header := h;
     ncch_offset := ncch_offset l; exefs_offset := exefs_offset l;
     exefs_aes := exefs_aes l; exerfs_code_aes := exerfs_code_aes l;
     romfs_aes := romfs_aes l |}.

Definition set_ncch_offset (o : Z) (l : AppLoader_NCCH) : AppLoader_NCCH :=
  {| file := file l; is_loaded := is_loaded l; is_exefs_loaded := is_exefs_loaded l;
     info := info l; ncch_header := ncch_header l;
     exheader_header := exheader_header l; exefs_header := exefs_header l;
     ncch_offset := o; exefs_offset := exefs_offset l;
     exefs_aes := exefs_aes l; exerfs_code_aes := exerfs_code_aes l;
     romfs_aes := romfs_aes l |}.

Definition set_exefs_offset (o : Z) (l : AppLoader_NCCH) : AppLoader_NCCH :=
  {| file := file l; is_loaded := is_loaded l; is_exefs_loaded := is_exefs_loaded l;
     info := info l; ncch_header := ncch_header l;
     exheader_header := exheader_header l; exefs_header := exefs_header l;
     ncch_offset := ncch_offset l; exefs_offset := o;
     exefs_aes := exefs_aes l; exerfs_code_aes := exerfs_code_aes l;
     romfs_aes := romfs_aes l |}.

(** The three optional contexts, assigned together or one at a time. *)
Definition set_aes (fs code romfs : option AesContext) (l : AppLoader_NCCH)
  : AppLoader_NCCH :=
  {| file := file l; is_loaded := is_loaded l; is_exefs_loaded := is_exefs_loaded l;
     info := info l; ncch_header := ncch_header l;
     exheader_header := exheader_header l; exefs_header := exefs_header l;
     ncch_offset := ncch_offset l; exefs_offset := exefs_offset l;
     exefs_aes := fs; exerfs_code_aes := code; romfs_aes := romfs |}.

Definition on_loader (f : AppLoader_NCCH -> AppLoader_NCCH) (w : World) : World :=
  {| loader := f (loader w); keys := keys w; events := events w |}.

Definition on_keys (f : KeyStore -> KeyStore) (w : World) : World :=
  {| loader := loader w; keys := f (keys w); events := events w |}.

Definition emit (e : Event) (w : World) : World :=
  {| loader := loader w; keys := keys w; events := events w ++ [e] |}.

(** *** Operations that change the world and may fail *)

Inductive Outcome (A : Type) :=
| Ret (a : A) (w : World)
| Fail (e : ResultStatus) (w : World)
| Undefined.
Arguments Ret {A} a w.
Arguments Fail {A} e w.
Arguments Undefined {A}.

Definition M (A : Type) : Type := World -> Outcome A.

Definition ret {A} (a : A) : M A := fun w => Ret a w.
Definition fail {A} (e : ResultStatus) : M A := fun w => Fail e w.
Definition undefined {A} : M A := fun _ => Undefined.
Definition bind {A B} (m : M A) (k : A -> M B) : M B :=
  fun w => match m w with
           | Ret a w' => k a w'
           | Fail e w' => Fail e w'
           | Undefined => Undefined
           end.
Definition get : M World := fun w => Ret w w.
Definition modify (f : World -> World) : M unit := fun w => Ret tt (f w).

Declare Scope loader_scope.
Delimit Scope loader_scope with L.
Notation "'let*' x := c 'in' k" := (bind c (fun x => k))
  (at level 10, x name, c at level 100, k at level 200) : loader_scope.
Notation "c ;;; k" := (bind c (fun _ => k))
  (at level 100, k at level 200, right associativity) : loader_scope.
Local Open Scope loader_scope.

(** The [ResultStatus] a caller sees. *)
Definition status {A} (o : Outcome A) : option ResultStatus :=
  match o with
  | Ret _ _ => Some Success
  | Fail e _ => Some e
  | Undefined => None
  end.

Definition world_of {A} (o : Outcome A) : option World :=
  match o with
  | Ret _ w => Some w
  | Fail _ w => Some w
  | Undefined => None
  end.

(** *** The file *)

(** [file.Seek (off, SEEK_SET)] *)
Definition Seek (off : Z) : M unit :=
  modify (on_loader (fun l =>
    set_file {| IsOpen := IsOpen (file l); content := content (file l);
                pos := off |} l)).

(** [file.ReadBytes (buf, n)]: the bytes delivered (fewer than [n] at
    the end of the file); the position moves past them. *)
Definition ReadBytes (n : Z) : M bytes :=
  fun w =>
    let f := file (loader w) in
    let got :=
      if pos f <? 0 then []
      else take (Z.to_nat n) (drop (Z.to_nat (pos f)) (content f)) in
    Ret got
      (on_loader (set_file {| IsOpen := IsOpen f; content := content f;
                              pos := pos f + Z.of_nat (length got) |}) w).

(** [file.GetSize ()] *)
Definition GetSize (f : IOFile) : Z := Z.of_nat (length (content f)).

(** Bytes read into a structure replace its leading bytes. *)
Definition overlay (new old : bytes) : bytes := new ++ drop (length new) old.

(** [std::copy (src.begin (), src.end (), dst.begin () + at)] *)
Definition copy_at (src : bytes) (at_ : nat) (dst : bytes) : bytes :=
  take at_ dst ++ src ++ drop (at_ + length src) dst.

(** *** The key store *)

Definition InitKeys : M unit :=
  modify (on_keys (fun k =>
    {| key_y_of := key_y_of k; calls := calls k ++ [OpInitKeys] |})).

Definition SetKeyY (slot : KeySlotID) (y : bytes) : M unit :=
  modify (on_keys (fun k =>
    {| key_y_of := fun s => if decide (s = slot) then Some y else key_y_of k s;
       calls := calls k ++ [OpSetKeyY slot y] |})).

Section Loader.
Context (L : Layout) (E : Env).

Definition slot_key (k : KeyStore) (slot : KeySlotID) : option bytes :=
  y ← key_y_of k slot; normal_key E slot y.

Definition IsNormalKeyAvailable (slot : KeySlotID) : M bool :=
  fun w =>
    Ret (bool_decide (is_Some (slot_key (keys w) slot)))
      (on_keys (fun k =>
         {| key_y_of := key_y_of k;
            calls := calls k ++ [OpIsNormalKeyAvailable slot] |}) w).

Definition GetNormalKey (slot : KeySlotID) : M bytes :=
  fun w =>
    Ret (default zeros16 (slot_key (keys w) slot))
      (on_keys (fun k =>
         {| key_y_of := key_y_of k;
            calls := calls k ++ [OpGetNormalKey slot] |}) w).

(** *** Key derivation (lines 303-395 of [LoadExeFS]) *)

(** The lambda [u32ToBEArray] (lines 317-320) *)
Definition u32ToBEArray (value : Z) : bytes :=
  [ u8 (Z.shiftr value 24);
    u8 (Z.land (Z.shiftr value 16) 0xFF);
    u8 (Z.land (Z.shiftr value 8) 0xFF);
    u8 (Z.land value 0xFF) ].

(** The four contexts as the version branch leaves them (lines
    303-332): the local [exheader_aes] and the members [exefs_aes],
    [exerfs_code_aes], [romfs_aes].  [None]: unknown version. *)
Record CryptoSet := {
  cs_exheader : AesContext;
  cs_exefs : AesContext;
  cs_code : AesContext;
  cs_romfs : AesContext
}.

Definition set_ctr (c : bytes) (a : AesContext) : AesContext :=
  {| key := key a; ctr := c |}.
Definition set_key (k : bytes) (a : AesContext) : AesContext :=
  {| key := k; ctr := ctr a |}.

Definition version_contexts (h : NCCH_Header.t) : option CryptoSet :=
  let exheader_aes := {| key := zeros16; ctr := zeros16 |} in
  if (NCCH_Header.version h =? 0) || (NCCH_Header.version h =? 2) then
    let exheader_aes :=
      set_ctr (copy_at (reverse (NCCH_Header.partition_id h)) 0
                 (ctr exheader_aes)) exheader_aes in
    Some {| cs_exheader := set_ctr (<[8%nat := 1]> (ctr exheader_aes)) exheader_aes;
            cs_exefs := set_ctr (<[8%nat := 2]> (ctr exheader_aes)) exheader_aes;
            cs_code := set_ctr (<[8%nat := 2]> (ctr exheader_aes)) exheader_aes;
            cs_romfs := set_ctr (<[8%nat := 3]> (ctr exheader_aes)) exheader_aes |}
  else if NCCH_Header.version h =? 1 then
    let exheader_aes :=
      set_ctr (copy_at (NCCH_Header.partition_id h) 0 (ctr exheader_aes))
        exheader_aes in
    let offset_exheader := u32ToBEArray 0x200 in
    let offset_exefs :=
      u32ToBEArray (u32 (NCCH_Header.exefs_offset h * kBlockSize)) in
    let offset_romfs :=
      u32ToBEArray (u32 (NCCH_Header.romfs_offset h * kBlockSize)) in
    let exefs_aes :=
      set_ctr (copy_at offset_exefs 12 (ctr exheader_aes)) exheader_aes in
    Some {| cs_exheader :=
              set_ctr (copy_at offset_exheader 12 (ctr exheader_aes)) exheader_aes;
            cs_exefs := exefs_aes;
            cs_code := exefs_aes;
            cs_romfs :=
              set_ctr (copy_at offset_romfs 12 (ctr exheader_aes)) exheader_aes |}
  else None.

(** Lines 303-332: the members are assigned, the local is returned. *)
Definition derive_counters (h : NCCH_Header.t) : M AesContext :=
  match version_contexts h with
  | Some cs =>
      modify (on_loader (set_aes (Some (cs_exefs cs)) (Some (cs_code cs))
                           (Some (cs_romfs cs)))) ;;;
      ret (cs_exheader cs)
  | None => fail ErrorEncrypted
  end.

(** [m->key = k] on an optional member; dereferencing an empty
    optional is undefined. *)
Definition key_into (m : option AesContext) (k : bytes) : M (option AesContext) :=
  match m with
  | Some a => ret (Some (set_key k a))
  | None => undefined
  end.

(** [exefs_aes->key = k] *)
Definition set_exefs_key (k : bytes) : M unit :=
  let* w := get in
  let* a := key_into (exefs_aes (loader w)) k in
  modify (on_loader (fun l => set_aes a (exerfs_code_aes l) (romfs_aes l) l)).

(** [exerfs_code_aes->key = romfs_aes->key = k] *)
Definition set_code_romfs_key (k : bytes) : M unit :=
  let* w := get in
  let* r := key_into (romfs_aes (loader w)) k in
  let* c := key_into (exerfs_code_aes (loader w)) k in
  modify (on_loader (fun l => set_aes (exefs_aes l) c r l)).

(** A [case] of the [switch] that takes its key from another slot. *)
Definition alternate_slot (slot : KeySlotID) (key_y : bytes) : M unit :=
  SetKeyY slot key_y ;;;
  let* available := IsNormalKeyAvailable slot in
  if negb available then fail ErrorEncrypted
  else
    let* k := GetNormalKey slot in
    set_code_romfs_key k.

(** Lines 334-395: the keys of the four contexts. *)
Definition derive_keys (h : NCCH_Header.t) (exheader_aes : AesContext)
  : M AesContext :=
  if negb (Z.land (NCCH_Header.flags h 7) 1 =? 0) then
    set_code_romfs_key zeros16 ;;;
    set_exefs_key zeros16 ;;;
    ret (set_key zeros16 exheader_aes)
  else
    InitKeys ;;;
    if negb (Z.land (NCCH_Header.flags h 7) 0x20 =? 0) then fail ErrorEncrypted
    else
      let key_y := take 16 (NCCH_Header.signature h) in
      SetKeyY NCCH key_y ;;;
      let* available := IsNormalKeyAvailable NCCH in
      if negb available then fail ErrorEncrypted
      else
        let* k := GetNormalKey NCCH in
        set_exefs_key k ;;;
        let exheader_aes := set_key k exheader_aes in
        let method := NCCH_Header.flags h 3 in
        (if method =? 0 then set_code_romfs_key (key exheader_aes)
         else if method =? 1 then alternate_slot NCCH7x key_y
         else if method =? 0x0A then alternate_slot NCCHSec3 key_y
         else if method =? 0x0B then alternate_slot NCCHSec4 key_y
         else fail ErrorEncrypted) ;;;
        ret exheader_aes.

(** Lines 303-395 together. *)
Definition derive (h : NCCH_Header.t) : M AesContext :=
  let* exheader_aes := derive_counters h in
  derive_keys h exheader_aes.

(** *** [LoadExeFS] (lines 270-451) *)

(** [file.ReadBytes (&member, n)]: the count read is returned and the
    bytes read replace the leading bytes of the member. *)
Definition read_into (member : AppLoader_NCCH -> bytes)
    (assign : bytes -> AppLoader_NCCH -> AppLoader_NCCH) (n : Z) : M Z :=
  let* got := ReadBytes n in
  modify (on_loader (fun l => assign (overlay got (member l)) l)) ;;;
  ret (Z.of_nat (length got)).

(** [dec.ProcessData] over the [n] bytes of a structure, in place. *)
Definition decrypt_in_place (a : AesContext) (n : Z) (raw : bytes) : bytes :=
  overlay (aes_ctr E (key a) (ctr a) 0 (take (Z.to_nat n) raw)) raw.

Definition the_ncch_header (w : World) : NCCH_Header.t :=
  as_NCCH_Header L (ncch_header (loader w)).
Definition the_exheader (w : World) : ExHeader_Header.t :=
  as_ExHeader_Header L (exheader_header (loader w)).

(** Lines 274-298: the partition header (after the NCSD header, if
    there is one) and the extended header are read. *)
Definition read_headers : M unit :=
  let* w := get in
  if negb (IsOpen (file (loader w))) then fail Error
  else
    Seek 0 ;;;
    let* n := read_into ncch_header set_ncch_header (sizeof_NCCH_Header L) in
    if negb (n =? sizeof_NCCH_Header L) then fail Error
    else
      let* w := get in
      (if magic_NCSD L =? NCCH_Header.magic (the_ncch_header w) then
         modify (on_loader (set_ncch_offset 0x4000)) ;;;
         let* w := get in
         Seek (ncch_offset (loader w)) ;;;
         let* _ := read_into ncch_header set_ncch_header (sizeof_NCCH_Header L) in
         ret tt
       else ret tt) ;;;
      let* w := get in
      if negb (magic_NCCH L =? NCCH_Header.magic (the_ncch_header w))
      then fail ErrorInvalidFormat
      else
        let* n := read_into exheader_header set_exheader_header
                    (sizeof_ExHeader_Header L) in
        if negb (n =? sizeof_ExHeader_Header L) then fail Error else ret tt.

(** Lines 397-405: the extended header is decrypted and checked. *)
Definition decrypt_exheader (exheader_aes : AesContext) : M unit :=
  modify (on_loader (fun l =>
    set_exheader_header
      (decrypt_in_place exheader_aes (sizeof_ExHeader_Header L)
         (exheader_header l)) l)) ;;;
  let* w := get in
  if negb (ExHeader_Header.program_id (the_exheader w)
           =? NCCH_Header.program_id (the_ncch_header w))
  then fail ErrorEncrypted
  else ret tt.

(** Lines 408-450: the values of the extended header are kept and the
    ExeFS header is read and decrypted. *)
Definition read_exefs_header : M unit :=
  let* w := get in
  let eh := the_exheader w in
  modify (on_loader (set_info
    {| is_compressed := Z.land (ExHeader_Header.flag eh) 1 =? 1;
       entry_point := ExHeader_Header.text_address eh;
       code_size := ExHeader_Header.text_code_size eh;
       stack_size := ExHeader_Header.stack_size eh;
       bss_size := ExHeader_Header.bss_size eh;
       core_version := ExHeader_Header.core_version eh;
       priority := ExHeader_Header.priority eh;
       resource_limit_category := ExHeader_Header.resource_limit_category eh |})) ;;;
  modify (on_loader (set_exefs_offset
    (u32 (NCCH_Header.exefs_offset (the_ncch_header w) * kBlockSize)))) ;;;
  let* w := get in
  Seek (u32 (exefs_offset (loader w) + ncch_offset (loader w))) ;;;
  let* n := read_into exefs_header set_exefs_header (sizeof_ExeFs_Header L) in
  if negb (n =? sizeof_ExeFs_Header L) then fail Error
  else
    let* w := get in
    match exefs_aes (loader w) with
    | Some a =>
        modify (on_loader (fun l =>
          set_exefs_header
            (decrypt_in_place a (sizeof_ExeFs_Header L) (exefs_header l)) l))
    | None => ret tt
    end ;;;
    modify (on_loader (set_is_exefs_loaded true)).

Definition LoadExeFS : M unit :=
  let* w := get in
  if is_exefs_loaded (loader w) then ret tt
  else
    read_headers ;;;
    let* w := get in
    (if negb (ExHeader_Header.program_id (the_exheader w)
              =? NCCH_Header.program_id (the_ncch_header w))
     then
       let* exheader_aes := derive (the_ncch_header w) in
       decrypt_exheader exheader_aes
     else ret tt) ;;;
    read_exefs_header.

(** *** [LoadSectionExeFS] (lines 202-268) *)

(** The body of the [if] at line 216.  [size_t] has 64 bits: only the
    sum of the two [u32] values wraps. *)
Definition load_section (section : ExeFs_SectionHeader.t) : M bytes :=
  let* w := get in
  let l := loader w in
  let size := ExeFs_SectionHeader.size section in
  let section_offset :=
    u32 (ExeFs_SectionHeader.offset section + exefs_offset l)
    + sizeof_ExeFs_Header L + ncch_offset l in
  let seek := ExeFs_SectionHeader.offset section + sizeof_ExeFs_Header L in
  Seek section_offset ;;;
  if String.eqb (ExeFs_SectionHeader.name section) ".code"
     && is_compressed (info l)
  then
    if negb (alloc_ok E size) then fail ErrorMemoryAllocationFailed
    else
      let* temp_buffer := ReadBytes size in
      if negb (Z.of_nat (length temp_buffer) =? size) then fail Error
      else
        let temp_buffer :=
          match exerfs_code_aes l with
          | Some a => aes_ctr E (key a) (ctr a) seek temp_buffer
          | None => temp_buffer
          end in
        match LZSS.LZSS_GetDecompressedSize temp_buffer size with
        | None => undefined
        | Some decompressed_size =>
            match LZSS.LZSS_Decompress temp_buffer size decompressed_size with
            | LZSS.LZ_return true buffer => ret buffer
            | LZSS.LZ_return false _ => fail ErrorInvalidFormat
            | LZSS.LZ_out_of_bounds => undefined
            end
        end
  else
    let* buffer := ReadBytes size in
    if negb (Z.of_nat (length buffer) =? size) then fail Error
    else
      let aes :=
        if String.eqb (ExeFs_SectionHeader.name section) ".code"
        then exerfs_code_aes l else exefs_aes l in
      ret match aes with
          | Some a => aes_ctr E (key a) (ctr a) seek buffer
          | None => buffer
          end.

(** The [for] loop over the section table (line 212). *)
Fixpoint scan_sections (name : string) (section_numbers : list nat) : M bytes :=
  match section_numbers with
  | [] => fail ErrorNotUsed
  | section_number :: rest =>
      let* w := get in
      let section := exefs_section L (exefs_header (loader w)) section_number in
      if String.eqb (ExeFs_SectionHeader.name section) name
      then load_section section
      else scan_sections name rest
  end.

Definition LoadSectionExeFS (name : string) : M bytes :=
  let* w := get in
  if negb (IsOpen (file (loader w))) then fail Error
  else
    LoadExeFS ;;;
    scan_sections name (seq 0 kMaxSections).

Definition ReadCode : M bytes := LoadSectionExeFS ".code".
Definition ReadIcon : M bytes := LoadSectionExeFS "icon".

(** *** [LoadExec] (lines 142-200) *)

(** The code set is built from the extended header and the code, and
    the process is created and run; [ReadCode]'s status is not passed
    on. *)
Definition LoadExec : M unit :=
  fun w =>
    if negb (is_loaded (loader w)) then Fail ErrorNotLoaded w
    else
      match ReadCode w with
      | Ret code w' =>
          let bss_page_size :=
            Z.land (u32 (ExHeader_Header.bss_size (the_exheader w') + 0xFFF))
              0xFFFFF000 in
          Ret tt
            (emit (EvProcessRun (exheader_header (loader w'))
                     (NCCH_Header.program_id (the_ncch_header w'))
                     (code ++ replicate (Z.to_nat bss_page_size) 0)) w')
      | Fail _ w' => Fail Error w'
      | Undefined => Undefined
      end.

(** *** [ParseRegionLockoutInfo] (lines 453-468) *)

Fixpoint first_region (n : nat) (region region_lockout : Z) : option Z :=
  match n with
  | O => None
  | S n' =>
      if negb (Z.land region_lockout 1 =? 0) then Some region
      else first_region n' (region + 1) (Z.shiftr region_lockout 1)
  end.

Definition REGION_COUNT : nat := 7.

Definition ParseRegionLockoutInfo : M unit :=
  fun w =>
    match ReadIcon w with
    | Ret smdh_buffer w' =>
        if sizeof_SMDH L <=? Z.of_nat (length smdh_buffer) then
          match first_region REGION_COUNT 0
                  (smdh_region_lockout L
                     (take (Z.to_nat (sizeof_SMDH L)) smdh_buffer)) with
          | Some region => Ret tt (emit (EvSetPreferredRegionCode region) w')
          | None => Ret tt w'
          end
        else Ret tt w'
    | Fail _ w' => Ret tt w'
    | Undefined => Undefined
    end.

(** *** [Load] (lines 470-496) *)

Definition Load : M unit :=
  let* w := get in
  if is_loaded (loader w) then fail ErrorAlreadyLoaded
  else
    LoadExeFS ;;;
    let* w := get in
    modify (emit (EvTelemetryProgramId
                    (NCCH_Header.program_id (the_ncch_header w)))) ;;;
    modify (on_loader (set_is_loaded true)) ;;;
    LoadExec ;;;
    modify (emit EvRegisterArchiveType) ;;;
    ParseRegionLockoutInfo.

(** *** [ReadRomFS] (lines 526-554): the offset and the size *)

Definition ReadRomFS : M (Z * Z) :=
  let* w := get in
  let l := loader w in
  let h := the_ncch_header w in
  if negb (IsOpen (file l)) then fail Error
  else if negb (NCCH_Header.romfs_offset h =? 0)
          && negb (NCCH_Header.romfs_size h =? 0)
  then
    let romfs_offset :=
      u32 (u32 (ncch_offset l + u32 (NCCH_Header.romfs_offset h * kBlockSize))
           + 0x1000) in
    let romfs_size :=
      u32 (u32 (NCCH_Header.romfs_size h * kBlockSize) - 0x1000) in
    if GetSize (file l) <? u32 (romfs_offset + romfs_size) then fail Error
    else if negb (reopen_ok E) then fail Error
    else ret (romfs_offset, romfs_size)
  else fail ErrorNotUsed.

End Loader.

(** The big-endian digits of a 32-bit value, most significant first. *)
Definition be32 (v : Z) : bytes :=
  [v / 2 ^ 24 mod 256; v / 2 ^ 16 mod 256; v / 2 ^ 8 mod 256; v mod 256].

(** ** Invariants of operations *)

(** [m] keeps [P]: whenever [m] runs in a world where [P] holds and
    comes back, with a value or with an error, [P] holds again. *)
Definition keeps {A} (P : World -> Prop) (m : M A) : Prop :=
  forall w, P w ->
    match m w with
    | Ret _ w' => P w'
    | Fail _ w' => P w'
    | Undefined => True
    end.

(** [m] ensures [Q]: whenever [m] comes back with a value, [Q] holds. *)
Definition ensures {A} (Q : World -> Prop) (m : M A) : Prop :=
  forall w,
    match m w with
    | Ret _ w' => Q w'
    | _ => True
    end.

(** The two flags of the loader. *)
Definition flags_are (loaded exefs_loaded : bool) (w : World) : Prop :=
  is_loaded (loader w) = loaded /\ is_exefs_loaded (loader w) = exefs_loaded.

Definition loaded_is (loaded : bool) (w : World) : Prop :=
  is_loaded (loader w) = loaded.

(** The partition the loader works on: where it starts in the file and
    the bytes of its header. *)
Definition partition_is (offset : Z) (header : bytes) (w : World) : Prop :=
  ncch_offset (loader w) = offset /\ ncch_header (loader w) = header.

(** The program identifier of the extended header is the one of the
    partition header. *)
Definition ids_agree (L : Layout) (w : World) : Prop :=
  ExHeader_Header.program_id (the_exheader L w)
  = NCCH_Header.program_id (the_ncch_header L w).

(** ** Further definitions *)

(** The key slot that a method byte other than 0 selects for the code
    section and the RomFS (the [case] labels of lines 361-390). *)
Definition slot_of_method (method : Z) : option KeySlotID :=
  if method =? 1 then Some NCCH7x
  else if method =? 0x0A then Some NCCHSec3
  else if method =? 0x0B then Some NCCHSec4
  else None.

(** [m] fails only with a status in [S]. *)
Definition fails_with {A} (S : ResultStatus -> Prop) (m : M A) : Prop :=
  forall w,
    match m w with
    | Fail e _ => S e
    | _ => True
    end.

(** [m] keeps [P] whenever it fails. *)
Definition keeps_on_failure {A} (P : World -> Prop) (m : M A) : Prop :=
  forall w, P w ->
    match m w with
    | Fail _ w' => P w'
    | _ => True
    end.

(** The statuses of [LoadExeFS]. *)
Definition load_exefs_status (e : ResultStatus) : Prop :=
  e = Error \/ e = ErrorInvalidFormat \/ e = ErrorEncrypted.

(** Two worlds that differ at most in the read position of the file. *)
Definition same_but_position (w w' : World) : Prop :=
  exists p,
    w' = on_loader (set_file {| IsOpen := IsOpen (file (loader w));
                                content := content (file (loader w));
                                pos := p |}) w.

(** ** The remaining functions of the loader *)

Inductive FileType := FileType_Error | FileType_CCI | FileType_CXI.

(** [IdentifyType] (lines 115-128): the type, and the file as the call
    leaves it.  One [u32] is read at the byte 0x100; a closed file, or
    one with fewer than four bytes from there, delivers no item. *)
Definition IdentifyType (L : Layout) (f : IOFile) : FileType * IOFile :=
  if negb (IsOpen f) then (FileType_Error, f)
  else
    let got := take 4 (drop (Z.to_nat 0x100) (content f)) in
    let f' := {| IsOpen := IsOpen f; content := content f;
                 pos := 0x100 + Z.of_nat (length got) |} in
    match read_u32 got 0 with
    | None => (FileType_Error, f')
    | Some magic =>
        if magic_NCSD L =? magic then (FileType_CCI, f')
        else if magic_NCCH L =? magic then (FileType_CXI, f')
        else (FileType_Error, f')
    end.

(** [LoadKernelSystemMode] (lines 130-140).  [system_mode] reads the bit
    field [arm11_system_local_caps.system_mode] of the extended
    header. *)
Definition LoadKernelSystemMode (L : Layout) (E : Env) (system_mode : bytes -> Z)
    : M (option Z * ResultStatus) :=
  fun w =>
    if negb (is_loaded (loader w)) then
      match LoadExeFS L E w with
      | Ret _ w' =>
          Ret (Some (system_mode (exheader_header (loader w'))), Success) w'
      | Fail res w' => Ret (None, res) w'
      | Undefined => Undefined
      end
    else Ret (Some (system_mode (exheader_header (loader w))), Success) w.

(** [ReadBanner], [ReadLogo] (lines 506-512) *)
Definition ReadBanner (L : Layout) (E : Env) : M bytes := LoadSectionExeFS L E "banner".
Definition ReadLogo (L : Layout) (E : Env) : M bytes := LoadSectionExeFS L E "logo".


(** A status of [LoadExeFS] other than [ErrorInvalidFormat]. *)
Definition not_a_format_error (e : ResultStatus) : Prop :=
  e <> ErrorInvalidFormat.

(** The statuses of reading the section of a given name, once it is
    found: only [.code] is decompressed. *)
Definition section_status (name : string) (e : ResultStatus) : Prop :=
  e = Error
  \/ (name = ".code" /\ (e = ErrorMemoryAllocationFailed \/ e = ErrorInvalidFormat)).

(** The statuses of [LoadSectionExeFS]. *)
Definition load_section_exefs_status (name : string) (e : ResultStatus) : Prop :=
  load_exefs_status e
  \/ e = ErrorNotUsed
  \/ (name = ".code" /\ e = ErrorMemoryAllocationFailed).

(** A region lockout names a region: the lowest of the seven regions
    whose bit is set in it. *)
Definition names_region (region_lockout region : Z) : Prop :=
  0 <= region < 7
  /\ Z.testbit region_lockout region = true
  /\ forall i, 0 <= i < region -> Z.testbit region_lockout i = false.

(** The region that an icon, as [ReadIcon] delivers it, selects: the
    one its region lockout names, if the buffer holds a whole [SMDH]
    and a bit of the seven is set. *)
Definition region_choice (L : Layout) (smdh_buffer : bytes) (choice : option Z)
    : Prop :=
  if sizeof_SMDH L <=? Z.of_nat (length smdh_buffer) then
    let region_lockout :=
      smdh_region_lockout L (take (Z.to_nat (sizeof_SMDH L)) smdh_buffer) in
    match choice with
    | Some region => names_region region_lockout region
    | None => forall i, 0 <= i < 7 -> Z.testbit region_lockout i = false
    end
  else choice = None.

(** * Concrete inputs *)

(** ** Compressed buffers *)

(** Eight bytes whose footer holds the length field [0xFFFFFFFF]. *)
Definition size_wraps : bytes := [0; 0; 0; 0; 0xFF; 0xFF; 0xFF; 0xFF].

(** Sixteen bytes: a footer with the stop index at 3 and the read cursor
    at 8, a control byte [0x10] (three literals, then a back-reference)
    and the back-reference word [0x0000] in the bytes 2 and 3, so that
    the back-reference is met with the read cursor at 4. *)
Definition crosses_stop : bytes :=
  [0xAA; 0xBB; 0x00; 0x00; 3; 2; 1; 0x10;  0x0D; 0; 0; 8;  4; 0; 0; 0].

(** Sixteen bytes decompressed into sixteen: after three literals a
    back-reference of length 13 fills the output, with two bytes of input
    still before the read cursor and the stop index at 0. *)
Definition fills_output : bytes :=
  [0x00; 0x00; 0x00; 0xA0; 3; 2; 1; 0x10;  0x10; 0; 0; 8;  0; 0; 0; 0].

(** Sixteen bytes decompressed into twenty: one literal, then a
    back-reference of length 3 at distance 18, which lies beyond the end
    of the output. *)
Definition bad_backref : bytes :=
  [0xAA; 0xBB; 0xCC; 0xDD; 0x10; 0x00; 1; 0x40;  0x10; 0; 0; 8;  4; 0; 0; 0].

(** ** A layout, an environment and a key store *)

(** The value of a little-endian field. *)
Definition le_value (field : bytes) : Z :=
  foldr (fun b rest => b + 256 * rest) 0 field.

Definition field (raw : bytes) (off len : nat) : bytes :=
  take len (drop off raw).

(** The characters of a name as [strcmp] reads it: up to the first
    NUL. *)
Fixpoint string_of_name (name : bytes) : string :=
  match name with
  | [] => EmptyString
  | c :: rest =>
      if c =? 0 then EmptyString
      else String (Ascii.ascii_of_nat (Z.to_nat c)) (string_of_name rest)
  end.

(** The offsets of the fields in the documented format of the
    container: a layout to run the loader on concrete files.  The
    theorems below hold for every layout.  The name of a section is
    what [strcmp] sees from the start of its eight-byte field: without
    a NUL among the eight it runs on into the bytes that follow. *)
Definition container_layout : Layout := {|
  sizeof_NCCH_Header := 0x200;
  sizeof_ExHeader_Header := 0x800;
  sizeof_ExeFs_Header := 0x200;
  sizeof_SMDH := 0x36C0;
  magic_NCSD := 0x4453434E;
  magic_NCCH := 0x4843434E;
  as_NCCH_Header := fun raw =>
    NCCH_Header.Make
      (field raw 0 0x100)
      (le_value (field raw 0x100 4))
      (field raw 0x108 8)
      (le_value (field raw 0x112 2))
      (le_value (field raw 0x118 8))
      (fun i => nth i (field raw 0x188 8) 0)
      (le_value (field raw 0x1A0 4))
      (le_value (field raw 0x1A4 4))
      (le_value (field raw 0x1B0 4))
      (le_value (field raw 0x1B4 4));
  as_ExHeader_Header := fun raw =>
    ExHeader_Header.Make
      (le_value (field raw 0x200 8))
      (le_value (field raw 0x0D 1))
      (le_value (field raw 0x10 4))
      (le_value (field raw 0x18 4))
      (le_value (field raw 0x1C 4))
      (le_value (field raw 0x3C 4))
      (le_value (field raw 0x208 4))
      (le_value (field raw 0x20F 1))
      (le_value (field raw 0x36F 1));
  exefs_section := fun raw n =>
    ExeFs_SectionHeader.Make
      (string_of_name (drop (16 * n) raw))
      (le_value (field raw (16 * n + 8) 4))
      (le_value (field raw (16 * n + 12) 4));
  smdh_region_lockout := fun raw => le_value (field raw 0x2018 4)
|}.

(** A stand-in for the cipher: every byte is combined with one pad byte
    made of the key and the counter.  The theorems below hold for every
    cipher. *)
Definition xor_stream (key iv : bytes) (seek : Z) (data : bytes) : bytes :=
  let pad := u8 (foldr Z.add 0 key + foldr Z.add 0 iv) in
  map (Z.lxor pad) data.

Definition two_slots : Env := {|
  aes_ctr := xor_stream;
  normal_key := fun slot _ =>
    match slot with
    | NCCH => Some (replicate 16 0x2C)
    | NCCH7x => Some (replicate 16 0x25)
    | NCCHSec3 | NCCHSec4 => None
    end;
  alloc_ok := fun _ => true;
  reopen_ok := true
|}.

Definition empty_keys : KeyStore := {| key_y_of := fun _ => None; calls := [] |}.

(** A loader that has not read anything yet, on a file of the given
    bytes.  The constructor leaves the three headers as they are in
    memory; they are taken to hold zeros here, which is one of the
    contents they may have.  What is shown on this loader before a
    header has been read in full holds for that content only. *)
Definition fresh_loader (data : bytes) : AppLoader_NCCH := {|
  file := {| IsOpen := true; content := data; pos := 0 |};
  is_loaded := false;
  is_exefs_loaded := false;
  info := {| is_compressed := false; entry_point := 0; code_size := 0;
             stack_size := 0; bss_size := 0; core_version := 0;
             priority := 0; resource_limit_category := 0 |};
  ncch_header := replicate 0x200 0;
  exheader_header := replicate 0x800 0;
  exefs_header := replicate 0x200 0;
  ncch_offset := 0;
  exefs_offset := 0;
  exefs_aes := None;
  exerfs_code_aes := None;
  romfs_aes := None
|}.

Definition fresh_world (data : bytes) : World :=
  {| loader := fresh_loader data; keys := empty_keys; events := [] |}.

(** ** Partition headers *)

Definition a_partition_id : bytes := [0x11; 0x22; 0x33; 0x44; 0x55; 0x66; 0x77; 0x88].

(** A header with the given version and the bytes [flags[3]] and
    [flags[7]]; the ExeFS starts at block 5, the RomFS at block 0x123456. *)
Definition header_with (version method flags7 : Z) : NCCH_Header.t :=
  NCCH_Header.Make (replicate 0x100 0x5A) 0x4843434E a_partition_id version 1
    (fun i => match i with 3%nat => method | 7%nat => flags7 | _ => 0 end)
    5 1 0x123456 8.

(** ** Files *)

Definition tag_NCCH : bytes := [0x4E; 0x43; 0x43; 0x48].
Definition tag_NCSD : bytes := [0x4E; 0x43; 0x53; 0x44].

(** The 0x200 bytes of a header with the given tag, version, method byte
    [flags[3]] and byte [flags[7]]: program identifier 1, the ExeFS in
    the blocks 5 and 6, no RomFS. *)
Definition header_bytes (tag : bytes) (version method flags7 : Z) : bytes :=
  copy_at tag 0x100
    (copy_at a_partition_id 0x108
       (copy_at [version; 0] 0x112
          (copy_at [1] 0x118
             (copy_at [method] 0x18B
                (copy_at [flags7] 0x18F
                   (copy_at [5; 0; 0; 0; 2] 0x1A0 (replicate 0x200 0))))))).

(** The 0x800 bytes of an extended header with the given program
    identifier (one byte) and nothing else. *)
Definition exheader_bytes (program_id : Z) : bytes :=
  copy_at [program_id] 0x200 (replicate 0x800 0).

(** An ExeFS header with the one section [.code], four bytes long. *)
Definition exefs_with_code : bytes :=
  copy_at [46; 99; 111; 100; 101; 0; 0; 0;  0; 0; 0; 0;  4; 0; 0; 0] 0
    (replicate 0x200 0).

Definition some_code : bytes := [0xE1; 0xA0; 0x00; 0x00].

(** An unencrypted partition. *)
Definition plain_cxi : bytes :=
  header_bytes tag_NCCH 0 0 0 ++ exheader_bytes 1 ++ exefs_with_code ++ some_code.

(** An unencrypted partition whose ExeFS has no section. *)
Definition no_code_cxi : bytes :=
  header_bytes tag_NCCH 0 0 0 ++ exheader_bytes 1 ++ replicate 0x200 0.

(** A disc container: the NCSD header, and the partition at the byte
    0x4000; the file ends at the byte 0x4C04. *)
Definition a_cci : bytes :=
  header_bytes tag_NCSD 0 0 0 ++ replicate (Z.to_nat 0x3E00) 0 ++ plain_cxi.

(** A version-0 partition encrypted under the all-zero key, as
    [xor_stream] does it (the pads of the counters with the tags 1 and 2
    are 101 and 102), with the given byte [flags[7]]. *)
Definition fixed_key_cxi (flags7 : Z) : bytes :=
  header_bytes tag_NCCH 0 0 flags7
  ++ map (Z.lxor 101) (exheader_bytes 1)
  ++ map (Z.lxor 102) exefs_with_code
  ++ map (Z.lxor 102) some_code.

(** The same with an extended header that does not decrypt to the
    program identifier of the partition header. *)
Definition garbled_cxi : bytes :=
  header_bytes tag_NCCH 0 0 1
  ++ map (Z.lxor 7) (exheader_bytes 1)
  ++ map (Z.lxor 102) exefs_with_code
  ++ map (Z.lxor 102) some_code.

(** A file of 0x1E00 bytes with nothing but a partition header, whose
    RomFS lies in the blocks 6 to 14; the extended header is blank, so
    the identifiers differ and the file does not load. *)
Definition romfs_only : bytes :=
  copy_at [6; 0; 0; 0; 9] 0x1B0 (header_bytes tag_NCCH 0 0 0)
  ++ replicate 0x1C00 0.

(** ** More concrete inputs *)

(** Eight bytes whose footer puts the read cursor 255 bytes before the
    end of the buffer, that is before its start: the subtraction wraps. *)
Definition cursor_wraps : bytes := [1; 0; 0; 0xFF; 0; 0; 0; 0].

(** A file of 0x200 zero bytes: a whole header, without a magic number. *)
Definition blank_header : bytes := replicate 0x200 0.

(** An environment whose key slots have no key. *)
Definition no_keys : Env := {|
  aes_ctr := xor_stream;
  normal_key := fun _ _ => None;
  alloc_ok := fun _ => true;
  reopen_ok := true
|}.

(** A loader that holds a partition header whose RomFS starts at block 8
    and is one block long, on a file of 0x1E00 bytes. *)
Definition short_romfs : World :=
  on_loader
    (set_ncch_header (copy_at [8; 0; 0; 0; 1] 0x1B0 (header_bytes tag_NCCH 0 0 0)))
    (fresh_world (replicate (Z.to_nat 0x1E00) 0)).

(** A loader with both flags set, as [Load] has it when it calls
    [LoadExec], on an unencrypted partition whose extended header gives
    the given four bytes as the size of the bss. *)
Definition loaded_with_bss (b0 b1 b2 b3 : Z) : World :=
  on_loader
    (fun l =>
       set_is_loaded true
         (set_is_exefs_loaded true
            (set_exefs_header exefs_with_code
               (set_exefs_offset 0xA00
                  (set_exheader_header
                     (copy_at [b0; b1; b2; b3] 0x3C (exheader_bytes 1)) l)))))
    (fresh_world plain_cxi).

(** A loader that takes the code for compressed, on a file with the
    sixteen bytes of [crosses_stop] behind the 0x200 bytes of an ExeFS
    header. *)
Definition compressed_code : World :=
  on_loader
    (set_info {| is_compressed := true; entry_point := 0; code_size := 0;
                 stack_size := 0; bss_size := 0; core_version := 0;
                 priority := 0; resource_limit_category := 0 |})
    (fresh_world (replicate (Z.to_nat 0x200) 0 ++ crosses_stop)).

(** A version-1 header under the fixed key whose RomFS offset, 0x800001
    blocks, is 2^32 + 0x200 in bytes. *)
Definition wrapping_header : NCCH_Header.t :=
  NCCH_Header.Make (replicate 0x100 0x5A) 0x4843434E a_partition_id 1 1
    (fun i => match i with 7%nat => 1 | _ => 0 end)
    5 1 0x800001 8.

(** An ExeFS header with the sections [.code], four bytes at the offset
    0, and [icon], 0x36C0 bytes at the offset 4. *)
Definition exefs_with_code_and_icon : bytes :=
  copy_at [46; 99; 111; 100; 101; 0; 0; 0;  0; 0; 0; 0;  4; 0; 0; 0;
           105; 99; 111; 110; 0; 0; 0; 0;  4; 0; 0; 0;  0xC0; 0x36; 0; 0] 0
    (replicate 0x200 0).

(** An unencrypted partition with code and an icon whose region lockout
    is the given byte. *)
Definition cxi_with_icon (region_lockout : Z) : bytes :=
  header_bytes tag_NCCH 0 0 0 ++ exheader_bytes 1 ++ exefs_with_code_and_icon
  ++ some_code
  ++ copy_at [region_lockout; 0; 0; 0] (Z.to_nat 0x2018)
       (replicate (Z.to_nat 0x36C0) 0).

(** * Properties *)

(** ** Bytes and words *)

Lemma lor_shiftl_add (a b k : Z) :
  0 <= k -> 0 <= a < 2 ^ k -> Z.lor a (Z.shiftl b k) = a + 2 ^ k * b.
Proof.
  intros Hk Ha.
  assert (Hland : Z.land a (Z.shiftl b k) = 0).
  { apply Z.bits_inj'. intros n Hn.
    rewrite Z.land_spec, Z.bits_0.
    destruct (Z.lt_ge_cases n k) as [Hlt | Hge].
    - rewrite (Z.shiftl_spec_low b k n Hlt). apply andb_false_r.
    - assert (Z.testbit a n = false) as ->; [| reflexivity].
      destruct (Z.eq_dec a 0) as [-> | Hne]; [apply Z.bits_0 |].
      apply Z.bits_above_log2; [lia |].
      apply Z.lt_le_trans with k; [| lia].
      apply Z.log2_lt_pow2; lia. }
  rewrite <- (Z.lxor_lor _ _ Hland), <- (Z.add_nocarry_lxor _ _ Hland).
  rewrite Z.shiftl_mul_pow2 by lia. lia.
Qed.

Lemma lor_add (a y k c : Z) :
  0 <= k -> 0 <= a < 2 ^ k -> y = 2 ^ k * c -> Z.lor a y = a + y.
Proof.
  intros Hk Ha ->. rewrite <- (lor_shiftl_add a c k) by assumption.
  rewrite Z.shiftl_mul_pow2 by assumption. f_equal. lia.
Qed.

Lemma read_u32_le32 (buf : bytes) (i b0 b1 b2 b3 : Z) :
  rd buf i = Some b0 -> rd buf (i + 1) = Some b1 ->
  rd buf (i + 2) = Some b2 -> rd buf (i + 3) = Some b3 ->
  is_byte b0 -> is_byte b1 -> is_byte b2 -> is_byte b3 ->
  read_u32 buf i = Some (le32 b0 b1 b2 b3).
Proof.
  unfold read_u32, is_byte, le32. intros -> -> -> -> H0 H1 H2 H3. simpl.
  f_equal. rewrite !Z.shiftl_mul_pow2 by lia.
  rewrite (lor_add (b2 * 2 ^ 16) (b3 * 2 ^ 24) 24 b3) by lia.
  rewrite (lor_add (b1 * 2 ^ 8) _ 16 (b2 + 2 ^ 8 * b3)) by lia.
  rewrite (lor_add b0 _ 8 (b1 + 2 ^ 8 * (b2 + 2 ^ 8 * b3))) by lia.
  lia.
Qed.

Lemma rd_Some_range (buf : bytes) (i b : Z) :
  rd buf i = Some b -> 0 <= i < Z.of_nat (length buf).
Proof.
  unfold rd. destruct (Z.leb_spec 0 i) as [Hi | Hi]; [| discriminate].
  intros H%lookup_lt_Some. lia.
Qed.

Lemma rd_in_range (buf : bytes) (i : Z) :
  0 <= i < Z.of_nat (length buf) -> exists b, rd buf i = Some b.
Proof.
  intros Hi. unfold rd. destruct (Z.leb_spec 0 i) as [_ | ?]; [| lia].
  destruct (lookup_lt_is_Some_2 buf (Z.to_nat i)) as [b Hb]; [lia |].
  exists b. exact Hb.
Qed.

Lemma wr_in_range (buf : bytes) (i v : Z) :
  0 <= i < Z.of_nat (length buf) ->
  wr buf i v = Some (<[Z.to_nat i := v]> buf).
Proof.
  intros Hi. unfold wr.
  destruct (Z.leb_spec 0 i); [| lia].
  destruct (Z.ltb_spec i (Z.of_nat (length buf))); [reflexivity | lia].
Qed.

Lemma wr_length (buf buf' : bytes) (i v : Z) :
  wr buf i v = Some buf' -> length buf' = length buf.
Proof.
  unfold wr. destruct (_ && _); [| discriminate].
  intros [= <-]. apply length_insert.
Qed.

(** ** The decompressor *)

Section LZSS_facts.
Import LZSS.
Variable compressed : bytes.
Variable decompressed_size stop_index : Z.

Local Abbreviation step := (lz_step compressed decompressed_size stop_index).
Local Abbreviation run := (lz_run compressed decompressed_size stop_index).
Local Abbreviation reach := (lz_reach compressed decompressed_size stop_index).
Local Abbreviation copy := (copy_segment decompressed_size).
Local Abbreviation inv := (lz_inv decompressed_size).
Local Abbreviation iter := (lz_iter compressed decompressed_size stop_index).

Lemma copy_segment_inr (n : nat) (so : Z) (st st' : lz_state) :
  copy n so st = inr st' ->
  index st' = index st /\ out st' = out st - Z.of_nat n
  /\ length (decompressed st') = length (decompressed st).
Proof.
  revert st. induction n as [| n IH]; intros st; simpl.
  - intros [= <-]. repeat split; lia.
  - destruct (_ <=? _); [discriminate |].
    destruct (rd _ _); [| discriminate].
    destruct (wr _ _ _) as [d' |] eqn:Hwr; [| discriminate].
    intros H. apply IH in H. simpl in H.
    apply wr_length in Hwr. destruct H as (-> & -> & ->).
    repeat split; lia.
Qed.

(** The guard of line 94 is what makes the copy loop fail: as soon as
    one of the bytes to copy lies at or beyond the end of the output
    buffer, the loop returns [false]. *)
Lemma copy_segment_rejects (n : nat) (so : Z) (st : lz_state) :
  Z.of_nat (length (decompressed st)) = decompressed_size ->
  Z.of_nat n <= out st <= decompressed_size ->
  (exists j, 0 <= j < Z.of_nat n
             /\ decompressed_size <= u32 (out st - j + so)) ->
  exists d, copy n so st = inl (LZ_return false d).
Proof.
  revert st. induction n as [| n IH]; intros st Hlen Hout (j & Hj & Hbad).
  - lia.
  - simpl. destruct (Z.leb_spec decompressed_size (u32 (out st + so))) as [? | Hok].
    + eexists. reflexivity.
    + assert (0 <= u32 (out st + so)) by (apply Z.mod_pos_bound; lia).
      destruct (rd_in_range (decompressed st) (u32 (out st + so))) as [data ->];
        [lia |].
      rewrite wr_in_range by lia.
      apply IH; cbn [decompressed out index].
      * rewrite length_insert. exact Hlen.
      * lia.
      * exists (j - 1). split.
        -- assert (j <> 0) by (intros ->; rewrite Z.sub_0_r in Hbad; lia). lia.
        -- replace (out st - 1 - (j - 1) + so) with (out st - j + so) by lia.
           exact Hbad.
Qed.

Lemma step_measure (c c' : lz_pc * lz_state) :
  step c = Next c' -> (lz_measure c' < lz_measure c)%nat.
Proof.
  destruct c as [[| control i] st]; unfold lz_step, lz_measure.
  - destruct (Z.ltb_spec stop_index (index st)); [| discriminate].
    destruct (rd compressed (index st - 1)) eqn:Hrd; [| discriminate].
    apply rd_Some_range in Hrd. intros [= <-]. simpl. lia.
  - destruct (Z.leb_spec 8 i); [intros [= <-]; simpl; lia |].
    destruct (Z.leb_spec (index st) stop_index); [intros [= <-]; simpl; lia |].
    destruct (Z.leb_spec (index st) 0); [intros [= <-]; simpl; lia |].
    destruct (Z.leb_spec (out st) 0); [intros [= <-]; simpl; lia |].
    destruct (negb _).
    + destruct (Z.ltb_spec (index st) 2); [discriminate |].
      destruct (rd compressed (index st - 2)); [| discriminate].
      destruct (rd compressed (index st - 2 + 1)); [| discriminate].
      destruct (_ <? _); [discriminate |].
      destruct (copy_segment _ _ _ _) as [r | st'] eqn:Hcopy; [discriminate |].
      apply copy_segment_inr in Hcopy as (Hidx & _ & _). simpl in Hidx.
      intros [= <-]. simpl. lia.
    + destruct (_ <? _); [discriminate |].
      destruct (rd compressed (index st - 1)); [| discriminate].
      destruct (wr _ _ _); [| discriminate].
      intros [= <-]. simpl. lia.
Qed.

Lemma run_enough (n : nat) (c : lz_pc * lz_state) :
  (lz_measure c < n)%nat -> exists r, run n c = Some r.
Proof.
  revert c. induction n as [| n IH]; intros c Hn; [lia |].
  simpl. destruct (step c) as [c' | r] eqn:Hstep.
  - apply IH. apply step_measure in Hstep. lia.
  - exists r. reflexivity.
Qed.

Lemma run_mono (n m : nat) (c : lz_pc * lz_state) (r : lz_result) :
  run n c = Some r -> (n <= m)%nat -> run m c = Some r.
Proof.
  revert m c. induction n as [| n IH]; intros m c; [discriminate |].
  intros Hrun Hle. destruct m as [| m]; [lia |].
  simpl in *. destruct (step c); [| exact Hrun].
  apply IH; [exact Hrun | lia].
Qed.

Lemma reach_run (c c' : lz_pc * lz_state) (n : nat) (r : lz_result) :
  reach c c' -> run n c' = Some r -> exists m, run m c = Some r.
Proof.
  intros Hreach. revert n. induction Hreach as [| c1 c2 _ IH Hstep]; intros n Hrun.
  - exists n. exact Hrun.
  - apply (IH (S n)). simpl. rewrite Hstep. exact Hrun.
Qed.

(** From the [while] test the run ends within the steps [lz_fuel]
    allows, whatever the cursors are. *)
Lemma run_from_while (st : lz_state) :
  exists r, run (lz_fuel compressed) (AtWhile, st) = Some r.
Proof.
  destruct (Z.le_gt_cases (index st) (Z.of_nat (length compressed))) as [Hin | Hbig].
  - apply run_enough. unfold lz_measure, lz_fuel. cbn [fst snd]. lia.
  - unfold lz_fuel. simpl. destruct (Z.ltb_spec stop_index (index st)).
    + destruct (rd compressed (index st - 1)) eqn:Hrd.
      * apply rd_Some_range in Hrd. lia.
      * eexists. reflexivity.
    + eexists. reflexivity.
Qed.

Lemma run_agree (n m : nat) (c : lz_pc * lz_state) (r r' : lz_result) :
  run n c = Some r -> run m c = Some r' -> r = r'.
Proof.
  intros Hn Hm.
  apply (run_mono n (n + m)) in Hn; [| lia].
  apply (run_mono m (n + m)) in Hm; [| lia].
  congruence.
Qed.

Lemma step_inv (c c' : lz_pc * lz_state) :
  inv c -> step c = Next c' -> inv c'.
Proof.
  destruct c as [[| control i] st]; unfold lz_step, lz_inv; simpl;
    intros [Hlen Hout].
  - destruct (_ <? _); [| discriminate].
    destruct (rd _ _); [| discriminate].
    intros [= <-]. simpl. auto.
  - destruct (_ <=? _); [intros [= <-]; auto |].
    destruct (_ <=? _); [intros [= <-]; auto |].
    destruct (_ <=? _); [intros [= <-]; auto |].
    destruct (Z.leb_spec (out st) 0); [intros [= <-]; auto |].
    destruct (negb _).
    + destruct (_ <? _); [discriminate |].
      destruct (rd _ _); [| discriminate].
      destruct (rd _ _); [| discriminate].
      match goal with |- context [?a <? ?b] => destruct (Z.ltb_spec a b) end;
        [discriminate |].
      destruct (copy_segment _ _ _ _) as [r | st'] eqn:Hcopy; [discriminate |].
      apply copy_segment_inr in Hcopy as (_ & Ho & Hl). simpl in Ho, Hl.
      intros [= <-]. simpl. rewrite Hl, Ho. split; [exact Hlen |].
      match goal with |- context [Z.land ?a 15] =>
        assert (0 <= Z.land a 15) by (apply Z.land_nonneg; right; lia)
      end.
      lia.
    + destruct (_ <? _); [discriminate |].
      destruct (rd _ _); [| discriminate].
      destruct (wr _ _ _) eqn:Hwr; [| discriminate].
      apply wr_length in Hwr. intros [= <-]. simpl. rewrite Hwr. lia.
Qed.

Lemma reach_inv (c c' : lz_pc * lz_state) :
  inv c -> reach c c' -> inv c'.
Proof.
  intros Hinv Hreach. induction Hreach as [| c1 c2 _ IH Hstep]; [exact Hinv |].
  exact (step_inv _ _ IH Hstep).
Qed.

Lemma lz_iter_reach (n : nat) (c0 c c' : lz_pc * lz_state) :
  reach c0 c -> iter n c = Some c' -> reach c0 c'.
Proof.
  revert c. induction n as [| n IH]; intros c Hreach; simpl.
  - intros [= <-]. exact Hreach.
  - destruct (step c) as [c1 |] eqn:Hstep; [| discriminate].
    apply IH. exact (lz_reach_step _ _ _ _ _ _ Hreach Hstep).
Qed.

End LZSS_facts.

Import LZSS.

Lemma lz_init_inv (compressed : bytes) (compressed_size decompressed_size : Z)
    (stop_index : Z) (st : lz_state) :
  lz_init compressed compressed_size decompressed_size = Some (stop_index, st) ->
  lz_inv decompressed_size (AtWhile, st) /\ 0 <= stop_index.
Proof.
  unfold lz_init, read_u32.
  destruct (rd compressed (compressed_size - 8)) as [b0 |] eqn:H0; [| discriminate].
  apply rd_Some_range in H0. simpl.
  destruct (rd compressed (compressed_size - 8 + 1)); simpl; [| discriminate].
  destruct (rd compressed (compressed_size - 8 + 2)); simpl; [| discriminate].
  destruct (rd compressed (compressed_size - 8 + 3)); simpl; [| discriminate].
  destruct (Z.leb_spec compressed_size (Z.of_nat (length compressed)));
    [| discriminate].
  destruct (Z.leb_spec compressed_size decompressed_size); [| discriminate].
  simpl. intros [= <- <-]. unfold lz_inv. simpl. split.
  - rewrite length_app, length_take, length_replicate. lia.
  - apply Z.mod_pos_bound. lia.
Qed.

(** What a halting step returns is what [LZSS_Decompress] returns. *)
Lemma decompress_halts_with (compressed : bytes)
    (compressed_size decompressed_size stop_index : Z) (st : lz_state)
    (c : lz_pc * lz_state) (r : lz_result) :
  lz_init compressed compressed_size decompressed_size = Some (stop_index, st) ->
  lz_reach compressed decompressed_size stop_index (AtWhile, st) c ->
  lz_step compressed decompressed_size stop_index c = Halt r ->
  LZSS_Decompress compressed compressed_size decompressed_size = r.
Proof.
  intros Hinit Hreach Hstep. unfold LZSS_Decompress. rewrite Hinit.
  destruct (run_from_while compressed decompressed_size stop_index st) as [r0 Hr0].
  rewrite Hr0.
  destruct (reach_run _ _ _ _ _ 1%nat r Hreach) as [m Hm].
  { simpl. rewrite Hstep. reflexivity. }
  exact (run_agree _ _ _ _ _ _ _ _ Hr0 Hm).
Qed.

(** The run never stops for want of steps: the result of
    [LZSS_Decompress] is the result of a halting step. *)
Lemma decompress_total (compressed : bytes)
    (compressed_size decompressed_size stop_index : Z) (st : lz_state) :
  lz_init compressed compressed_size decompressed_size = Some (stop_index, st) ->
  lz_run compressed decompressed_size stop_index (lz_fuel compressed) (AtWhile, st)
  = Some (LZSS_Decompress compressed compressed_size decompressed_size).
Proof.
  intros Hinit. unfold LZSS_Decompress. rewrite Hinit.
  destruct (run_from_while compressed decompressed_size stop_index st) as [r0 Hr0].
  rewrite Hr0. reflexivity.
Qed.

(** C6, as the code has it: the decompressed length is the
    little-endian value of the last four bytes of the buffer plus the
    length of the buffer, reduced modulo 2^32 (the function returns a
    [u32]); it is the plain sum whenever that sum is below 2^32. *)
Theorem decompressed_size_mod_2_32 (buffer : bytes) (size b0 b1 b2 b3 : Z) :
  size = Z.of_nat (length buffer) ->
  Forall is_byte buffer ->
  drop (length buffer - 4) buffer = [b0; b1; b2; b3] ->
  LZSS_GetDecompressedSize buffer size
  = Some ((le32 b0 b1 b2 b3 + size) mod 2 ^ 32)
  /\ (le32 b0 b1 b2 b3 + size < 2 ^ 32 ->
      LZSS_GetDecompressedSize buffer size = Some (le32 b0 b1 b2 b3 + size)).
Proof.
  intros Hsize Hbytes Hlast.
  assert (Hlen : (4 <= length buffer)%nat).
  { apply (f_equal length) in Hlast. rewrite length_drop in Hlast.
    simpl in Hlast. lia. }
  assert (Hrd : forall k b, [b0; b1; b2; b3] !! k = Some b ->
                            rd buffer (size - 4 + Z.of_nat k) = Some b /\ is_byte b).
  { intros k b Hk. rewrite <- Hlast, lookup_drop in Hk. split.
    - unfold rd. destruct (Z.leb_spec 0 (size - 4 + Z.of_nat k)); [| lia].
      rewrite <- Hk. f_equal. lia.
    - rewrite Forall_lookup in Hbytes. exact (Hbytes _ _ Hk). }
  destruct (Hrd 0%nat b0 eq_refl) as [H0 I0].
  destruct (Hrd 1%nat b1 eq_refl) as [H1 I1].
  destruct (Hrd 2%nat b2 eq_refl) as [H2 I2].
  destruct (Hrd 3%nat b3 eq_refl) as [H3 I3].
  rewrite Z.add_0_r in H0. simpl Z.of_nat in H1, H2, H3.
  assert (Heq : LZSS_GetDecompressedSize buffer size
                = Some ((le32 b0 b1 b2 b3 + size) mod 2 ^ 32)).
  { unfold LZSS_GetDecompressedSize.
    rewrite (read_u32_le32 buffer (size - 4) b0 b1 b2 b3) by assumption.
    reflexivity. }
  split; [exact Heq |].
  intros Hsmall. rewrite Heq. f_equal. apply Z.mod_small.
  unfold le32, is_byte in *. lia.
Qed.

Lemma decompressed_size_mod_2_32_witness :
  LZSS_GetDecompressedSize crosses_stop 16 = Some 20.
Proof.
  destruct (decompressed_size_mod_2_32 crosses_stop 16 4 0 0 0) as [_ H].
  - reflexivity.
  - unfold crosses_stop, is_byte. repeat constructor; lia.
  - reflexivity.
  - apply H. reflexivity.
Defined.

(** C6 as stated does not hold: with the length field [0xFFFFFFFF] in
    a buffer of 8 bytes the function returns 7, not 4294967295 + 8. *)
Lemma decompressed_size_wraps :
  drop 4 size_wraps = [0xFF; 0xFF; 0xFF; 0xFF]
  /\ LZSS_GetDecompressedSize size_wraps 8 = Some 7
  /\ 7 <> le32 0xFF 0xFF 0xFF 0xFF + 8.
Proof. repeat split. discriminate. Qed.

(** C2, as the code has it: at a back-reference the decompressor
    returns [false] when fewer than two bytes lie below the read cursor,
    when the length of the back-reference exceeds the write cursor, or
    when one of the bytes to copy lies at or beyond the end of the
    output buffer. *)
Theorem decompress_rejects_backref
    (compressed : bytes) (compressed_size decompressed_size stop_index : Z)
    (st0 st : lz_state) (control i : Z) :
  lz_init compressed compressed_size decompressed_size = Some (stop_index, st0) ->
  lz_reach compressed decompressed_size stop_index
    (AtWhile, st0) (AtFor control i, st) ->
  i < 8 -> stop_index < index st -> 0 < out st ->
  Z.land control 0x80 <> 0 ->
  (index st < 2
   \/ exists b0 b1,
       rd compressed (index st - 2) = Some b0
       /\ rd compressed (index st - 1) = Some b1
       /\ let word := Z.lor b0 (Z.shiftl b1 8) in
          let segment_size := Z.land (Z.shiftr word 12) 15 + 3 in
          let segment_offset := Z.land word 0x0FFF + 2 in
          out st < segment_size
          \/ exists j, 0 <= j < segment_size
                       /\ decompressed_size <= u32 (out st - j + segment_offset)) ->
  exists d,
    LZSS_Decompress compressed compressed_size decompressed_size
    = LZ_return false d.
Proof.
  intros Hinit Hreach Hi Hidx Hout Hbit Hbad.
  destruct (lz_init_inv _ _ _ _ _ Hinit) as [Hinv0 Hstop].
  pose proof (reach_inv _ _ _ _ _ Hinv0 Hreach) as [Hlen Hrange].
  simpl in Hlen, Hrange.
  enough (exists d, lz_step compressed decompressed_size stop_index
                      (AtFor control i, st) = Halt (LZ_return false d))
    as [d Hd].
  { exists d. exact (decompress_halts_with _ _ _ _ _ _ _ Hinit Hreach Hd). }
  unfold lz_step.
  destruct (Z.leb_spec 8 i); [lia |].
  destruct (Z.leb_spec (index st) stop_index); [lia |].
  destruct (Z.leb_spec (index st) 0); [lia |].
  destruct (Z.leb_spec (out st) 0); [lia |].
  destruct (Z.eqb_spec (Z.land control 0x80) 0); [contradiction |]. simpl negb.
  cbv iota.
  destruct Hbad as [Hlow | (b0 & b1 & Hb0 & Hb1 & Hseg)].
  - destruct (Z.ltb_spec (index st) 2); [| lia]. eexists. reflexivity.
  - pose proof (rd_Some_range _ _ _ Hb0).
    destruct (Z.ltb_spec (index st) 2); [lia |].
    replace (index st - 2 + 1) with (index st - 1) by lia.
    rewrite Hb0, Hb1. cbv zeta in Hseg |- *.
    set (segment_size := Z.land (Z.shiftr (Z.lor b0 (Z.shiftl b1 8)) 12) 15 + 3)
      in *.
    set (segment_offset := Z.land (Z.lor b0 (Z.shiftl b1 8)) 0x0FFF + 2) in *.
    assert (3 <= segment_size).
    { unfold segment_size.
      pose proof (Z.land_nonneg (Z.shiftr (Z.lor b0 (Z.shiftl b1 8)) 12) 15).
      lia. }
    destruct (Z.ltb_spec (out st) segment_size) as [? | Hfits].
    + eexists. reflexivity.
    + destruct Hseg as [? | Hj]; [lia |].
      destruct (copy_segment_rejects decompressed_size
                  (Z.to_nat segment_size) segment_offset
                  (LzState (index st - 2) (out st) (decompressed st)))
        as [d Hd]; simpl.
      * exact Hlen.
      * lia.
      * destruct Hj as (j & Hj & Hbad). exists j. split; [lia | exact Hbad].
      * rewrite Hd. exists d. reflexivity.
Qed.

Lemma decompress_rejects_backref_witness :
  exists d, LZSS_Decompress bad_backref 16 20 = LZ_return false d.
Proof.
  apply (decompress_rejects_backref bad_backref 16 20 0
           (LzState 8 20 (bad_backref ++ [0; 0; 0; 0]))
           (LzState 6 19 (bad_backref ++ [0; 0; 0; 1])) 0x80 1).
  - vm_compute. reflexivity.
  - apply (lz_iter_reach _ _ _ 2 _ (AtWhile, LzState 8 20 (bad_backref ++ [0; 0; 0; 0]))).
    + apply lz_reach_refl.
    + vm_compute. reflexivity.
  - lia.
  - simpl. lia.
  - simpl. lia.
  - discriminate.
  - right. exists 0x10, 0x00. split; [vm_compute; reflexivity |]. split; [vm_compute; reflexivity |].
    right. exists 0. vm_compute.
    split; [split; [discriminate | reflexivity] | discriminate].
Defined.

(** C2 as stated does not hold for the read cursor: in [crosses_stop]
    the stop index is 3, a back-reference is met with the read cursor at
    4, its two bytes are taken from the positions 2 and 3, the read
    cursor ends at 2, below the stop index, and the decompressor returns
    [true]. *)
Lemma read_cursor_passes_stop_index :
  let st0 := LzState 8 20 (crosses_stop ++ [0; 0; 0; 0]) in
  let st := LzState 4 17 (crosses_stop ++ [0; 3; 2; 1]) in
  lz_init crosses_stop 16 20 = Some (3, st0)
  /\ lz_reach crosses_stop 20 3 (AtWhile, st0) (AtFor 0x80 3, st)
  /\ Z.land 0x80 0x80 <> 0
  /\ index st - 2 < 3
  /\ lz_step crosses_stop 20 3 (AtFor 0x80 3, st)
     = Next (AtFor 0 4, LzState 2 14 (take 14 crosses_stop ++ [3; 2; 1; 3; 2; 1]))
  /\ LZSS_Decompress crosses_stop 16 20
     = LZ_return true (take 14 crosses_stop ++ [3; 2; 1; 3; 2; 1]).
Proof.
  cbv zeta. split; [vm_compute; reflexivity |]. split.
  - apply (lz_iter_reach _ _ _ 4 _
             (AtWhile, LzState 8 20 (crosses_stop ++ [0; 0; 0; 0]))).
    + apply lz_reach_refl.
    + vm_compute. reflexivity.
  - split; [discriminate |]. split; [simpl; lia |]. split; vm_compute; reflexivity.
Qed.

(** The write cursor: in [fills_output] a back-reference brings the
    write cursor to 0 while two bytes of input remain above the stop
    index; the symbols left are skipped and the result is [true]. *)
Lemma write_cursor_at_start :
  let st0 := LzState 8 16 fills_output in
  let filled := [1; 3; 2; 1; 3; 2; 1; 3; 2; 1; 3; 2; 1; 3; 2; 1] in
  lz_init fills_output 16 16 = Some (0, st0)
  /\ lz_reach fills_output 16 0 (AtWhile, st0) (AtFor 0 4, LzState 2 0 filled)
  /\ LZSS_Decompress fills_output 16 16 = LZ_return true filled.
Proof.
  cbv zeta. split; [vm_compute; reflexivity |]. split; [| vm_compute; reflexivity].
  apply (lz_iter_reach _ _ _ 5 _ (AtWhile, LzState 8 16 fills_output)).
  - apply lz_reach_refl.
  - vm_compute. reflexivity.
Qed.

(** ** Key derivation *)

Lemma be32_value (v : Z) :
  0 <= v < 2 ^ 32 ->
  Forall is_byte (be32 v)
  /\ v = 2 ^ 24 * (v / 2 ^ 24 mod 256) + 2 ^ 16 * (v / 2 ^ 16 mod 256)
         + 2 ^ 8 * (v / 2 ^ 8 mod 256) + v mod 256.
Proof.
  intros Hv. split.
  - unfold be32, is_byte. repeat constructor; apply Z.mod_pos_bound; lia.
  - Z.div_mod_to_equations. lia.
Qed.

Lemma u32ToBEArray_be32 (v : Z) : 0 <= v < 2 ^ 32 -> u32ToBEArray v = be32 v.
Proof.
  intros Hv. unfold u32ToBEArray, be32, u8.
  change 0xFF with (Z.ones 8).
  rewrite !Z.land_ones, !Z.shiftr_div_pow2 by lia.
  rewrite !Z.mod_mod by lia. reflexivity.
Qed.

Section Derivation.
Context (E : Env).

(** Unfolding the operations down to the state they pass along. *)
Ltac run_ops :=
  unfold derive, derive_counters, derive_keys, alternate_slot,
    set_code_romfs_key, set_exefs_key, key_into,
    SetKeyY, IsNormalKeyAvailable, GetNormalKey, InitKeys,
    bind, get, modify, ret, fail, undefined in *.

(** The keys are assigned without touching a counter. *)
Lemma derive_keys_ctr (h : NCCH_Header.t) (a a' : AesContext) (w w' : World) :
  derive_keys E h a w = Ret a' w' ->
  ctr a' = ctr a
  /\ ctr <$> exefs_aes (loader w') = ctr <$> exefs_aes (loader w)
  /\ ctr <$> exerfs_code_aes (loader w') = ctr <$> exerfs_code_aes (loader w)
  /\ ctr <$> romfs_aes (loader w') = ctr <$> romfs_aes (loader w).
Proof.
  run_ops. destruct w as [[] ? ?]; simpl.
  destruct exefs_aes0, exerfs_code_aes0, romfs_aes0; simpl;
    repeat (match goal with
            | |- context [if ?b then _ else _] => destruct b
            end; simpl);
    try discriminate; intros [= <- <-]; simpl; auto.
Qed.

(** Whatever it returns, the derivation leaves every member other than
    the three contexts as it was. *)
Lemma derive_frame (h : NCCH_Header.t) (w : World) :
  match world_of (derive E h w) with
  | Some w' =>
      events w' = events w
      /\ forall fs code romfs,
           set_aes fs code romfs (loader w') = set_aes fs code romfs (loader w)
  | None => True
  end.
Proof.
  run_ops. destruct w as [[] ? ?]; simpl.
  destruct (version_contexts h); simpl; [| auto].
  repeat (match goal with
          | |- context [if ?b then _ else _] => destruct b
          end; simpl); auto.
Qed.

(** The contexts as the version branch leaves them, written out. *)
Lemma version_contexts_known (h : NCCH_Header.t) :
  let pid := NCCH_Header.partition_id h in
  let v := NCCH_Header.version h in
  let offset n := be32 ((n * kBlockSize) mod 2 ^ 32) in
  let exheader_ctr :=
    if v =? 1 then pid ++ [0; 0; 0; 0] ++ be32 0x200
    else reverse pid ++ [1; 0; 0; 0; 0; 0; 0; 0] in
  let exefs_ctr :=
    if v =? 1 then pid ++ [0; 0; 0; 0] ++ offset (NCCH_Header.exefs_offset h)
    else reverse pid ++ [2; 0; 0; 0; 0; 0; 0; 0] in
  let romfs_ctr :=
    if v =? 1 then pid ++ [0; 0; 0; 0] ++ offset (NCCH_Header.romfs_offset h)
    else reverse pid ++ [3; 0; 0; 0; 0; 0; 0; 0] in
  length pid = 8%nat ->
  v = 0 \/ v = 1 \/ v = 2 ->
  version_contexts h
  = Some {| cs_exheader := {| key := zeros16; ctr := exheader_ctr |};
            cs_exefs := {| key := zeros16; ctr := exefs_ctr |};
            cs_code := {| key := zeros16; ctr := exefs_ctr |};
            cs_romfs := {| key := zeros16; ctr := romfs_ctr |} |}.
Proof.
  intros pid v offset exheader_ctr exefs_ctr romfs_ctr Hlen Hv.
  assert (Hpid : exists p0 p1 p2 p3 p4 p5 p6 p7,
             NCCH_Header.partition_id h = [p0; p1; p2; p3; p4; p5; p6; p7]).
  { subst pid. destruct (NCCH_Header.partition_id h) as [| p0 [| p1 [| p2 [| p3
      [| p4 [| p5 [| p6 [| p7 [| ? ?]]]]]]]]]; try discriminate.
    repeat eexists. }
  destruct Hpid as (p0 & p1 & p2 & p3 & p4 & p5 & p6 & p7 & Hpid).
  subst exheader_ctr exefs_ctr romfs_ctr offset pid v.
  unfold version_contexts.
  destruct Hv as [Hv | [Hv | Hv]]; rewrite Hv; simpl orb; cbv iota.
  - change (0 =? 1) with false. cbv iota. rewrite Hpid. reflexivity.
  - change (1 =? 1) with true. cbv iota. rewrite Hpid. unfold kBlockSize.
    rewrite !u32ToBEArray_be32
      by (try (apply Z.mod_pos_bound; lia); unfold u32;
          try (apply Z.mod_pos_bound; lia); lia).
    reflexivity.
  - change (2 =? 1) with false. cbv iota. rewrite Hpid. reflexivity.
Qed.

(** The keys as lines 334-395 assign them: one to the extended header
    and the ExeFS, one to the code section and the RomFS; the two are
    the same with the fixed-key flag set and with the method 0. *)
Lemma derive_keys_shape (h : NCCH_Header.t) (a a' x c r : AesContext)
    (w w' : World) :
  exefs_aes (loader w) = Some x ->
  exerfs_code_aes (loader w) = Some c ->
  romfs_aes (loader w) = Some r ->
  derive_keys E h a w = Ret a' w' ->
  exists k k2,
    a' = set_key k a
    /\ exefs_aes (loader w') = Some (set_key k x)
    /\ exerfs_code_aes (loader w') = Some (set_key k2 c)
    /\ romfs_aes (loader w') = Some (set_key k2 r)
    /\ (Z.land (NCCH_Header.flags h 7) 1 <> 0 \/ NCCH_Header.flags h 3 = 0 ->
        k2 = k).
Proof.
  run_ops. destruct w as [[] ? ?]; simpl. intros -> -> ->.
  destruct (Z.eqb_spec (Z.land (NCCH_Header.flags h 7) 1) 0) as [Hf | Hf]; simpl.
  2:{ intros [= <- <-]. exists zeros16, zeros16. simpl.
      split; [reflexivity |]. split; [reflexivity |]. split; [reflexivity |].
      split; [reflexivity |]. intros _. reflexivity. }
  destruct (Z.land (NCCH_Header.flags h 7) 32 =? 0); simpl; [| discriminate].
  match goal with |- context [bool_decide ?P] => destruct (bool_decide P) end;
    simpl; [| discriminate].
  destruct (Z.eqb_spec (NCCH_Header.flags h 3) 0) as [Hm | Hm]; simpl.
  { intros [= <- <-]. simpl. eexists _, _.
    split; [reflexivity |]. split; [reflexivity |]. split; [reflexivity |].
    split; [reflexivity |]. intros _. reflexivity. }
  repeat (match goal with
          | |- context [if ?b then _ else _] => destruct b
          end; simpl);
    try discriminate; intros [= <- <-]; simpl; eexists _, _;
    (split; [reflexivity |]); (split; [reflexivity |]);
    (split; [reflexivity |]); (split; [reflexivity |]);
    intros [Hc | Hc]; contradiction.
Qed.

(** C1, as the code has it: the contexts that the finished derivation
    hands on.  For version 0 or 2 the counter is the reversed partition
    identifier, a tag in the byte 8 (1 for the extended header, 2 for the
    ExeFS and the code section, 3 for the RomFS) and seven zero bytes.
    For version 1 it is the partition identifier, four zero bytes (the
    byte of the tag among them) and, in the bytes 12 to 15, the
    big-endian offset of the region: [0x200], and the two offsets of the
    header times the block size, reduced modulo 2^32.  In every version
    the counter of the code section is that of the ExeFS.  The extended
    header and the ExeFS share one key, the code section and the RomFS
    another; the two are the same with the fixed-key flag set, when all
    keys are zero and the derivation succeeds, and with the method 0.
    For any other version the derivation returns [ErrorEncrypted]. *)
Theorem counters_by_version (h : NCCH_Header.t) (w : World) :
  let pid := NCCH_Header.partition_id h in
  let v := NCCH_Header.version h in
  let offset n := be32 ((n * kBlockSize) mod 2 ^ 32) in
  let exheader_ctr :=
    if v =? 1 then pid ++ [0; 0; 0; 0] ++ be32 0x200
    else reverse pid ++ [1; 0; 0; 0; 0; 0; 0; 0] in
  let exefs_ctr :=
    if v =? 1 then pid ++ [0; 0; 0; 0] ++ offset (NCCH_Header.exefs_offset h)
    else reverse pid ++ [2; 0; 0; 0; 0; 0; 0; 0] in
  let romfs_ctr :=
    if v =? 1 then pid ++ [0; 0; 0; 0] ++ offset (NCCH_Header.romfs_offset h)
    else reverse pid ++ [3; 0; 0; 0; 0; 0; 0; 0] in
  length pid = 8%nat ->
  (v <> 0 -> v <> 1 -> v <> 2 -> derive E h w = Fail ErrorEncrypted w)
  /\ (v = 0 \/ v = 1 \/ v = 2 ->
      (Z.land (NCCH_Header.flags h 7) 1 <> 0 ->
       derive E h w
       = Ret {| key := zeros16; ctr := exheader_ctr |}
           (on_loader
              (set_aes (Some {| key := zeros16; ctr := exefs_ctr |})
                 (Some {| key := zeros16; ctr := exefs_ctr |})
                 (Some {| key := zeros16; ctr := romfs_ctr |})) w))
      /\ (forall a w',
            derive E h w = Ret a w' ->
            exists k k2,
              a = {| key := k; ctr := exheader_ctr |}
              /\ exefs_aes (loader w') = Some {| key := k; ctr := exefs_ctr |}
              /\ exerfs_code_aes (loader w')
                 = Some {| key := k2; ctr := exefs_ctr |}
              /\ romfs_aes (loader w') = Some {| key := k2; ctr := romfs_ctr |}
              /\ (Z.land (NCCH_Header.flags h 7) 1 <> 0
                  \/ NCCH_Header.flags h 3 = 0 -> k2 = k))).
Proof.
  intros pid v offset exheader_ctr exefs_ctr romfs_ctr Hlen.
  split.
  - intros H0 H1 H2. subst v.
    unfold derive, derive_counters, bind, version_contexts.
    destruct (Z.eqb_spec (NCCH_Header.version h) 0); [contradiction |].
    destruct (Z.eqb_spec (NCCH_Header.version h) 2); [contradiction |].
    destruct (Z.eqb_spec (NCCH_Header.version h) 1); [contradiction |].
    reflexivity.
  - intros Hv.
    pose proof (version_contexts_known h Hlen Hv) as Hcs. cbv zeta in Hcs.
    fold pid v in Hcs. fold offset in Hcs.
    fold exheader_ctr exefs_ctr romfs_ctr in Hcs.
    split.
    + intros Hfixed. apply Z.eqb_neq in Hfixed. run_ops.
      rewrite Hcs, Hfixed. simpl. destruct w as [[] ? ?]. reflexivity.
    + intros a w' Hrun. unfold derive, derive_counters, bind in Hrun.
      rewrite Hcs in Hrun. unfold modify, ret in Hrun.
      cbn [cs_exheader cs_exefs cs_code cs_romfs] in Hrun.
      eapply derive_keys_shape in Hrun as (k & k2 & Ha & Hx & Hc & Hr & Hk);
        [| destruct w as [[] ? ?]; reflexivity ..].
      exists k, k2. repeat (split; [assumption |]). exact Hk.
Qed.


(** C4, as the code has it: with the fixed-key flag clear, a method
    byte other than 0, 1, 0x0A and 0x0B makes the derivation return
    [ErrorEncrypted]; when the version is known, the seed flag is clear
    and the key of the slot [NCCH] is available, this happens at the
    [default] of the [switch], after the key store has been initialised
    and the slot [NCCH] has been given its key-seed and has been queried. *)
Theorem unknown_method_rejected (h : NCCH_Header.t) (w : World) :
  let method := NCCH_Header.flags h 3 in
  let key_y := take 16 (NCCH_Header.signature h) in
  Z.land (NCCH_Header.flags h 7) 1 = 0 ->
  method <> 0 -> method <> 1 -> method <> 0x0A -> method <> 0x0B ->
  (exists w', derive E h w = Fail ErrorEncrypted w')
  /\ (is_Some (version_contexts h) ->
      Z.land (NCCH_Header.flags h 7) 0x20 = 0 ->
      is_Some (normal_key E NCCH key_y) ->
      exists w',
        derive E h w = Fail ErrorEncrypted w'
        /\ calls (keys w')
           = calls (keys w)
             ++ [OpInitKeys; OpSetKeyY NCCH key_y;
                 OpIsNormalKeyAvailable NCCH; OpGetNormalKey NCCH]).
Proof.
  intros method key_y Hfixed H0 H1 HA HB. subst method key_y.
  apply Z.eqb_neq in H0, H1, HA, HB.
  split.
  - run_ops. destruct (version_contexts h); [| eexists; reflexivity].
    rewrite Hfixed, H0, H1, HA, HB. simpl.
    repeat (match goal with
            | |- context [if ?b then _ else _] => destruct b
            end; simpl); eexists; reflexivity.
  - intros [cs Hcs] Hseed [k Hk]. run_ops. rewrite Hcs.
    rewrite Hfixed, Hseed, H0, H1, HA, HB. simpl.
    unfold slot_key. simpl. rewrite Hk. simpl.
    eexists. split; [reflexivity |]. simpl.
    rewrite <- !app_assoc. reflexivity.
Qed.

End Derivation.

Lemma counters_by_version_witness :
  derive two_slots (header_with 0 0 1) (fresh_world [])
  = Ret {| key := zeros16;
           ctr := reverse a_partition_id ++ [1; 0; 0; 0; 0; 0; 0; 0] |}
      (on_loader
         (set_aes
            (Some {| key := zeros16;
                     ctr := reverse a_partition_id ++ [2; 0; 0; 0; 0; 0; 0; 0] |})
            (Some {| key := zeros16;
                     ctr := reverse a_partition_id ++ [2; 0; 0; 0; 0; 0; 0; 0] |})
            (Some {| key := zeros16;
                     ctr := reverse a_partition_id ++ [3; 0; 0; 0; 0; 0; 0; 0] |}))
         (fresh_world []))
  /\ match derive two_slots (header_with 1 0 0) (fresh_world []) with
     | Ret a w' =>
         ctr a = a_partition_id ++ [0; 0; 0; 0] ++ [0; 0; 2; 0]
         /\ exerfs_code_aes (loader w') = exefs_aes (loader w')
         /\ ctr <$> exefs_aes (loader w')
            = Some (a_partition_id ++ [0; 0; 0; 0] ++ [0; 0; 0x0A; 0])
         /\ ctr <$> romfs_aes (loader w')
            = Some (a_partition_id ++ [0; 0; 0; 0] ++ [0x24; 0x68; 0xAC; 0])
     | _ => False
     end
  /\ derive two_slots (header_with 3 0 0) (fresh_world [])
     = Fail ErrorEncrypted (fresh_world []).
Proof.
  split; [| split].
  - destruct (counters_by_version two_slots (header_with 0 0 1) (fresh_world [])
                eq_refl) as (_ & H).
    destruct (H (or_introl eq_refl)) as (Hfixed & _).
    apply Hfixed. vm_compute. intros Hx. discriminate Hx.
  - destruct (derive two_slots (header_with 1 0 0) (fresh_world []))
      as [a w' | e w' |] eqn:Hrun;
      [| vm_compute in Hrun; discriminate Hrun
       | vm_compute in Hrun; discriminate Hrun].
    destruct (counters_by_version two_slots (header_with 1 0 0) (fresh_world [])
                eq_refl) as (_ & H).
    destruct (H (or_intror (or_introl eq_refl))) as (_ & Hany).
    destruct (Hany a w' Hrun) as (k & k2 & -> & Hx & Hc & Hr & Hk).
    rewrite Hx, Hc, Hr, (Hk (or_intror eq_refl)).
    repeat split.
  - destruct (counters_by_version two_slots (header_with 3 0 0) (fresh_world [])
                eq_refl) as (H & _).
    apply H; intros Hx; discriminate Hx.
Defined.

(** C1 as stated does not hold of the contexts that the derivation
    hands on.  In version 1 with the method 1 the code section has the
    counter of the ExeFS but its own key, so the two contexts differ;
    in version 0 with the method 1 the contexts of the ExeFS and of the
    RomFS differ in the key as well as in the tag.  In version 1 the
    byte 8, where the versions 0 and 2 put the tag, stays zero, and an
    offset of the header that does not fit 32 bits once scaled is
    reduced. *)
Lemma code_context_has_its_own_key :
  match derive two_slots (header_with 1 1 0) (fresh_world []) with
  | Ret a w' =>
      exerfs_code_aes (loader w') <> exefs_aes (loader w')
      /\ ctr <$> exerfs_code_aes (loader w') = ctr <$> exefs_aes (loader w')
      /\ key <$> exefs_aes (loader w') = Some (replicate 16 0x2C)
      /\ key <$> exerfs_code_aes (loader w') = Some (replicate 16 0x25)
      /\ ctr a !! 8%nat = Some 0
  | _ => False
  end
  /\ match derive two_slots (header_with 0 1 0) (fresh_world []) with
     | Ret a w' =>
         key <$> exefs_aes (loader w') = Some (replicate 16 0x2C)
         /\ key <$> romfs_aes (loader w') = Some (replicate 16 0x25)
     | _ => False
     end
  /\ match derive two_slots wrapping_header (fresh_world []) with
     | Ret a w' =>
         NCCH_Header.romfs_offset wrapping_header * kBlockSize = 2 ^ 32 + 0x200
         /\ ctr <$> romfs_aes (loader w')
            = Some (a_partition_id ++ [0; 0; 0; 0] ++ [0; 0; 2; 0])
     | _ => False
     end.
Proof.
  vm_compute. repeat split; intros Hx; discriminate Hx.
Qed.

Lemma unknown_method_rejected_witness :
  exists w',
    derive two_slots (header_with 0 5 0) (fresh_world [])
    = Fail ErrorEncrypted w'
    /\ calls (keys w')
       = [OpInitKeys; OpSetKeyY NCCH (replicate 16 0x5A);
          OpIsNormalKeyAvailable NCCH; OpGetNormalKey NCCH].
Proof.
  destruct (unknown_method_rejected two_slots (header_with 0 5 0) (fresh_world []))
    as [_ H]; try discriminate; [reflexivity |].
  apply H.
  - eexists. reflexivity.
  - reflexivity.
  - eexists. reflexivity.
Defined.

(** C4 as stated does not hold.  With the fixed-key flag set the method
    byte is not looked at: the method 5 is accepted.  With the flag
    clear the method 5 is rejected, but only after four calls to the key
    store. *)
Lemma unknown_method_and_the_key_store :
  status (derive two_slots (header_with 0 5 1) (fresh_world [])) = Some Success
  /\ status (derive two_slots (header_with 0 5 0) (fresh_world []))
     = Some ErrorEncrypted
  /\ (calls <$> (keys <$> world_of (derive two_slots (header_with 0 5 0)
                                      (fresh_world []))))
     = Some [OpInitKeys; OpSetKeyY NCCH (replicate 16 0x5A);
             OpIsNormalKeyAvailable NCCH; OpGetNormalKey NCCH]
  /\ calls (keys (fresh_world [])) = [].
Proof. repeat split; vm_compute; reflexivity. Qed.

(** ** Invariants of the loader's operations *)

Section Invariants.
Context {A B : Type}.

Lemma bind_Ret (m : M A) (k : A -> M B) (w w2 : World) (b : B) :
  bind m k w = Ret b w2 -> exists a w1, m w = Ret a w1 /\ k a w1 = Ret b w2.
Proof.
  unfold bind. destruct (m w) as [a w1 | |]; try discriminate.
  intros H. exists a, w1. split; [reflexivity | exact H].
Qed.

Lemma keeps_bind (P : World -> Prop) (m : M A) (k : A -> M B) :
  keeps P m -> (forall a, keeps P (k a)) -> keeps P (bind m k).
Proof.
  intros Hm Hk w Hw. unfold bind. specialize (Hm w Hw).
  destruct (m w) as [a w1 | |]; [| exact Hm | exact I].
  exact (Hk a w1 Hm).
Qed.

Lemma keeps_ret (P : World -> Prop) (a : A) : keeps P (ret a).
Proof. intros w Hw. exact Hw. Qed.

Lemma keeps_fail (P : World -> Prop) (e : ResultStatus) : keeps P (@fail A e).
Proof. intros w Hw. exact Hw. Qed.

Lemma keeps_undefined (P : World -> Prop) : keeps P (@undefined A).
Proof. intros w Hw. exact I. Qed.

Lemma ensures_bind (Q : World -> Prop) (m : M A) (k : A -> M B) :
  (forall a, ensures Q (k a)) -> ensures Q (bind m k).
Proof.
  intros Hk w. unfold bind. destruct (m w) as [a w1 | |]; [| exact I | exact I].
  exact (Hk a w1).
Qed.

Lemma ensures_fail (Q : World -> Prop) (e : ResultStatus) : ensures Q (@fail A e).
Proof. intros w. exact I. Qed.

End Invariants.

Lemma keeps_get (P : World -> Prop) : keeps P get.
Proof. intros w Hw. exact Hw. Qed.

Lemma keeps_modify (P : World -> Prop) (f : World -> World) :
  (forall w, P w -> P (f w)) -> keeps P (modify f).
Proof. intros Hf w Hw. exact (Hf w Hw). Qed.

Lemma ensures_modify (Q : World -> Prop) (f : World -> World) :
  (forall w, Q (f w)) -> ensures Q (modify f).
Proof. intros Hf w. exact (Hf w). Qed.

(** A property that does not look at the file is kept by the file
    operations; one that does not look at the key store, by the calls to
    the key store. *)
Lemma keeps_Seek (P : World -> Prop) (off : Z) :
  (forall w f, P w -> P (on_loader (set_file f) w)) -> keeps P (Seek off).
Proof. intros HP w Hw. apply HP. exact Hw. Qed.

Lemma keeps_ReadBytes (P : World -> Prop) (n : Z) :
  (forall w f, P w -> P (on_loader (set_file f) w)) -> keeps P (ReadBytes n).
Proof. intros HP w Hw. apply HP. exact Hw. Qed.

Lemma keeps_InitKeys (P : World -> Prop) :
  (forall w g, P w -> P (on_keys g w)) -> keeps P InitKeys.
Proof. intros HP w Hw. apply HP. exact Hw. Qed.

Lemma keeps_SetKeyY (P : World -> Prop) (slot : KeySlotID) (y : bytes) :
  (forall w g, P w -> P (on_keys g w)) -> keeps P (SetKeyY slot y).
Proof. intros HP w Hw. apply HP. exact Hw. Qed.

Lemma keeps_IsNormalKeyAvailable (P : World -> Prop) (E : Env) (slot : KeySlotID) :
  (forall w g, P w -> P (on_keys g w)) -> keeps P (IsNormalKeyAvailable E slot).
Proof. intros HP w Hw. apply HP. exact Hw. Qed.

Lemma keeps_GetNormalKey (P : World -> Prop) (E : Env) (slot : KeySlotID) :
  (forall w g, P w -> P (on_keys g w)) -> keeps P (GetNormalKey E slot).
Proof. intros HP w Hw. apply HP. exact Hw. Qed.

(** The side conditions: the property is a statement about members that
    the assignment at hand leaves alone. *)
Ltac untouched :=
  let w := fresh "w" in
  intros w; intros; destruct w as [[] ? ?]; cbn in *; tauto.

(** One rule of the above, chosen by the shape of the operation, or a
    case analysis on the test of an [if] or on the scrutinee of a
    [match]. *)
Ltac keeps_step :=
  lazymatch goal with
  | |- keeps _ (ret _) => apply keeps_ret
  | |- keeps _ (fail _) => apply keeps_fail
  | |- keeps _ undefined => apply keeps_undefined
  | |- keeps _ get => apply keeps_get
  | |- keeps _ (bind _ _) => apply keeps_bind; [| intros ?]
  | |- keeps _ (modify _) => apply keeps_modify; untouched
  | |- keeps _ (Seek _) => apply keeps_Seek; untouched
  | |- keeps _ (ReadBytes _) => apply keeps_ReadBytes; untouched
  | |- keeps _ InitKeys => apply keeps_InitKeys; untouched
  | |- keeps _ (SetKeyY _ _) => apply keeps_SetKeyY; untouched
  | |- keeps _ (IsNormalKeyAvailable _ _) =>
      apply keeps_IsNormalKeyAvailable; untouched
  | |- keeps _ (GetNormalKey _ _) => apply keeps_GetNormalKey; untouched
  | |- keeps _ (if ?b then _ else _) => destruct b
  | |- keeps _ (match ?o with _ => _ end) => destruct o
  end.

Ltac keeps_all := repeat keeps_step.

Section LoaderInvariants.
Context (L : Layout) (E : Env).

Lemma read_headers_flags (b1 b2 : bool) : keeps (flags_are b1 b2) (read_headers L).
Proof. unfold read_headers, read_into, flags_are. keeps_all. Qed.

Lemma derive_flags (b1 b2 : bool) (h : NCCH_Header.t) :
  keeps (flags_are b1 b2) (derive E h).
Proof.
  unfold derive, derive_counters, derive_keys, alternate_slot,
    set_code_romfs_key, set_exefs_key, key_into, flags_are.
  keeps_all.
Qed.

Lemma decrypt_exheader_flags (b1 b2 : bool) (a : AesContext) :
  keeps (flags_are b1 b2) (decrypt_exheader L E a).
Proof. unfold decrypt_exheader, flags_are. keeps_all. Qed.

End LoaderInvariants.

Section LoaderFacts.
Context (L : Layout) (E : Env).

Ltac unfold_loader :=
  unfold LoadExeFS, read_headers, read_exefs_header, decrypt_exheader,
    read_into, derive, derive_counters, derive_keys, alternate_slot,
    set_code_romfs_key, set_exefs_key, key_into, load_section.

Lemma LoadExeFS_loaded_is (b : bool) : keeps (loaded_is b) (LoadExeFS L E).
Proof. unfold_loader. unfold loaded_is. keeps_all. Qed.

Lemma load_section_loaded_is (b : bool) (s : ExeFs_SectionHeader.t) :
  keeps (loaded_is b) (load_section L E s).
Proof. unfold_loader. unfold loaded_is. keeps_all. Qed.

Lemma scan_sections_loaded_is (b : bool) (name : string) (ns : list nat) :
  keeps (loaded_is b) (scan_sections L E name ns).
Proof.
  induction ns as [| n ns IH]; simpl.
  - apply keeps_fail.
  - apply keeps_bind; [apply keeps_get | intros w].
    destruct (String.eqb _ _); [apply load_section_loaded_is | exact IH].
Qed.

Lemma LoadSectionExeFS_loaded_is (b : bool) (name : string) :
  keeps (loaded_is b) (LoadSectionExeFS L E name).
Proof.
  unfold LoadSectionExeFS.
  apply keeps_bind; [apply keeps_get | intros w].
  destruct (negb _); [apply keeps_fail |].
  apply keeps_bind; [apply LoadExeFS_loaded_is | intros _].
  apply scan_sections_loaded_is.
Qed.

Lemma LoadExec_loaded_is (b : bool) : keeps (loaded_is b) (LoadExec L E).
Proof.
  intros w Hw. unfold LoadExec.
  destruct (negb _); [exact Hw |].
  pose proof (LoadSectionExeFS_loaded_is b ".code" w Hw) as H.
  unfold ReadCode. destruct (LoadSectionExeFS L E ".code" w); auto.
Qed.

Lemma ParseRegionLockoutInfo_loaded_is (b : bool) :
  keeps (loaded_is b) (ParseRegionLockoutInfo L E).
Proof.
  intros w Hw. unfold ParseRegionLockoutInfo.
  pose proof (LoadSectionExeFS_loaded_is b "icon" w Hw) as H.
  unfold ReadIcon. destruct (LoadSectionExeFS L E "icon" w); auto.
  destruct (_ <=? _); [| exact H].
  destruct (first_region _ _ _); exact H.
Qed.

(** [LoadExeFS] comes back with [Success] only with the flag set. *)
Lemma LoadExeFS_sets_flag (w w' : World) :
  LoadExeFS L E w = Ret tt w' -> is_exefs_loaded (loader w') = true.
Proof.
  unfold LoadExeFS, bind at 1, get.
  destruct (is_exefs_loaded (loader w)) eqn:Hflag.
  - intros [= <-]. exact Hflag.
  - intros H.
    assert (Hens : ensures (fun w => is_exefs_loaded (loader w) = true)
                     (read_exefs_header L E)).
    { unfold read_exefs_header.
      repeat (apply ensures_bind; intros ?).
      destruct (negb _); [apply ensures_fail |].
      repeat (apply ensures_bind; intros ?).
      apply ensures_modify. intros [[] ? ?]. reflexivity. }
    apply bind_Ret in H as (_ & w1 & _ & H).
    apply bind_Ret in H as (w1' & w1'' & _ & H).
    apply bind_Ret in H as (_ & w2 & _ & H).
    specialize (Hens w2). rewrite H in Hens. exact Hens.
Qed.

(** Called with the flag set, [LoadExeFS] returns at once. *)
Lemma LoadExeFS_again (w : World) :
  is_exefs_loaded (loader w) = true -> LoadExeFS L E w = Ret tt w.
Proof. intros H. unfold LoadExeFS, bind, get. rewrite H. reflexivity. Qed.

Lemma Load_again (w : World) :
  is_loaded (loader w) = true -> Load L E w = Fail ErrorAlreadyLoaded w.
Proof. intros H. unfold Load, bind, get. rewrite H. reflexivity. Qed.

(** The two ways [Load] goes on after [LoadExeFS]. *)
Lemma Load_unfold (w w1 : World) :
  is_loaded (loader w) = false ->
  LoadExeFS L E w = Ret tt w1 ->
  let w2 := on_loader (set_is_loaded true)
              (emit (EvTelemetryProgramId
                       (NCCH_Header.program_id (the_ncch_header L w1))) w1) in
  Load L E w =
  match LoadExec L E w2 with
  | Ret _ w3 => ParseRegionLockoutInfo L E (emit EvRegisterArchiveType w3)
  | Fail e w3 => Fail e w3
  | Undefined => Undefined
  end.
Proof.
  intros Hflag Hexefs. unfold Load, bind, get, modify.
  rewrite Hflag, Hexefs. reflexivity.
Qed.

(** C8: a second [LoadExeFS] after a successful one returns [Success]
    again and leaves the world as it is; a second [Load] after a
    successful one returns [ErrorAlreadyLoaded]. *)
Theorem second_call (w w' : World) :
  (LoadExeFS L E w = Ret tt w' -> LoadExeFS L E w' = Ret tt w')
  /\ (Load L E w = Ret tt w' -> Load L E w' = Fail ErrorAlreadyLoaded w').
Proof.
  split.
  - intros H. apply LoadExeFS_again. exact (LoadExeFS_sets_flag _ _ H).
  - intros H. apply Load_again.
    destruct (is_loaded (loader w)) eqn:Hflag.
    { rewrite Load_again in H by exact Hflag. discriminate. }
    destruct (LoadExeFS L E w) as [[] w1 | e w1 |] eqn:Hexefs.
    + rewrite (Load_unfold w w1 Hflag Hexefs) in H. cbv zeta in H.
      set (w2 := on_loader (set_is_loaded true) _) in H.
      assert (H2 : loaded_is true w2) by reflexivity.
      pose proof (LoadExec_loaded_is true w2 H2) as H3.
      destruct (LoadExec L E w2) as [[] w3 | |]; try discriminate.
      assert (H4 : loaded_is true (emit EvRegisterArchiveType w3)) by exact H3.
      pose proof (ParseRegionLockoutInfo_loaded_is true _ H4) as H5.
      rewrite H in H5. exact H5.
    + unfold Load, bind, get in H. rewrite Hflag, Hexefs in H. discriminate.
    + unfold Load, bind, get in H. rewrite Hflag, Hexefs in H. discriminate.
Qed.

(** C9: [Load] sets [is_loaded] before it calls [LoadExec]; when
    [LoadExec] fails after a successful [LoadExeFS], [Load] returns the
    error of [LoadExec], which is [Error], the loader stays loaded, and
    [Load] returns [ErrorAlreadyLoaded] from then on. *)
Theorem load_is_not_atomic (w w1 w3 : World) (e : ResultStatus) :
  is_loaded (loader w) = false ->
  LoadExeFS L E w = Ret tt w1 ->
  LoadExec L E
    (on_loader (set_is_loaded true)
       (emit (EvTelemetryProgramId
                (NCCH_Header.program_id (the_ncch_header L w1))) w1))
  = Fail e w3 ->
  Load L E w = Fail e w3
  /\ e = Error
  /\ is_loaded (loader w3) = true
  /\ Load L E w3 = Fail ErrorAlreadyLoaded w3.
Proof.
  intros Hflag Hexefs Hexec.
  assert (Hloaded : is_loaded (loader w3) = true).
  { match type of Hexec with LoadExec _ _ ?w2 = _ =>
      pose proof (LoadExec_loaded_is true w2 eq_refl) as H end.
    rewrite Hexec in H. exact H. }
  split; [| split; [| split]].
  - rewrite (Load_unfold w w1 Hflag Hexefs). cbv zeta. rewrite Hexec. reflexivity.
  - unfold LoadExec in Hexec. simpl in Hexec.
    destruct (ReadCode L E _); congruence.
  - exact Hloaded.
  - apply Load_again. exact Hloaded.
Qed.

(** Running an operation step by step. *)
Lemma bind_step {A B} (m : M A) (k : A -> M B) (w w1 : World) (a : A) :
  m w = Ret a w1 -> bind m k w = k a w1.
Proof. intros H. unfold bind. rewrite H. reflexivity. Qed.

Lemma bind_assoc {A B C} (m : M A) (k1 : A -> M B) (k2 : B -> M C) (w : World) :
  bind (bind m k1) k2 w = bind m (fun a => bind (k1 a) k2) w.
Proof. unfold bind. destruct (m w); reflexivity. Qed.

Lemma bind_get {B} (k : World -> M B) (w : World) : bind get k w = k w w.
Proof. reflexivity. Qed.

Lemma bind_modify {B} (f : World -> World) (k : unit -> M B) (w : World) :
  bind (modify f) k w = k tt (f w).
Proof. reflexivity. Qed.

Lemma bind_ret {A B} (a : A) (k : A -> M B) (w : World) : bind (ret a) k w = k a w.
Proof. reflexivity. Qed.

Lemma bind_fail {A B} (e : ResultStatus) (k : A -> M B) (w : World) :
  bind (fail e) k w = Fail e w.
Proof. reflexivity. Qed.

Lemma negb_eqb_true (a b : Z) : a <> b -> negb (a =? b) = true.
Proof. intros H. apply Z.eqb_neq in H. rewrite H. reflexivity. Qed.

Lemma negb_eqb_false (a b : Z) : a = b -> negb (a =? b) = false.
Proof. intros ->. rewrite Z.eqb_refl. reflexivity. Qed.

(** C5: when the identifiers differ after the headers are read and the
    derivation succeeds, the extended header is decrypted with the
    context the derivation returns; if the identifiers still differ
    [LoadExeFS] returns [ErrorEncrypted] and the ExeFS is not loaded, and
    only if they agree does it go on to the ExeFS header. *)
Theorem decrypted_identifier_checked
    (w w1 w2 : World) (exheader_aes : AesContext) :
  is_exefs_loaded (loader w) = false ->
  read_headers L w = Ret tt w1 ->
  ~ ids_agree L w1 ->
  derive E (the_ncch_header L w1) w1 = Ret exheader_aes w2 ->
  let w3 :=
    on_loader (fun l =>
      set_exheader_header
        (decrypt_in_place E exheader_aes (sizeof_ExHeader_Header L)
           (exheader_header l)) l) w2 in
  (~ ids_agree L w3 ->
   LoadExeFS L E w = Fail ErrorEncrypted w3
   /\ is_exefs_loaded (loader w3) = false)
  /\ (ids_agree L w3 -> LoadExeFS L E w = read_exefs_header L E w3).
Proof.
  intros Hflag Hheaders Hdiffer Hderive w3.
  assert (Hstart : LoadExeFS L E w
                   = bind (decrypt_exheader L E exheader_aes)
                       (fun _ => read_exefs_header L E) w2).
  { unfold LoadExeFS. rewrite bind_get, Hflag.
    rewrite (bind_step _ _ _ _ _ Hheaders), bind_get.
    rewrite (negb_eqb_true _ _ Hdiffer).
    rewrite bind_assoc. rewrite (bind_step _ _ _ _ _ Hderive). reflexivity. }
  rewrite Hstart. unfold decrypt_exheader.
  rewrite bind_assoc, bind_modify, bind_assoc, bind_get. fold w3.
  split.
  - intros Hstill. rewrite (negb_eqb_true _ _ Hstill), bind_fail.
    split; [reflexivity |].
    pose proof (read_headers_flags L (is_loaded (loader w)) false w
                  (conj eq_refl Hflag)) as H1.
    rewrite Hheaders in H1.
    pose proof (derive_flags E _ false (the_ncch_header L w1) w1 H1) as H2.
    rewrite Hderive in H2. destruct H2 as [_ H2].
    destruct w2 as [[] ? ?]. exact H2.
  - intros Hagree. rewrite (negb_eqb_false _ _ Hagree), bind_ret. reflexivity.
Qed.


(** C10: [ReadRomFS] looks at the file handle and at the header as it
    is; it changes nothing, it does not load the ExeFS, and the statuses
    it returns are [Success], [Error] and [ErrorNotUsed]. *)
Theorem ReadRomFS_only_needs_the_file (w : World) :
  let l := loader w in
  let h := the_ncch_header L w in
  let romfs_offset :=
    u32 (u32 (ncch_offset l + u32 (NCCH_Header.romfs_offset h * kBlockSize))
         + 0x1000) in
  let romfs_size := u32 (u32 (NCCH_Header.romfs_size h * kBlockSize) - 0x1000) in
  world_of (ReadRomFS L E w) = Some w
  /\ status (ReadRomFS L E w) <> Some ErrorNotLoaded
  /\ (IsOpen (file l) = false -> ReadRomFS L E w = Fail Error w)
  /\ (IsOpen (file l) = true ->
      (NCCH_Header.romfs_offset h = 0 \/ NCCH_Header.romfs_size h = 0 ->
       ReadRomFS L E w = Fail ErrorNotUsed w)
      /\ (NCCH_Header.romfs_offset h <> 0 -> NCCH_Header.romfs_size h <> 0 ->
          ReadRomFS L E w =
          if GetSize (file l) <? u32 (romfs_offset + romfs_size)
          then Fail Error w
          else if reopen_ok E then Ret (romfs_offset, romfs_size) w
               else Fail Error w)).
Proof.
  cbv zeta. unfold ReadRomFS, bind, get, ret, fail.
  destruct (IsOpen (file (loader w))); simpl.
  2:{ repeat split; try discriminate. }
  destruct (Z.eqb_spec (NCCH_Header.romfs_offset (the_ncch_header L w)) 0) as [H0 | H0];
    destruct (Z.eqb_spec (NCCH_Header.romfs_size (the_ncch_header L w)) 0) as [H1 | H1];
    simpl.
  1-3: repeat split; try discriminate; intros; try reflexivity; tauto.
  destruct (_ <? _); [| destruct (reopen_ok E)];
    repeat split; try discriminate; intros; try reflexivity; tauto.
Qed.

Lemma bind_Seek {B} (off : Z) (k : unit -> M B) (w : World) :
  bind (Seek off) k w
  = k tt (on_loader (fun l =>
            set_file {| IsOpen := IsOpen (file l); content := content (file l);
                        pos := off |} l) w).
Proof. reflexivity. Qed.

Lemma bind_ReadBytes {B} (n : Z) (k : bytes -> M B) (w : World) :
  bind (ReadBytes n) k w
  = let f := file (loader w) in
    let got := if pos f <? 0 then []
               else take (Z.to_nat n) (drop (Z.to_nat (pos f)) (content f)) in
    k got (on_loader (set_file {| IsOpen := IsOpen f; content := content f;
                                  pos := pos f + Z.of_nat (length got) |}) w).
Proof. reflexivity. Qed.

(** Reading the members of a world that assignments have built. *)
Ltac members :=
  unfold on_loader, on_keys, emit, set_file, set_is_loaded, set_is_exefs_loaded,
    set_info, set_ncch_header, set_exheader_header, set_exefs_header,
    set_ncch_offset, set_exefs_offset, set_aes, the_ncch_header, the_exheader in *;
  cbn [loader keys events file is_loaded is_exefs_loaded info ncch_header
       exheader_header exefs_header ncch_offset exefs_offset exefs_aes
       exerfs_code_aes romfs_aes IsOpen content pos] in *.

Ltac exec_with lem := rewrite ?bind_assoc; rewrite lem; members.
Ltac exec_in H lem := rewrite ?bind_assoc in H; rewrite lem in H; members.

(** C7, as the code has it: when the header read at the start of the
    file carries the NCSD magic, the loader sets [ncch_offset] to the
    byte offset 0x4000, seeks there and reads the partition header over
    the first one; whatever [LoadExeFS] returns then, these two members
    stay, and a header without the NCCH magic gives
    [ErrorInvalidFormat].  No other part of the NCSD header is used. *)
Theorem ncsd_partition_at_byte_0x4000 (w : World) :
  let data := content (file (loader w)) in
  let sz := sizeof_NCCH_Header L in
  let first := overlay (take (Z.to_nat sz) data) (ncch_header (loader w)) in
  let second :=
    overlay (take (Z.to_nat sz) (drop (Z.to_nat 0x4000) data)) first in
  is_exefs_loaded (loader w) = false ->
  IsOpen (file (loader w)) = true ->
  Z.of_nat (length (take (Z.to_nat sz) data)) = sz ->
  NCCH_Header.magic (as_NCCH_Header L first) = magic_NCSD L ->
  (forall w', world_of (LoadExeFS L E w) = Some w' ->
              partition_is 0x4000 second w')
  /\ (NCCH_Header.magic (as_NCCH_Header L second) <> magic_NCCH L ->
      status (LoadExeFS L E w) = Some ErrorInvalidFormat).
Proof.
  intros data sz first second Hflag Hopen Hlen Hmagic.
  subst second first data sz.
  destruct w as [[[op data0 p] ? ? ? hd ? ? ? ? ? ? ?] ks ev]. members.
  match goal with |- context [LoadExeFS L E ?w0] =>
    remember (LoadExeFS L E w0) as o eqn:Ho
  end.
  unfold LoadExeFS in Ho. exec_in Ho @bind_get. rewrite Hflag in Ho.
  unfold read_headers in Ho. exec_in Ho @bind_get. rewrite Hopen in Ho.
  cbn [negb] in Ho.
  exec_in Ho @bind_Seek.
  unfold read_into at 1 in Ho. exec_in Ho @bind_ReadBytes. cbv zeta in Ho.
  change (0 <? 0) with false in Ho. cbv iota in Ho.
  change (Z.to_nat 0) with 0%nat in Ho. rewrite drop_0 in Ho.
  exec_in Ho @bind_modify. exec_in Ho @bind_ret.
  rewrite Hlen, Z.eqb_refl in Ho. cbn [negb] in Ho.
  exec_in Ho @bind_get. rewrite Hmagic, Z.eqb_refl in Ho. cbv iota in Ho.
  exec_in Ho @bind_modify. exec_in Ho @bind_get. exec_in Ho @bind_Seek.
  unfold read_into at 1 in Ho. exec_in Ho @bind_ReadBytes. cbv zeta in Ho.
  change (16384 <? 0) with false in Ho. cbv iota in Ho.
  exec_in Ho @bind_modify. exec_in Ho @bind_ret. exec_in Ho @bind_ret.
  split.
  - match type of Ho with
    | o = ?m ?w1 =>
        match goal with
        | |- forall w', _ -> ?P w' =>
            assert (Hk : keeps P m);
            [| intros w' Hw'; specialize (Hk w1 (conj eq_refl eq_refl));
               rewrite Ho in Hw'; destruct (m w1); simpl in Hw';
               try discriminate; injection Hw' as <-; exact Hk ]
        end
    end.
    unfold read_into, decrypt_exheader, read_exefs_header, read_into,
      derive, derive_counters, derive_keys, alternate_slot,
      set_code_romfs_key, set_exefs_key, key_into, partition_is.
    keeps_all.
  - intros Hbad. rewrite Ho. exec_with @bind_get.
    rewrite (negb_eqb_true _ _ (not_eq_sym Hbad)).
    rewrite ?bind_assoc. rewrite bind_fail. reflexivity.
Qed.

End LoaderFacts.

(** ** The theorems on concrete files *)

(** A computed outcome: the equation is evaluated, and either cannot
    hold or names the world. *)
Ltac computed H :=
  vm_compute in H; first [discriminate H | injection H as <- <- | injection H as <-].

Lemma second_call_witness :
  match Load container_layout two_slots (fresh_world plain_cxi) with
  | Ret _ w' => Load container_layout two_slots w' = Fail ErrorAlreadyLoaded w'
  | _ => False
  end
  /\ match LoadExeFS container_layout two_slots (fresh_world plain_cxi) with
     | Ret _ w' => LoadExeFS container_layout two_slots w' = Ret tt w'
     | _ => False
     end.
Proof.
  split.
  - destruct (Load container_layout two_slots (fresh_world plain_cxi))
      as [[] w' | e w' |] eqn:H.
    + exact (proj2 (second_call container_layout two_slots _ w') H).
    + vm_compute in H. discriminate H.
    + vm_compute in H. discriminate H.
  - destruct (LoadExeFS container_layout two_slots (fresh_world plain_cxi))
      as [[] w' | e w' |] eqn:H.
    + exact (proj1 (second_call container_layout two_slots _ w') H).
    + vm_compute in H. discriminate H.
    + vm_compute in H. discriminate H.
Defined.

Lemma load_is_not_atomic_witness :
  exists w3,
    Load container_layout two_slots (fresh_world no_code_cxi) = Fail Error w3
    /\ is_loaded (loader w3) = true
    /\ Load container_layout two_slots w3 = Fail ErrorAlreadyLoaded w3.
Proof.
  destruct (LoadExeFS container_layout two_slots (fresh_world no_code_cxi))
    as [[] w1 | e w1 |] eqn:H1;
    [| vm_compute in H1; discriminate H1 | vm_compute in H1; discriminate H1].
  destruct (LoadExec container_layout two_slots
              (on_loader (set_is_loaded true)
                 (emit (EvTelemetryProgramId
                          (NCCH_Header.program_id
                             (the_ncch_header container_layout w1))) w1)))
    as [[] w3 | e w3 |] eqn:H2.
  - computed H1. vm_compute in H2. discriminate H2.
  - destruct (load_is_not_atomic container_layout two_slots
                (fresh_world no_code_cxi) w1 w3 e eq_refl H1 H2)
      as (Hload & -> & Hflag & Hagain).
    exists w3. repeat split; assumption.
  - computed H1. vm_compute in H2. discriminate H2.
Defined.

Lemma decrypted_identifier_checked_witness :
  status (LoadExeFS container_layout two_slots (fresh_world garbled_cxi))
  = Some ErrorEncrypted
  /\ LoadExeFS container_layout two_slots (fresh_world (fixed_key_cxi 1))
     = read_exefs_header container_layout two_slots
         (on_loader (set_exheader_header (exheader_bytes 1))
            (on_loader (set_aes
                          (Some {| key := zeros16;
                                   ctr := reverse a_partition_id ++ [2; 0; 0; 0; 0; 0; 0; 0] |})
                          (Some {| key := zeros16;
                                   ctr := reverse a_partition_id ++ [2; 0; 0; 0; 0; 0; 0; 0] |})
                          (Some {| key := zeros16;
                                   ctr := reverse a_partition_id ++ [3; 0; 0; 0; 0; 0; 0; 0] |}))
               (on_loader (fun l =>
                  set_file {| IsOpen := true; content := fixed_key_cxi 1;
                              pos := 0xA00 |}
                    (set_ncch_header (header_bytes tag_NCCH 0 0 1)
                       (set_exheader_header
                          (map (Z.lxor 101) (exheader_bytes 1)) l)))
                  (fresh_world (fixed_key_cxi 1))))).
Proof.
  split.
  - destruct (read_headers container_layout (fresh_world garbled_cxi))
      as [[] w1 | e w1 |] eqn:H1;
      [| vm_compute in H1; discriminate H1 | vm_compute in H1; discriminate H1].
    destruct (derive two_slots (the_ncch_header container_layout w1) w1)
      as [a w2 | e w2 |] eqn:H2.
    + destruct (decrypted_identifier_checked container_layout two_slots
                  (fresh_world garbled_cxi) w1 w2 a eq_refl H1) as [Hfail _].
      * computed H1. vm_compute. intros Hx. discriminate Hx.
      * exact H2.
      * rewrite (proj1 (Hfail ltac:(computed H1; computed H2; vm_compute; intros Hx; discriminate Hx))).
        reflexivity.
    + computed H1. vm_compute in H2. discriminate H2.
    + computed H1. vm_compute in H2. discriminate H2.
  - destruct (read_headers container_layout (fresh_world (fixed_key_cxi 1)))
      as [[] w1 | e w1 |] eqn:H1;
      [| vm_compute in H1; discriminate H1 | vm_compute in H1; discriminate H1].
    destruct (derive two_slots (the_ncch_header container_layout w1) w1)
      as [a w2 | e w2 |] eqn:H2.
    + destruct (decrypted_identifier_checked container_layout two_slots
                  (fresh_world (fixed_key_cxi 1)) w1 w2 a eq_refl H1) as [_ Hgo].
      * computed H1. vm_compute. intros Hx. discriminate Hx.
      * exact H2.
      * rewrite (Hgo ltac:(computed H1; computed H2; vm_compute; reflexivity)).
        computed H1. computed H2. f_equal.
    + computed H1. vm_compute in H2. discriminate H2.
    + computed H1. vm_compute in H2. discriminate H2.
Defined.



Lemma ncsd_partition_at_byte_0x4000_witness :
  match world_of (LoadExeFS container_layout two_slots (fresh_world a_cci)) with
  | Some w' =>
      ncch_offset (loader w') = 0x4000
      /\ ncch_header (loader w') = header_bytes tag_NCCH 0 0 0
  | None => False
  end.
Proof.
  destruct (ncsd_partition_at_byte_0x4000 container_layout two_slots
              (fresh_world a_cci)) as [H _];
    [vm_compute; reflexivity ..|].
  destruct (world_of (LoadExeFS container_layout two_slots (fresh_world a_cci)))
    as [w' |] eqn:Hw'.
  - destruct (H w' eq_refl) as [Hoffset Hheader].
    split; [exact Hoffset |].
    rewrite Hheader. vm_compute. reflexivity.
  - vm_compute in Hw'. discriminate Hw'.
Defined.

(** C7 as stated does not hold: the offset 0x4000 is a number of bytes,
    not of blocks.  The file [a_cci] has 0x4C04 bytes, so that it ends
    long before the block 0x4000; the loader takes the partition header
    from the bytes 0x4000 to 0x41FF and loads the ExeFS. *)
Lemma ncsd_offset_counts_bytes :
  let o := LoadExeFS container_layout two_slots (fresh_world a_cci) in
  status o = Some Success
  /\ (fun w => ncch_offset (loader w)) <$> world_of o = Some 0x4000
  /\ (fun w => ncch_header (loader w)) <$> world_of o
     = Some (take 0x200 (drop (Z.to_nat 0x4000) a_cci))
  /\ GetSize {| IsOpen := true; content := a_cci; pos := 0 |} = 0x4C04
  /\ 0x4C04 < 0x4000 * kBlockSize.
Proof.
  cbv zeta. repeat split; vm_compute; reflexivity.
Qed.

Lemma ReadRomFS_only_needs_the_file_witness :
  match LoadExeFS container_layout two_slots (fresh_world plain_cxi) with
  | Ret _ w =>
      status (ReadRomFS container_layout two_slots w) = Some ErrorNotUsed
  | _ => False
  end
  /\ match LoadExeFS container_layout two_slots (fresh_world romfs_only) with
     | Fail e w =>
         e = ErrorEncrypted
         /\ is_exefs_loaded (loader w) = false
         /\ ReadRomFS container_layout two_slots w = Ret (0x1C00, 0x200) w
     | _ => False
     end.
Proof.
  split.
  - destruct (LoadExeFS container_layout two_slots (fresh_world plain_cxi))
      as [[] w | e w |] eqn:H1;
      [| vm_compute in H1; discriminate H1 | vm_compute in H1; discriminate H1].
    destruct (ReadRomFS_only_needs_the_file container_layout two_slots w)
      as (_ & _ & _ & H).
    computed H1.
    destruct (H eq_refl) as [H0 _].
    rewrite H0; [reflexivity | left; vm_compute; reflexivity].
  - destruct (LoadExeFS container_layout two_slots (fresh_world romfs_only))
      as [[] w | e w |] eqn:H1;
      [vm_compute in H1; discriminate H1 | | vm_compute in H1; discriminate H1].
    destruct (ReadRomFS_only_needs_the_file container_layout two_slots w)
      as (_ & _ & _ & H).
    computed H1.
    destruct (H eq_refl) as [_ H2].
    split; [reflexivity |]. split; [reflexivity |].
    rewrite H2.
    + vm_compute. reflexivity.
    + vm_compute. intros Hx. discriminate Hx.
    + vm_compute. intros Hx. discriminate Hx.
Defined.

(** * Further properties *)

(** ** The decompressor: bounds, failures, and what it leaves alone *)

Section LZSS_more.
Import LZSS.
Variable compressed : bytes.
Variable decompressed_size stop_index : Z.
Hypothesis stop_index_unsigned : 0 <= stop_index.

Local Abbreviation step := (lz_step compressed decompressed_size stop_index).
Local Abbreviation run := (lz_run compressed decompressed_size stop_index).
Local Abbreviation reach := (lz_reach compressed decompressed_size stop_index).
Local Abbreviation copy := (copy_segment decompressed_size).
Local Abbreviation inv := (lz_inv decompressed_size).

(** Inside the invariant the copy loop reads and writes inside the
    output buffer: it ends normally or returns [false]. *)
Lemma copy_segment_in_bounds (n : nat) (so : Z) (st : lz_state) :
  Z.of_nat (length (decompressed st)) = decompressed_size ->
  Z.of_nat n <= out st <= decompressed_size ->
  (exists st', copy n so st = inr st')
  \/ (exists d, copy n so st = inl (LZ_return false d)
                /\ Z.of_nat (length d) = decompressed_size).
Proof.
  revert st. induction n as [| n IH]; intros st Hlen Hout.
  - left. eexists. reflexivity.
  - simpl. destruct (Z.leb_spec decompressed_size (u32 (out st + so))).
    + right. eexists. split; [reflexivity | exact Hlen].
    + assert (0 <= u32 (out st + so)) by (apply Z.mod_pos_bound; lia).
      destruct (rd_in_range (decompressed st) (u32 (out st + so))) as [data ->];
        [lia |].
      rewrite wr_in_range by lia.
      apply IH; cbn [decompressed out index].
      * rewrite length_insert. exact Hlen.
      * lia.
Qed.

(** The copy loop returns [false] only at the guard of line 94. *)
Lemma copy_segment_false (n : nat) (so : Z) (st : lz_state) (d : bytes) :
  copy n so st = inl (LZ_return false d) ->
  exists j, 0 <= j < Z.of_nat n /\ decompressed_size <= u32 (out st - j + so).
Proof.
  revert st. induction n as [| n IH]; intros st; simpl; [discriminate |].
  destruct (Z.leb_spec decompressed_size (u32 (out st + so))) as [Hbad | _].
  - intros _. exists 0. split; [lia |]. rewrite Z.sub_0_r. exact Hbad.
  - destruct (rd _ _); [| discriminate].
    destruct (wr _ _ _); [| discriminate].
    intros H. apply IH in H as (j & Hj & Hbad). cbn [out] in Hbad.
    exists (j + 1). split; [lia |].
    replace (out st - (j + 1) + so) with (out st - 1 - j + so) by lia.
    exact Hbad.
Qed.

(** A configuration inside the buffers: the invariant of the output
    buffer, and a read cursor inside the compressed buffer. *)
Local Abbreviation inside c :=
  (inv c /\ 0 <= index (snd c) <= Z.of_nat (length compressed)).

Lemma step_inside (c : lz_pc * lz_state) :
  inside c ->
  match step c with
  | Next c' => inside c'
  | Halt (LZ_return _ d) => Z.of_nat (length d) = decompressed_size
  | Halt LZ_out_of_bounds => False
  end.
Proof.
  destruct c as [[| control i] st]. all: unfold lz_inv; cbn [fst snd].
  all: intros [[Hlen Hout] Hidx]; unfold lz_step.
  - destruct (Z.ltb_spec stop_index (index st)); [| exact Hlen].
    destruct (rd_in_range compressed (index st - 1)) as [b ->]; [lia |].
    cbn [fst snd index out decompressed]. repeat split; try assumption; lia.
  - destruct (Z.leb_spec 8 i); [cbn [fst snd]; auto |].
    destruct (Z.leb_spec (index st) stop_index); [cbn [fst snd]; auto |].
    destruct (Z.leb_spec (index st) 0); [cbn [fst snd]; auto |].
    destruct (Z.leb_spec (out st) 0); [cbn [fst snd]; auto |].
    destruct (negb _).
    + destruct (Z.ltb_spec (index st) 2); [exact Hlen |].
      destruct (rd_in_range compressed (index st - 2)) as [b0 ->]; [lia |].
      destruct (rd_in_range compressed (index st - 2 + 1)) as [b1 ->]; [lia |].
      match goal with |- context [?a <? ?b] => destruct (Z.ltb_spec a b) end;
        [exact Hlen |].
      match goal with |- context [copy_segment _ ?n ?so ?s] =>
        destruct (copy_segment_in_bounds n so s) as [[st' Hc] | (d & Hc & Hd)];
          [exact Hlen | cbn [out] | rewrite Hc .. ]
      end.
      * match goal with |- context [Z.land ?a 15] =>
          assert (0 <= Z.land a 15) by (apply Z.land_nonneg; right; lia)
        end.
        lia.
      * apply copy_segment_inr in Hc as (Hi & Ho & Hl).
        cbn [index out decompressed] in Hi, Ho, Hl.
        cbn [fst snd]. rewrite Hi, Ho, Hl.
        match goal with |- context [Z.land ?a 15] =>
          assert (0 <= Z.land a 15) by (apply Z.land_nonneg; right; lia)
        end.
        repeat split; try assumption; lia.
      * exact Hd.
    + destruct (Z.ltb_spec (out st) 1); [exact Hlen |].
      destruct (rd_in_range compressed (index st - 1)) as [b ->]; [lia |].
      rewrite wr_in_range by lia.
      cbn [fst snd index out decompressed]. rewrite length_insert.
      repeat split; try assumption; lia.
Qed.

Lemma run_inside (n : nat) (c : lz_pc * lz_state) (r : lz_result) :
  inside c -> run n c = Some r ->
  exists b d, r = LZ_return b d /\ Z.of_nat (length d) = decompressed_size.
Proof.
  revert c. induction n as [| n IH]; intros c Hc; [discriminate |].
  simpl. pose proof (step_inside c Hc) as Hstep.
  destruct (step c) as [c' | [b d |]].
  - apply IH. exact Hstep.
  - intros [= <-]. exists b, d. split; [reflexivity | exact Hstep].
  - contradiction.
Qed.

(** Where a run halts. *)
Lemma run_halts_at (n : nat) (c : lz_pc * lz_state) (r : lz_result) :
  run n c = Some r -> exists c', reach c c' /\ step c' = Halt r.
Proof.
  assert (G : forall n c0 c, reach c0 c -> run n c = Some r ->
                             exists c', reach c0 c' /\ step c' = Halt r).
  { clear n c. induction n as [| n IH]; intros c0 c Hreach; [discriminate |].
    simpl. destruct (step c) as [c1 | r1] eqn:Hstep.
    - apply IH. exact (lz_reach_step _ _ _ _ _ _ Hreach Hstep).
    - intros [= ->]. exists c. split; assumption. }
  apply G. apply lz_reach_refl.
Qed.

(** A step returns [false] only at one of the three guards of a
    back-reference; the guard of a literal (line 102) never fires. *)
Lemma step_false (c : lz_pc * lz_state) (d : bytes) :
  step c = Halt (LZ_return false d) ->
  exists control i, fst c = AtFor control i
    /\ i < 8 /\ stop_index < index (snd c) /\ 0 < out (snd c)
    /\ Z.land control 0x80 <> 0
    /\ (index (snd c) < 2
        \/ exists b0 b1,
            rd compressed (index (snd c) - 2) = Some b0
            /\ rd compressed (index (snd c) - 1) = Some b1
            /\ let word := Z.lor b0 (Z.shiftl b1 8) in
               let segment_size := Z.land (Z.shiftr word 12) 15 + 3 in
               let segment_offset := Z.land word 0x0FFF + 2 in
               out (snd c) < segment_size
               \/ exists j, 0 <= j < segment_size
                    /\ decompressed_size
                       <= u32 (out (snd c) - j + segment_offset)).
Proof.
  destruct c as [[| control i] st]; unfold lz_step; cbn [fst snd].
  - destruct (_ <? _); [| discriminate]. destruct (rd _ _); discriminate.
  - destruct (Z.leb_spec 8 i); [discriminate |].
    destruct (Z.leb_spec (index st) stop_index); [discriminate |].
    destruct (Z.leb_spec (index st) 0); [discriminate |].
    destruct (Z.leb_spec (out st) 0); [discriminate |].
    destruct (Z.eqb_spec (Z.land control 0x80) 0) as [| Hbit]; cbn [negb].
    + destruct (Z.ltb_spec (out st) 1); [lia |].
      destruct (rd _ _); [| discriminate]. destruct (wr _ _ _); discriminate.
    + intros Hhalt. exists control, i.
      split; [reflexivity |]. repeat (split; [assumption || lia |]).
      destruct (Z.ltb_spec (index st) 2); [left; assumption |]. right.
      destruct (rd compressed (index st - 2)) as [b0 |] eqn:Hb0; [| discriminate].
      replace (index st - 2 + 1) with (index st - 1) in Hhalt by lia.
      destruct (rd compressed (index st - 1)) as [b1 |] eqn:Hb1; [| discriminate].
      exists b0, b1. split; [reflexivity |]. split; [reflexivity |]. cbv zeta.
      match type of Hhalt with context [?a <? ?b] => destruct (Z.ltb_spec a b) end;
        [left; assumption |].
      right.
      destruct (copy_segment _ _ _ _) as [r |] eqn:Hc; [| discriminate].
      injection Hhalt as ->.
      apply copy_segment_false in Hc as (j & Hj & Hbad). cbn [out] in Hbad.
      exists j. split; [| exact Hbad].
      match goal with |- context [Z.land ?a 15] =>
        assert (0 <= Z.land a 15) by (apply Z.land_nonneg; right; lia)
      end.
      lia.
Qed.

(** Below the write cursor the output buffer is as [memcpy] left it. *)
Lemma copy_segment_below (n : nat) (so : Z) (st st' : lz_state) (k : nat) :
  copy n so st = inr st' ->
  Z.of_nat k < out st' ->
  decompressed st' !! k = decompressed st !! k.
Proof.
  revert st. induction n as [| n IH]; intros st; simpl.
  - intros [= <-] _. reflexivity.
  - destruct (_ <=? _); [discriminate |].
    destruct (rd _ _); [| discriminate].
    destruct (wr (decompressed st) (out st - 1) z) as [d' |] eqn:Hwr; [| discriminate].
    intros Hc Hk. pose proof (copy_segment_inr _ _ _ _ _ Hc) as (_ & Ho & _).
    cbn [out] in Ho.
    rewrite (IH _ Hc Hk). cbn [decompressed].
    unfold wr in Hwr. destruct (_ && _); [| discriminate].
    injection Hwr as <-. apply list_lookup_insert_ne. lia.
Qed.

Lemma step_below (c c' : lz_pc * lz_state) (k : nat) :
  step c = Next c' ->
  out (snd c') <= out (snd c)
  /\ (Z.of_nat k < out (snd c') ->
      decompressed (snd c') !! k = decompressed (snd c) !! k).
Proof.
  destruct c as [[| control i] st]; unfold lz_step; cbn [fst snd].
  - destruct (_ <? _); [| discriminate]. destruct (rd _ _); [| discriminate].
    intros [= <-]. cbn. split; [lia | reflexivity].
  - destruct (_ <=? _); [intros [= <-]; cbn; split; [lia | reflexivity] |].
    destruct (_ <=? _); [intros [= <-]; cbn; split; [lia | reflexivity] |].
    destruct (_ <=? _); [intros [= <-]; cbn; split; [lia | reflexivity] |].
    destruct (_ <=? _); [intros [= <-]; cbn; split; [lia | reflexivity] |].
    destruct (negb _).
    + destruct (_ <? _); [discriminate |].
      destruct (rd _ _); [| discriminate]. destruct (rd _ _); [| discriminate].
      destruct (_ <? _); [discriminate |].
      destruct (copy_segment _ _ _ _) as [| st'] eqn:Hc; [discriminate |].
      intros [= <-]. cbn [fst snd]. split.
      * apply copy_segment_inr in Hc as (_ & Ho & _). cbn [out] in Ho. lia.
      * intros Hk. exact (copy_segment_below _ _ _ _ _ Hc Hk).
    + destruct (_ <? _); [discriminate |].
      destruct (rd _ _); [| discriminate].
      destruct (wr (decompressed st) (out st - 1) z) as [d' |] eqn:Hwr;
        [| discriminate].
      intros [= <-]. cbn [fst snd out decompressed]. split; [lia |].
      intros Hk. unfold wr in Hwr. destruct (_ && _); [| discriminate].
      injection Hwr as <-. apply list_lookup_insert_ne. lia.
Qed.

Lemma reach_below (c c' : lz_pc * lz_state) (k : nat) :
  reach c c' ->
  out (snd c') <= out (snd c)
  /\ (Z.of_nat k < out (snd c') ->
      decompressed (snd c') !! k = decompressed (snd c) !! k).
Proof.
  induction 1 as [| c1 c2 _ [IHo IHd] Hstep].
  - split; [lia | reflexivity].
  - destruct (step_below _ _ k Hstep) as [Ho Hd].
    split; [lia |]. intros Hk. rewrite (Hd Hk). apply IHd. lia.
Qed.

End LZSS_more.

Import LZSS.

(** Where the decompressor leaves the buffers, and the length of what
    it returns. *)
Lemma decompress_bounds
    (compressed : bytes) (compressed_size decompressed_size stop_index : Z)
    (st0 : lz_state) :
  lz_init compressed compressed_size decompressed_size = Some (stop_index, st0) ->
  (LZSS_Decompress compressed compressed_size decompressed_size = LZ_out_of_bounds
   <-> Z.of_nat (length compressed) < index st0 /\ stop_index < index st0)
  /\ (forall b d,
        LZSS_Decompress compressed compressed_size decompressed_size
        = LZ_return b d ->
        Z.of_nat (length d) = decompressed_size).
Proof.
  intros Hinit.
  destruct (lz_init_inv _ _ _ _ _ Hinit) as [Hinv Hstop].
  pose proof (decompress_total _ _ _ _ _ Hinit) as Hrun.
  set (r := LZSS_Decompress compressed compressed_size decompressed_size) in *.
  assert (Hidx : 0 <= index st0).
  { unfold lz_init in Hinit. destruct (read_u32 _ _); [| discriminate].
    simpl in Hinit. destruct (_ && _); [| discriminate].
    injection Hinit as _ <-. apply Z.mod_pos_bound. lia. }
  destruct (Z.le_gt_cases (index st0) (Z.of_nat (length compressed))) as [Hin | Hout].
  - destruct (run_inside compressed decompressed_size stop_index Hstop _ _ r
                (conj Hinv (conj Hidx Hin)) Hrun) as (b & d & Hr & Hd).
    split.
    + split; [rewrite Hr; discriminate | lia].
    + intros b' d' Hr'. rewrite Hr in Hr'. injection Hr' as _ <-. exact Hd.
  - unfold lz_fuel in Hrun. simpl in Hrun.
    destruct (Z.ltb_spec stop_index (index st0)).
    + destruct (rd compressed (index st0 - 1)) eqn:Hrd.
      { apply rd_Some_range in Hrd. lia. }
      injection Hrun as <-. split.
      * split; [intros _; split; lia | reflexivity].
      * discriminate.
    + injection Hrun as <-. split.
      * split; [discriminate | lia].
      * intros b d [= _ <-]. destruct Hinv as [Hlen _]. exact Hlen.
Qed.

Lemma decompress_length (compressed : bytes) (compressed_size decompressed_size : Z)
    (b : bool) (d : bytes) :
  LZSS_Decompress compressed compressed_size decompressed_size = LZ_return b d ->
  Z.of_nat (length d) = decompressed_size.
Proof.
  intros H.
  destruct (lz_init compressed compressed_size decompressed_size)
    as [[stop_index st0] |] eqn:Hinit.
  - exact (proj2 (decompress_bounds _ _ _ _ _ Hinit) b d H).
  - unfold LZSS_Decompress in H. rewrite Hinit in H. discriminate H.
Qed.

(** The decompressor reads or writes outside a buffer exactly when the
    eight bytes of the footer do not lie inside the compressed buffer,
    when [memcpy] runs over the end of a buffer ([compressed_size] is
    above the length of the compressed buffer or above
    [decompressed_size]), or when the footer puts the read cursor beyond
    the end of the compressed buffer and above the stop index.  In every
    other case it returns [true] or [false], with an output buffer of
    [decompressed_size] bytes. *)
Theorem decompress_out_of_bounds
    (compressed : bytes) (compressed_size decompressed_size : Z) :
  (LZSS_Decompress compressed compressed_size decompressed_size = LZ_out_of_bounds
   <-> match read_u32 compressed (compressed_size - 8) with
       | None => True
       | Some buffer_top_and_bottom =>
           let index :=
             u32 (compressed_size
                  - Z.land (Z.shiftr buffer_top_and_bottom 24) 0xFF) in
           let stop_index :=
             u32 (compressed_size - Z.land buffer_top_and_bottom 0xFFFFFF) in
           Z.of_nat (length compressed) < compressed_size
           \/ decompressed_size < compressed_size
           \/ (Z.of_nat (length compressed) < index /\ stop_index < index)
       end)
  /\ (forall b d,
        LZSS_Decompress compressed compressed_size decompressed_size
        = LZ_return b d ->
        Z.of_nat (length d) = decompressed_size).
Proof.
  split; [| intros b d; apply decompress_length].
  destruct (lz_init compressed compressed_size decompressed_size)
    as [[stop_index st0] |] eqn:Hinit.
  - destruct (decompress_bounds _ _ _ _ _ Hinit) as [Hiff _].
    rewrite Hiff. unfold lz_init in Hinit.
    destruct (read_u32 compressed (compressed_size - 8)) as [footer |];
      [| discriminate Hinit].
    simpl in Hinit.
    destruct (Z.leb_spec compressed_size (Z.of_nat (length compressed)))
      as [Hlen | Hlen];
      destruct (Z.leb_spec compressed_size decompressed_size) as [Hout | Hout];
      simpl in Hinit; try discriminate Hinit.
    injection Hinit as <- <-. cbn [index]. cbv zeta.
    split; [intros Hcur; right; right; exact Hcur |].
    intros [Hcur | [Hcur | Hcur]]; [lia | lia | exact Hcur].
  - assert (Hrun : LZSS_Decompress compressed compressed_size decompressed_size
                   = LZ_out_of_bounds)
      by (unfold LZSS_Decompress; rewrite Hinit; reflexivity).
    rewrite Hrun. split; [intros _ | reflexivity].
    unfold lz_init in Hinit.
    destruct (read_u32 compressed (compressed_size - 8)) as [footer |];
      [| exact I].
    simpl in Hinit. cbv zeta.
    destruct (Z.leb_spec compressed_size (Z.of_nat (length compressed)))
      as [Hlen | Hlen];
      destruct (Z.leb_spec compressed_size decompressed_size) as [Hout | Hout];
      simpl in Hinit; try discriminate Hinit;
      [right; left; lia | left; lia | left; lia].
Qed.

Lemma decompress_out_of_bounds_witness :
  LZSS_Decompress cursor_wraps 8 8 = LZ_out_of_bounds
  /\ LZSS_Decompress size_wraps 8 7 = LZ_out_of_bounds
  /\ LZSS_Decompress [4; 0; 0; 0] 4 8 = LZ_out_of_bounds
  /\ LZSS_Decompress crosses_stop 16 20 <> LZ_out_of_bounds.
Proof.
  split; [| split; [| split]].
  - apply (proj1 (decompress_out_of_bounds cursor_wraps 8 8)).
    vm_compute. right. right. split; reflexivity.
  - apply (proj1 (decompress_out_of_bounds size_wraps 8 7)).
    vm_compute. right. left. reflexivity.
  - apply (proj1 (decompress_out_of_bounds [4; 0; 0; 0] 4 8)).
    vm_compute. exact I.
  - intros H.
    apply (proj1 (decompress_out_of_bounds crosses_stop 16 20)) in H.
    vm_compute in H. destruct H as [H | [H | [H _]]]; discriminate H.
Defined.

(** The decompressor returns [false] only from a back-reference: one
    with fewer than two bytes below the read cursor, one longer than the
    write cursor allows, or one that would copy a byte from at or beyond
    the end of the output buffer.  A literal never makes it fail. *)
Theorem decompress_false_only_at_backref
    (compressed : bytes) (compressed_size decompressed_size stop_index : Z)
    (st0 : lz_state) (d : bytes) :
  lz_init compressed compressed_size decompressed_size = Some (stop_index, st0) ->
  LZSS_Decompress compressed compressed_size decompressed_size
  = LZ_return false d ->
  exists control i st,
    lz_reach compressed decompressed_size stop_index
      (AtWhile, st0) (AtFor control i, st)
    /\ i < 8 /\ stop_index < index st /\ 0 < out st
    /\ Z.land control 0x80 <> 0
    /\ (index st < 2
        \/ exists b0 b1,
            rd compressed (index st - 2) = Some b0
            /\ rd compressed (index st - 1) = Some b1
            /\ let word := Z.lor b0 (Z.shiftl b1 8) in
               let segment_size := Z.land (Z.shiftr word 12) 15 + 3 in
               let segment_offset := Z.land word 0x0FFF + 2 in
               out st < segment_size
               \/ exists j, 0 <= j < segment_size
                    /\ decompressed_size <= u32 (out st - j + segment_offset)).
Proof.
  intros Hinit Hfalse.
  pose proof (decompress_total _ _ _ _ _ Hinit) as Hrun.
  rewrite Hfalse in Hrun.
  apply run_halts_at in Hrun as ([pc st] & Hreach & Hstep).
  apply step_false in Hstep as (control & i & Hpc & H). cbn [fst snd] in Hpc, H.
  subst pc. exists control, i, st. split; [exact Hreach | exact H].
Qed.

Lemma decompress_false_only_at_backref_witness :
  exists control i st,
    lz_reach bad_backref 20 0
      (AtWhile, LzState 8 20 (bad_backref ++ [0; 0; 0; 0])) (AtFor control i, st)
    /\ i < 8 /\ 0 < index st /\ 0 < out st /\ Z.land control 0x80 <> 0.
Proof.
  destruct (decompress_false_only_at_backref bad_backref 16 20 0
              (LzState 8 20 (bad_backref ++ [0; 0; 0; 0]))
              (bad_backref ++ [0; 0; 0; 1]))
    as (control & i & st & Hreach & Hi & Hidx & Hout & Hbit & _).
  - vm_compute. reflexivity.
  - vm_compute. reflexivity.
  - exists control, i, st. repeat split; assumption.
Defined.

(** The decompressor writes downwards from the end of the output
    buffer: at every point of a run the bytes below the write cursor are
    still the ones [memcpy] put there, the compressed bytes followed by
    zeros. *)
Theorem decompress_keeps_bytes_below_cursor
    (compressed : bytes) (compressed_size decompressed_size stop_index : Z)
    (st0 : lz_state) (c : lz_pc * lz_state) (k : nat) :
  lz_init compressed compressed_size decompressed_size = Some (stop_index, st0) ->
  lz_reach compressed decompressed_size stop_index (AtWhile, st0) c ->
  Z.of_nat k < out (snd c) ->
  decompressed (snd c) !! k
  = (take (Z.to_nat compressed_size) compressed
     ++ replicate (Z.to_nat (decompressed_size - compressed_size)) 0) !! k.
Proof.
  intros Hinit Hreach Hk.
  destruct (reach_below _ _ _ _ _ k Hreach) as [_ H]. rewrite (H Hk).
  cbn [snd]. unfold lz_init in Hinit.
  destruct (read_u32 _ _); [| discriminate]. simpl in Hinit.
  destruct (_ && _); [| discriminate].
  injection Hinit as _ <-. reflexivity.
Qed.

Lemma decompress_keeps_bytes_below_cursor_witness :
  (take 14 crosses_stop ++ [3; 2; 1; 3; 2; 1]) !! 7%nat = crosses_stop !! 7%nat.
Proof.
  pose proof (decompress_keeps_bytes_below_cursor crosses_stop 16 20 3
                (LzState 8 20 (crosses_stop ++ [0; 0; 0; 0]))
                (AtFor 0 4, LzState 2 14 (take 14 crosses_stop ++ [3; 2; 1; 3; 2; 1]))
                7) as H.
  cbn [snd decompressed out] in H. rewrite H.
  - vm_compute. reflexivity.
  - vm_compute. reflexivity.
  - apply (lz_iter_reach _ _ _ 5 _
             (AtWhile, LzState 8 20 (crosses_stop ++ [0; 0; 0; 0]))).
    + apply lz_reach_refl.
    + vm_compute. reflexivity.
  - vm_compute. reflexivity.
Defined.

(** ** Key derivation: which key goes where *)

Section Keys.
Context (E : Env).

Ltac run_ops :=
  unfold derive, derive_counters, derive_keys, alternate_slot,
    set_code_romfs_key, set_exefs_key, key_into,
    SetKeyY, IsNormalKeyAvailable, GetNormalKey, InitKeys,
    bind, get, modify, ret, fail, undefined in *.

(** The keys of the three members of a world. *)
Local Abbreviation member_keys w :=
  (key <$> exefs_aes (loader w), key <$> exerfs_code_aes (loader w),
   key <$> romfs_aes (loader w)).

(** With the fixed-key flag set and a known version, every context gets
    the all-zero key and the key store is not called, whatever the seed
    flag and the method byte are. *)
Theorem fixed_key_is_all_zero (h : NCCH_Header.t) (w : World) :
  is_Some (version_contexts h) ->
  Z.land (NCCH_Header.flags h 7) 1 <> 0 ->
  exists a w',
    derive E h w = Ret a w'
    /\ key a = zeros16
    /\ member_keys w' = (Some zeros16, Some zeros16, Some zeros16)
    /\ keys w' = keys w.
Proof.
  intros [cs Hcs] Hfixed. apply Z.eqb_neq in Hfixed. run_ops.
  rewrite Hcs, Hfixed. simpl.
  eexists _, _. split; [reflexivity |]. simpl. auto.
Qed.

(** With the fixed-key flag and the seed flag clear and the key of the
    slot [NCCH] available, the extended header and the ExeFS get that
    key.  With the method 0 the code section and the RomFS get it too;
    with the methods 1, 0x0A and 0x0B they get the key of the slot
    [NCCH7x], [NCCHSec3] or [NCCHSec4], made from the same key-seed, and
    the derivation fails with [ErrorEncrypted] if that slot has no key. *)
Theorem keys_by_method (h : NCCH_Header.t) (w : World) (k : bytes) :
  let method := NCCH_Header.flags h 3 in
  let key_y := take 16 (NCCH_Header.signature h) in
  is_Some (version_contexts h) ->
  Z.land (NCCH_Header.flags h 7) 1 = 0 ->
  Z.land (NCCH_Header.flags h 7) 0x20 = 0 ->
  normal_key E NCCH key_y = Some k ->
  (method = 0 ->
   exists a w',
     derive E h w = Ret a w' /\ key a = k
     /\ member_keys w' = (Some k, Some k, Some k))
  /\ (forall slot,
        slot_of_method method = Some slot ->
        (forall k2,
           normal_key E slot key_y = Some k2 ->
           exists a w',
             derive E h w = Ret a w' /\ key a = k
             /\ member_keys w' = (Some k, Some k2, Some k2))
        /\ (normal_key E slot key_y = None ->
            exists w', derive E h w = Fail ErrorEncrypted w')).
Proof.
  intros method key_y [cs Hcs] Hfixed Hseed Hk. subst method key_y. split.
  - intros Hm. run_ops. rewrite Hcs, Hfixed, Hseed, Hm. simpl.
    unfold slot_key. simpl. rewrite Hk. simpl.
    eexists _, _. split; [reflexivity |].
        simpl; unfold slot_key; simpl; rewrite ?Hk; simpl; rewrite ?Hk2; simpl.
        split; reflexivity.
  - intros slot Hslot. unfold slot_of_method in Hslot.
    destruct (Z.eqb_spec (NCCH_Header.flags h 3) 1) as [Hm | H1].
    { injection Hslot as <-. split.
      - intros k2 Hk2. run_ops. rewrite Hcs, Hfixed, Hseed, Hm. simpl.
        unfold slot_key. simpl. rewrite Hk. simpl. rewrite Hk2. simpl.
        eexists _, _. split; [reflexivity |].
        simpl; unfold slot_key; simpl; rewrite ?Hk; simpl; rewrite ?Hk2; simpl.
        split; reflexivity.
      - intros Hnone. run_ops. rewrite Hcs, Hfixed, Hseed, Hm. simpl.
        unfold slot_key. simpl. rewrite Hk. simpl. rewrite Hnone. simpl.
        eexists. reflexivity. }
    destruct (Z.eqb_spec (NCCH_Header.flags h 3) 10) as [Hm | HA].
    { injection Hslot as <-. split.
      - intros k2 Hk2. run_ops. rewrite Hcs, Hfixed, Hseed, Hm. simpl.
        unfold slot_key. simpl. rewrite Hk. simpl. rewrite Hk2. simpl.
        eexists _, _. split; [reflexivity |].
        simpl; unfold slot_key; simpl; rewrite ?Hk; simpl; rewrite ?Hk2; simpl.
        split; reflexivity.
      - intros Hnone. run_ops. rewrite Hcs, Hfixed, Hseed, Hm. simpl.
        unfold slot_key. simpl. rewrite Hk. simpl. rewrite Hnone. simpl.
        eexists. reflexivity. }
    destruct (Z.eqb_spec (NCCH_Header.flags h 3) 11) as [Hm | HB];
      [| discriminate].
    injection Hslot as <-. split.
    + intros k2 Hk2. run_ops. rewrite Hcs, Hfixed, Hseed, Hm. simpl.
      unfold slot_key. simpl. rewrite Hk. simpl. rewrite Hk2. simpl.
      eexists _, _. split; [reflexivity |].
        simpl; unfold slot_key; simpl; rewrite ?Hk; simpl; rewrite ?Hk2; simpl.
        split; reflexivity.
    + intros Hnone. run_ops. rewrite Hcs, Hfixed, Hseed, Hm. simpl.
      unfold slot_key. simpl. rewrite Hk. simpl. rewrite Hnone. simpl.
      eexists. reflexivity.
Qed.

(** With the fixed-key flag and the seed flag clear, a slot [NCCH]
    without a key ends the derivation with [ErrorEncrypted], whatever
    the method byte is; no context has been given a key. *)
Theorem missing_key_is_an_error (h : NCCH_Header.t) (w : World) :
  let key_y := take 16 (NCCH_Header.signature h) in
  is_Some (version_contexts h) ->
  Z.land (NCCH_Header.flags h 7) 1 = 0 ->
  Z.land (NCCH_Header.flags h 7) 0x20 = 0 ->
  normal_key E NCCH key_y = None ->
  exists w',
    derive E h w = Fail ErrorEncrypted w'
    /\ member_keys w' = (Some zeros16, Some zeros16, Some zeros16).
Proof.
  intros key_y [cs Hcs] Hfixed Hseed Hnone. subst key_y. run_ops.
  rewrite Hcs, Hfixed, Hseed. simpl. unfold slot_key. simpl.
  rewrite Hnone. simpl. eexists. split; [reflexivity |]. simpl.
  unfold version_contexts in Hcs.
  destruct (_ || _); [injection Hcs as <-; reflexivity |].
  destruct (_ =? 1); [injection Hcs as <-; reflexivity | discriminate].
Qed.

(** The derivation assigns a key only to a context that holds a value:
    it never dereferences an empty optional. *)
Theorem derive_is_defined (h : NCCH_Header.t) (w : World) :
  derive E h w <> Undefined.
Proof.
  run_ops. destruct (version_contexts h); simpl; [| discriminate].
  repeat (match goal with
          | |- context [if ?b then _ else _] => destruct b
          end; simpl); discriminate.
Qed.

End Keys.

Lemma fixed_key_is_all_zero_witness :
  exists a w',
    derive two_slots (header_with 2 0x0B 0x21) (fresh_world []) = Ret a w'
    /\ key a = zeros16 /\ keys w' = empty_keys.
Proof.
  destruct (fixed_key_is_all_zero two_slots (header_with 2 0x0B 0x21)
              (fresh_world [])) as (a & w' & H & Ha & _ & Hk).
  - eexists. reflexivity.
  - discriminate.
  - exists a, w'. repeat split; assumption.
Defined.

Lemma keys_by_method_witness :
  (exists a w',
     derive two_slots (header_with 0 1 0) (fresh_world []) = Ret a w'
     /\ key <$> exefs_aes (loader w') = Some (replicate 16 0x2C)
     /\ key <$> exerfs_code_aes (loader w') = Some (replicate 16 0x25))
  /\ exists w',
       derive two_slots (header_with 0 0x0A 0) (fresh_world [])
       = Fail ErrorEncrypted w'.
Proof.
  destruct (keys_by_method two_slots (header_with 0 1 0) (fresh_world [])
              (replicate 16 0x2C)) as [_ H1]; try reflexivity.
  { eexists. reflexivity. }
  destruct (keys_by_method two_slots (header_with 0 0x0A 0) (fresh_world [])
              (replicate 16 0x2C)) as [_ HA]; try reflexivity.
  { eexists. reflexivity. }
  split.
  - destruct (H1 NCCH7x eq_refl) as [Hok _].
    destruct (Hok (replicate 16 0x25) eq_refl) as (a & w' & H & _ & Hkeys).
    exists a, w'. injection Hkeys as H2 H3 H4. repeat split; assumption.
  - destruct (HA NCCHSec3 eq_refl) as [_ Hfail]. exact (Hfail eq_refl).
Defined.

(** ** Failures of the loader's operations *)

Section Failures.
Context {A B : Type}.

Lemma fails_with_bind (S : ResultStatus -> Prop) (m : M A) (k : A -> M B) :
  fails_with S m -> (forall a, fails_with S (k a)) -> fails_with S (bind m k).
Proof.
  intros Hm Hk w. unfold bind. specialize (Hm w).
  destruct (m w) as [a w1 | |]; [| exact Hm | exact I].
  exact (Hk a w1).
Qed.

Lemma fails_with_ret (S : ResultStatus -> Prop) (a : A) : fails_with S (ret a).
Proof. intros w. exact I. Qed.

Lemma fails_with_fail (S : ResultStatus -> Prop) (e : ResultStatus) :
  S e -> fails_with S (@fail A e).
Proof. intros He w. exact He. Qed.

Lemma fails_with_undefined (S : ResultStatus -> Prop) : fails_with S (@undefined A).
Proof. intros w. exact I. Qed.

Lemma keeps_on_failure_bind (P : World -> Prop) (m : M A) (k : A -> M B) :
  keeps P m -> (forall a, keeps_on_failure P (k a)) ->
  keeps_on_failure P (bind m k).
Proof.
  intros Hm Hk w Hw. unfold bind. specialize (Hm w Hw).
  destruct (m w) as [a w1 | |]; [| exact Hm | exact I].
  exact (Hk a w1 Hm).
Qed.

Lemma keeps_on_failure_of_keeps (P : World -> Prop) (m : M A) :
  keeps P m -> keeps_on_failure P m.
Proof. intros Hm w Hw. specialize (Hm w Hw). destruct (m w); auto. Qed.

End Failures.

Lemma fails_with_get (S : ResultStatus -> Prop) : fails_with S get.
Proof. intros w. exact I. Qed.

Lemma fails_with_modify (S : ResultStatus -> Prop) (f : World -> World) :
  fails_with S (modify f).
Proof. intros w. exact I. Qed.

Lemma fails_with_Seek (S : ResultStatus -> Prop) (off : Z) : fails_with S (Seek off).
Proof. intros w. exact I. Qed.

Lemma fails_with_ReadBytes (S : ResultStatus -> Prop) (n : Z) :
  fails_with S (ReadBytes n).
Proof. intros w. exact I. Qed.

Lemma fails_with_InitKeys (S : ResultStatus -> Prop) : fails_with S InitKeys.
Proof. intros w. exact I. Qed.

Lemma fails_with_SetKeyY (S : ResultStatus -> Prop) (slot : KeySlotID) (y : bytes) :
  fails_with S (SetKeyY slot y).
Proof. intros w. exact I. Qed.

Lemma fails_with_IsNormalKeyAvailable (S : ResultStatus -> Prop) (E : Env)
    (slot : KeySlotID) : fails_with S (IsNormalKeyAvailable E slot).
Proof. intros w. exact I. Qed.

Lemma fails_with_GetNormalKey (S : ResultStatus -> Prop) (E : Env)
    (slot : KeySlotID) : fails_with S (GetNormalKey E slot).
Proof. intros w. exact I. Qed.

Lemma keeps_on_failure_modify (P : World -> Prop) (f : World -> World) :
  keeps_on_failure P (modify f).
Proof. intros w Hw. exact I. Qed.

Ltac fails_step :=
  lazymatch goal with
  | |- fails_with _ (ret _) => apply fails_with_ret
  | |- fails_with ?S (fail _) =>
      apply fails_with_fail; unfold S; auto
  | |- fails_with _ undefined => apply fails_with_undefined
  | |- fails_with _ get => apply fails_with_get
  | |- fails_with _ (bind _ _) => apply fails_with_bind; [| intros ?]
  | |- fails_with _ (modify _) => apply fails_with_modify
  | |- fails_with _ (Seek _) => apply fails_with_Seek
  | |- fails_with _ (ReadBytes _) => apply fails_with_ReadBytes
  | |- fails_with _ InitKeys => apply fails_with_InitKeys
  | |- fails_with _ (SetKeyY _ _) => apply fails_with_SetKeyY
  | |- fails_with _ (IsNormalKeyAvailable _ _) =>
      apply fails_with_IsNormalKeyAvailable
  | |- fails_with _ (GetNormalKey _ _) => apply fails_with_GetNormalKey
  | |- fails_with _ (if ?b then _ else _) => destruct b
  | |- fails_with _ (match ?o with _ => _ end) => destruct o
  end.

Ltac fails_all := repeat fails_step.

Section LoadExeFS_more.
Context (L : Layout) (E : Env).

Ltac unfold_loader :=
  unfold LoadExeFS, read_headers, read_exefs_header, decrypt_exheader,
    read_into, derive, derive_counters, derive_keys, alternate_slot,
    set_code_romfs_key, set_exefs_key, key_into, load_section.

Lemma LoadExeFS_fails_with : fails_with load_exefs_status (LoadExeFS L E).
Proof. unfold_loader. fails_all. Qed.

Lemma read_exefs_header_flags_on_failure (b : bool) :
  keeps_on_failure (flags_are b false) (read_exefs_header L E).
Proof.
  unfold read_exefs_header, read_into, flags_are.
  repeat (apply keeps_on_failure_bind; [keeps_all | intros ?]).
  destruct (negb _); [apply keeps_on_failure_of_keeps; keeps_all |].
  repeat (apply keeps_on_failure_bind; [keeps_all | intros ?]).
  apply keeps_on_failure_modify.
Qed.

(** The status and the flags after a failed [LoadExeFS]. *)
Lemma LoadExeFS_Fail (w w' : World) (e : ResultStatus) :
  LoadExeFS L E w = Fail e w' ->
  (e = Error \/ e = ErrorInvalidFormat \/ e = ErrorEncrypted)
  /\ is_exefs_loaded (loader w) = false
  /\ is_exefs_loaded (loader w') = false
  /\ is_loaded (loader w') = is_loaded (loader w).
Proof.
  intros Hfail.
  pose proof (LoadExeFS_fails_with w) as Hstatus. rewrite Hfail in Hstatus.
  split; [exact Hstatus |].
  destruct (is_exefs_loaded (loader w)) eqn:Hflag.
  { unfold LoadExeFS, bind, get in Hfail. rewrite Hflag in Hfail. discriminate. }
  split; [reflexivity |].
  assert (H : keeps_on_failure (flags_are (is_loaded (loader w)) false)
                (LoadExeFS L E)).
  { unfold LoadExeFS.
    apply keeps_on_failure_bind; [apply keeps_get | intros w0].
    destruct (is_exefs_loaded (loader w0));
      [apply keeps_on_failure_of_keeps; apply keeps_ret |].
    apply keeps_on_failure_bind; [apply read_headers_flags | intros _].
    apply keeps_on_failure_bind; [apply keeps_get | intros w1].
    apply keeps_on_failure_bind; [| intros _; apply read_exefs_header_flags_on_failure].
    destruct (negb _); [| apply keeps_ret].
    apply keeps_bind; [apply derive_flags | intros a].
    apply decrypt_exheader_flags. }
  specialize (H w (conj eq_refl Hflag)). rewrite Hfail in H.
  destruct H as [H1 H2]. split; assumption.
Qed.

(** A failed [LoadExeFS] returns [Error], [ErrorInvalidFormat] or
    [ErrorEncrypted] and leaves both flags as they were: the next call
    reads the file again. *)
Theorem LoadExeFS_failure (w w' : World) (e : ResultStatus) :
  LoadExeFS L E w = Fail e w' ->
  (e = Error \/ e = ErrorInvalidFormat \/ e = ErrorEncrypted)
  /\ is_exefs_loaded (loader w) = false
  /\ is_exefs_loaded (loader w') = false
  /\ is_loaded (loader w') = is_loaded (loader w).
Proof. exact (LoadExeFS_Fail w w' e). Qed.

End LoadExeFS_more.

Lemma LoadExeFS_failure_witness :
  match LoadExeFS container_layout two_slots (fresh_world garbled_cxi) with
  | Fail e w' => e = ErrorEncrypted /\ is_exefs_loaded (loader w') = false
  | _ => False
  end.
Proof.
  destruct (LoadExeFS container_layout two_slots (fresh_world garbled_cxi))
    as [[] w' | e w' |] eqn:H.
  - vm_compute in H. discriminate H.
  - destruct (LoadExeFS_failure container_layout two_slots _ _ _ H)
      as (_ & _ & Hflag & _).
    split; [| exact Hflag].
    vm_compute in H. injection H as <- _. reflexivity.
  - vm_compute in H. discriminate H.
Defined.

(** ** [LoadExeFS]: what it accepts, and what a success means *)

Ltac members :=
  unfold on_loader, on_keys, emit, set_file, set_is_loaded, set_is_exefs_loaded,
    set_info, set_ncch_header, set_exheader_header, set_exefs_header,
    set_ncch_offset, set_exefs_offset, set_aes, the_ncch_header, the_exheader in *;
  cbn [loader keys events file is_loaded is_exefs_loaded info ncch_header
       exheader_header exefs_header ncch_offset exefs_offset exefs_aes
       exerfs_code_aes romfs_aes IsOpen content pos] in *.

Ltac exec_with lem := rewrite ?bind_assoc; rewrite lem; members.
Ltac exec_in H lem := rewrite ?bind_assoc in H; rewrite lem in H; members.

Section LoadExeFS_accepts.
Context (L : Layout) (E : Env).

(** The first steps of [LoadExeFS]: the file handle, the length of the
    header and its magic number. *)
Lemma LoadExeFS_first_header (w : World) :
  let data := content (file (loader w)) in
  let sz := sizeof_NCCH_Header L in
  let first := overlay (take (Z.to_nat sz) data) (ncch_header (loader w)) in
  is_exefs_loaded (loader w) = false ->
  (IsOpen (file (loader w)) = false -> LoadExeFS L E w = Fail Error w)
  /\ (IsOpen (file (loader w)) = true ->
      (Z.of_nat (length (take (Z.to_nat sz) data)) <> sz ->
       status (LoadExeFS L E w) = Some Error)
      /\ (Z.of_nat (length (take (Z.to_nat sz) data)) = sz ->
          NCCH_Header.magic (as_NCCH_Header L first) <> magic_NCSD L ->
          NCCH_Header.magic (as_NCCH_Header L first) <> magic_NCCH L ->
          status (LoadExeFS L E w) = Some ErrorInvalidFormat)).
Proof.
  intros data sz first Hflag. subst first data sz.
  destruct w as [[[op data0 p] ? ? ? hd ? ? ? ? ? ? ?] ks ev]. members.
  match goal with |- context [LoadExeFS L E ?w0] =>
    remember (LoadExeFS L E w0) as o eqn:Ho
  end.
  unfold LoadExeFS in Ho. exec_in Ho @bind_get. rewrite Hflag in Ho.
  unfold read_headers in Ho. exec_in Ho @bind_get.
  split.
  - intros Hopen. rewrite Hopen in Ho. cbn [negb] in Ho.
    rewrite ?bind_assoc, bind_fail in Ho. subst. reflexivity.
  - intros Hopen. rewrite Hopen in Ho. cbn [negb] in Ho.
    exec_in Ho @bind_Seek.
    unfold read_into at 1 in Ho. exec_in Ho @bind_ReadBytes. cbv zeta in Ho.
    change (0 <? 0) with false in Ho. cbv iota in Ho.
    change (Z.to_nat 0) with 0%nat in Ho. rewrite drop_0 in Ho.
    exec_in Ho @bind_modify. exec_in Ho @bind_ret.
    split.
    + intros Hshort. rewrite (negb_eqb_true _ _ Hshort) in Ho.
      rewrite ?bind_assoc, bind_fail in Ho. rewrite Ho. reflexivity.
    + intros Hlen Hncsd Hncch. rewrite Hlen, Z.eqb_refl in Ho. cbn [negb] in Ho.
      exec_in Ho @bind_get.
      apply not_eq_sym, Z.eqb_neq in Hncsd. rewrite Hncsd in Ho.
      exec_in Ho @bind_ret. exec_in Ho @bind_get.
      rewrite (negb_eqb_true _ _ (not_eq_sym Hncch)) in Ho.
      rewrite ?bind_assoc, bind_fail in Ho. rewrite Ho. reflexivity.
Qed.

(** [LoadExeFS] on a file that is closed, too short for a partition
    header, or without one of the two magic numbers: [Error], [Error],
    [ErrorInvalidFormat]. *)
Theorem LoadExeFS_rejects (w : World) :
  let data := content (file (loader w)) in
  let sz := sizeof_NCCH_Header L in
  let first := overlay (take (Z.to_nat sz) data) (ncch_header (loader w)) in
  is_exefs_loaded (loader w) = false ->
  (IsOpen (file (loader w)) = false -> LoadExeFS L E w = Fail Error w)
  /\ (IsOpen (file (loader w)) = true ->
      (Z.of_nat (length (take (Z.to_nat sz) data)) <> sz ->
       status (LoadExeFS L E w) = Some Error)
      /\ (Z.of_nat (length (take (Z.to_nat sz) data)) = sz ->
          NCCH_Header.magic (as_NCCH_Header L first) <> magic_NCSD L ->
          NCCH_Header.magic (as_NCCH_Header L first) <> magic_NCCH L ->
          status (LoadExeFS L E w) = Some ErrorInvalidFormat)).
Proof. exact (LoadExeFS_first_header w). Qed.

(** What a successful [read_exefs_header] leaves behind. *)
Lemma read_exefs_header_Ret (w w' : World) :
  read_exefs_header L E w = Ret tt w' ->
  is_compressed (info (loader w'))
  = (Z.land (ExHeader_Header.flag (the_exheader L w)) 1 =? 1)
  /\ exefs_offset (loader w')
     = u32 (NCCH_Header.exefs_offset (the_ncch_header L w) * kBlockSize)
  /\ pos (file (loader w'))
     = u32 (exefs_offset (loader w') + ncch_offset (loader w))
       + sizeof_ExeFs_Header L
  /\ ncch_header (loader w') = ncch_header (loader w)
  /\ exheader_header (loader w') = exheader_header (loader w)
  /\ ncch_offset (loader w') = ncch_offset (loader w)
  /\ is_exefs_loaded (loader w') = true.
Proof.
  destruct w as [[[op data0 p] ? ? ? hd ? ? ? ? fs ? ?] ks ev]. members.
  intros H. unfold read_exefs_header in H.
  exec_in H @bind_get. exec_in H @bind_modify. exec_in H @bind_modify.
  exec_in H @bind_get. exec_in H @bind_Seek.
  unfold read_into at 1 in H. exec_in H @bind_ReadBytes. cbv zeta in H.
  exec_in H @bind_modify. exec_in H @bind_ret.
  match type of H with context [negb (?a =? ?b)] =>
    destruct (Z.eqb_spec a b) as [Hn |]; cbn [negb] in H;
      [| discriminate H]
  end.
  exec_in H @bind_get.
  assert (Hpos : 0 <= u32 (u32 (NCCH_Header.exefs_offset (as_NCCH_Header L hd)
                                  * kBlockSize) + ncch_offset0))
    by (apply Z.mod_pos_bound; lia).
  destruct fs as [a |].
  - exec_in H @bind_modify. unfold modify in H. members.
    injection H as <-. members. rewrite Hn. repeat split; reflexivity.
  - exec_in H @bind_ret. unfold modify in H. members.
    injection H as <-. members. rewrite Hn. repeat split; reflexivity.
Qed.

(** What [LoadExeFS] leaves behind when it has read the file. *)
Lemma LoadExeFS_Ret (w w' : World) :
  is_exefs_loaded (loader w) = false ->
  LoadExeFS L E w = Ret tt w' ->
  ids_agree L w'
  /\ is_compressed (info (loader w'))
     = (Z.land (ExHeader_Header.flag (the_exheader L w')) 1 =? 1)
  /\ exefs_offset (loader w')
     = u32 (NCCH_Header.exefs_offset (the_ncch_header L w') * kBlockSize)
  /\ pos (file (loader w'))
     = u32 (exefs_offset (loader w') + ncch_offset (loader w'))
       + sizeof_ExeFs_Header L.
Proof.
  intros Hflag H. unfold LoadExeFS in H. rewrite bind_get, Hflag in H.
  apply bind_Ret in H as ([] & w1 & _ & H).
  rewrite bind_get in H.
  apply bind_Ret in H as ([] & w2 & Hmid & H).
  assert (Hids : ids_agree L w2).
  { destruct (Z.eqb_spec (ExHeader_Header.program_id (the_exheader L w1))
                (NCCH_Header.program_id (the_ncch_header L w1))) as [Heq | Hne];
      cbn [negb] in Hmid.
    - injection Hmid as <-. exact Heq.
    - apply bind_Ret in Hmid as (a & w1' & _ & Hmid).
      unfold decrypt_exheader in Hmid.
      rewrite bind_modify, bind_get in Hmid.
      match type of Hmid with context [negb (?a =? ?b)] =>
        destruct (Z.eqb_spec a b) as [Heq |]; cbn [negb] in Hmid;
          [| discriminate Hmid]
      end.
      injection Hmid as <-. exact Heq. }
  apply read_exefs_header_Ret in H as (Hc & Ho & Hp & Hn & He & Hoff & _).
  unfold ids_agree, the_exheader, the_ncch_header in *.
  rewrite Hn, He, Hoff. repeat split; assumption.
Qed.

(** A successful [LoadExeFS] that had to read the file leaves a loader
    whose extended header carries the program identifier of the
    partition header (as read, or after decryption), with the
    compression flag, the offset of the ExeFS in bytes modulo 2^32, and
    the read position just behind the ExeFS header. *)
Theorem LoadExeFS_success (w w' : World) :
  is_exefs_loaded (loader w) = false ->
  LoadExeFS L E w = Ret tt w' ->
  ids_agree L w'
  /\ is_compressed (info (loader w'))
     = (Z.land (ExHeader_Header.flag (the_exheader L w')) 1 =? 1)
  /\ exefs_offset (loader w')
     = u32 (NCCH_Header.exefs_offset (the_ncch_header L w') * kBlockSize)
  /\ pos (file (loader w'))
     = u32 (exefs_offset (loader w') + ncch_offset (loader w'))
       + sizeof_ExeFs_Header L.
Proof. exact (LoadExeFS_Ret w w'). Qed.

(** When the extended header already carries the program identifier of
    the partition header, [LoadExeFS] goes straight on to the ExeFS
    header: no context is derived and the key store is not called. *)
Theorem plain_partition_needs_no_key (w w1 : World) :
  is_exefs_loaded (loader w) = false ->
  read_headers L w = Ret tt w1 ->
  ids_agree L w1 ->
  LoadExeFS L E w = read_exefs_header L E w1
  /\ forall w',
       world_of (LoadExeFS L E w) = Some w' ->
       keys w' = keys w
       /\ exefs_aes (loader w') = exefs_aes (loader w)
       /\ exerfs_code_aes (loader w') = exerfs_code_aes (loader w)
       /\ romfs_aes (loader w') = romfs_aes (loader w).
Proof.
  intros Hflag Hheaders Hids.
  assert (Hrun : LoadExeFS L E w = read_exefs_header L E w1).
  { unfold LoadExeFS. rewrite bind_get, Hflag.
    rewrite (bind_step _ _ _ _ _ Hheaders), bind_get.
    rewrite (negb_eqb_false _ _ Hids), bind_ret. reflexivity. }
  split; [exact Hrun |].
  set (P := fun w0 : World =>
              keys w0 = keys w
              /\ exefs_aes (loader w0) = exefs_aes (loader w)
              /\ exerfs_code_aes (loader w0) = exerfs_code_aes (loader w)
              /\ romfs_aes (loader w0) = romfs_aes (loader w)).
  assert (H1 : keeps P (read_headers L)).
  { unfold read_headers, read_into, P. keeps_all. }
  assert (H2 : keeps P (read_exefs_header L E)).
  { unfold read_exefs_header, read_into, P. keeps_all. }
  specialize (H1 w (conj eq_refl (conj eq_refl (conj eq_refl eq_refl)))).
  rewrite Hheaders in H1. specialize (H2 w1 H1).
  intros w' Hw'. rewrite Hrun in Hw'.
  destruct (read_exefs_header L E w1); simpl in Hw'; try discriminate;
    injection Hw' as <-; exact H2.
Qed.

End LoadExeFS_accepts.

Lemma missing_key_is_an_error_witness :
  exists w',
    derive no_keys (header_with 1 0x0B 0) (fresh_world [])
    = Fail ErrorEncrypted w'.
Proof.
  destruct (missing_key_is_an_error no_keys (header_with 1 0x0B 0)
              (fresh_world [])) as (w' & H & _); try reflexivity.
  - eexists. reflexivity.
  - exists w'. exact H.
Defined.

Lemma LoadExeFS_rejects_witness :
  status (LoadExeFS container_layout two_slots (fresh_world [1; 2; 3]))
  = Some Error
  /\ status (LoadExeFS container_layout two_slots (fresh_world blank_header))
     = Some ErrorInvalidFormat.
Proof.
  split.
  - destruct (LoadExeFS_rejects container_layout two_slots
                (fresh_world [1; 2; 3]) eq_refl) as [_ H].
    destruct (H eq_refl) as [Hshort _]. apply Hshort.
    vm_compute. intros Hx. discriminate Hx.
  - destruct (LoadExeFS_rejects container_layout two_slots
                (fresh_world blank_header) eq_refl) as [_ H].
    destruct (H eq_refl) as [_ Hbad]. apply Hbad.
    + vm_compute. reflexivity.
    + vm_compute. intros Hx. discriminate Hx.
    + vm_compute. intros Hx. discriminate Hx.
Defined.

Lemma LoadExeFS_success_witness :
  match LoadExeFS container_layout two_slots (fresh_world (fixed_key_cxi 1)) with
  | Ret _ w' =>
      ids_agree container_layout w'
      /\ exefs_offset (loader w') = 0xA00
      /\ pos (file (loader w')) = 0xC00
  | _ => False
  end.
Proof.
  destruct (LoadExeFS container_layout two_slots (fresh_world (fixed_key_cxi 1)))
    as [[] w' | e w' |] eqn:H.
  - destruct (LoadExeFS_success container_layout two_slots
                (fresh_world (fixed_key_cxi 1)) w' eq_refl H)
      as (Hids & _ & Hoff & Hpos).
    split; [exact Hids |].
    rewrite Hpos, Hoff. computed H. split; vm_compute; reflexivity.
  - vm_compute in H. discriminate H.
  - vm_compute in H. discriminate H.
Defined.

Lemma plain_partition_needs_no_key_witness :
  match world_of (LoadExeFS container_layout two_slots (fresh_world plain_cxi)) with
  | Some w' => keys w' = empty_keys /\ exefs_aes (loader w') = None
  | None => False
  end.
Proof.
  destruct (read_headers container_layout (fresh_world plain_cxi))
    as [[] w1 | e w1 |] eqn:H1;
    [| vm_compute in H1; discriminate H1 | vm_compute in H1; discriminate H1].
  destruct (plain_partition_needs_no_key container_layout two_slots
              (fresh_world plain_cxi) w1 eq_refl H1) as [_ H].
  - computed H1. vm_compute. reflexivity.
  - destruct (world_of (LoadExeFS container_layout two_slots (fresh_world plain_cxi)))
      as [w' |] eqn:Hw'.
    + destruct (H w' eq_refl) as (Hk & Ha & _). split; assumption.
    + vm_compute in Hw'. discriminate Hw'.
Defined.

(** ** Reading a section *)

Section Sections.
Context (L : Layout) (E : Env).

Lemma scan_sections_miss (name : string) (w : World) (ns : list nat) :
  (forall n, In n ns ->
     ExeFs_SectionHeader.name (exefs_section L (exefs_header (loader w)) n)
     <> name) ->
  scan_sections L E name ns w = Fail ErrorNotUsed w.
Proof.
  induction ns as [| n ns IH]; intros Hns; simpl; [reflexivity |].
  rewrite bind_get.
  destruct (String.eqb_spec
              (ExeFs_SectionHeader.name
                 (exefs_section L (exefs_header (loader w)) n)) name) as [Heq | _].
  - exfalso. exact (Hns n (or_introl eq_refl) Heq).
  - apply IH. intros m Hm. apply Hns. right. exact Hm.
Qed.

Lemma scan_sections_hit (name : string) (w : World) (pre post : list nat) (n : nat) :
  (forall m, In m pre ->
     ExeFs_SectionHeader.name (exefs_section L (exefs_header (loader w)) m)
     <> name) ->
  ExeFs_SectionHeader.name (exefs_section L (exefs_header (loader w)) n) = name ->
  scan_sections L E name (pre ++ n :: post) w
  = load_section L E (exefs_section L (exefs_header (loader w)) n) w.
Proof.
  intros Hpre Hn. induction pre as [| m pre IH]; simpl.
  - rewrite bind_get.
    destruct (String.eqb_spec
                (ExeFs_SectionHeader.name
                   (exefs_section L (exefs_header (loader w)) n)) name);
      [reflexivity | contradiction].
  - rewrite bind_get.
    destruct (String.eqb_spec
                (ExeFs_SectionHeader.name
                   (exefs_section L (exefs_header (loader w)) m)) name) as [Heq | _].
    + exfalso. exact (Hpre m (or_introl eq_refl) Heq).
    + apply IH. intros k Hk. apply Hpre. right. exact Hk.
Qed.

(** The lookup of a section by name among the eight entries of the
    ExeFS header: a name that no entry carries gives [ErrorNotUsed]; of
    several entries with the name, the first is read. *)
Theorem section_lookup (name : string) (w w1 : World) :
  let section n := exefs_section L (exefs_header (loader w1)) n in
  IsOpen (file (loader w)) = true ->
  LoadExeFS L E w = Ret tt w1 ->
  ((forall n, (n < 8)%nat -> ExeFs_SectionHeader.name (section n) <> name) ->
   LoadSectionExeFS L E name w = Fail ErrorNotUsed w1)
  /\ (forall n,
        (n < 8)%nat ->
        ExeFs_SectionHeader.name (section n) = name ->
        (forall m, (m < n)%nat -> ExeFs_SectionHeader.name (section m) <> name) ->
        LoadSectionExeFS L E name w = load_section L E (section n) w1).
Proof.
  intros section Hopen Hload. subst section.
  assert (Hrun : LoadSectionExeFS L E name w
                 = scan_sections L E name (seq 0 kMaxSections) w1).
  { unfold LoadSectionExeFS. rewrite bind_get, Hopen. cbn [negb].
    rewrite (bind_step _ _ _ _ _ Hload). reflexivity. }
  rewrite Hrun. split.
  - intros Hnone. apply scan_sections_miss.
    intros n Hn%in_seq. apply Hnone. unfold kMaxSections in Hn. lia.
  - intros n Hn Hname Hfirst. unfold kMaxSections.
    replace (seq 0 8) with (seq 0 n ++ n :: seq (S n) (8 - S n)).
    + apply scan_sections_hit; [| exact Hname].
      intros m Hm%in_seq. apply Hfirst. lia.
    + change (n :: seq (S n) (8 - S n)) with (seq n (S (8 - S n))).
      rewrite <- seq_app. f_equal. lia.
Qed.

(** A section that is not the compressed [.code] is read as it lies in
    the file, at the offset of the section behind the ExeFS header of
    the partition, and is decrypted, if there is a context, with the
    context of the code section for [.code] and the context of the ExeFS
    for the others, from the position of the section in the ExeFS; a
    short read gives [Error].  Only the read position changes. *)
Theorem load_section_plain (s : ExeFs_SectionHeader.t) (w : World) :
  let l := loader w in
  let size := ExeFs_SectionHeader.size s in
  let off := u32 (ExeFs_SectionHeader.offset s + exefs_offset l)
             + sizeof_ExeFs_Header L + ncch_offset l in
  let raw := take (Z.to_nat size) (drop (Z.to_nat off) (content (file l))) in
  let aes := if String.eqb (ExeFs_SectionHeader.name s) ".code"
             then exerfs_code_aes l else exefs_aes l in
  String.eqb (ExeFs_SectionHeader.name s) ".code" && is_compressed (info l)
  = false ->
  0 <= off ->
  (Z.of_nat (length raw) = size ->
   load_section L E s w
   = Ret match aes with
         | Some a =>
             aes_ctr E (key a) (ctr a)
               (ExeFs_SectionHeader.offset s + sizeof_ExeFs_Header L) raw
         | None => raw
         end
       (on_loader (set_file {| IsOpen := IsOpen (file l);
                               content := content (file l);
                               pos := off + size |}) w))
  /\ (Z.of_nat (length raw) <> size ->
      status (load_section L E s w) = Some Error).
Proof.
  intros l size off raw aes Hplain Hoff. subst aes raw off size l.
  destruct w as [[[op data0 p] ? ? ? ? ? ? ? ? ? ? ?] ks ev]. members.
  match goal with |- context [load_section L E s ?w0] =>
    remember (load_section L E s w0) as o eqn:Ho
  end.
  unfold load_section in Ho.
  exec_in Ho @bind_get. exec_in Ho @bind_Seek. rewrite Hplain in Ho.
  exec_in Ho @bind_ReadBytes. cbv zeta in Ho.
  match type of Ho with context [if ?a <? 0 then _ else _] =>
    destruct (Z.ltb_spec a 0); [lia |]
  end.
  split.
  - intros Hlen. rewrite Hlen, Z.eqb_refl in Ho. cbn [negb] in Ho.
    unfold ret in Ho. rewrite Ho. reflexivity.
  - intros Hlen. rewrite (negb_eqb_true _ _ Hlen) in Ho. rewrite Ho. reflexivity.
Qed.

(** [load_section] moves the read position and does nothing else. *)
Lemma load_section_position (s : ExeFs_SectionHeader.t) (w : World) :
  keeps (same_but_position w) (load_section L E s).
Proof.
  intros w0 (p0 & ->).
  destruct w as [[[op data0 p] ? ? ? ? ? ? ? ? ? ? ?] ks ev].
  unfold load_section, bind, get, Seek, ReadBytes, modify, ret, fail, undefined,
    same_but_position.
  members.
  repeat (cbv beta iota;
          match goal with
          | |- context [if ?b then _ else _] => destruct b
          | |- context [match ?x with _ => _ end] =>
              lazymatch type of x with
              | Outcome _ => fail
              | _ => destruct x
              end
          end);
    cbv beta iota; try exact I; eexists; reflexivity.
Qed.

Lemma scan_sections_position (name : string) (ns : list nat) (w : World) :
  keeps (same_but_position w) (scan_sections L E name ns).
Proof.
  induction ns as [| n ns IH]; simpl.
  - apply keeps_fail.
  - apply keeps_bind; [apply keeps_get | intros w0].
    destruct (String.eqb _ _); [apply load_section_position | exact IH].
Qed.

Lemma same_but_position_refl (w : World) : same_but_position w w.
Proof.
  exists (pos (file (loader w))).
  destruct w as [[[] ? ? ? ? ? ? ? ? ? ? ?] ? ?]. reflexivity.
Qed.

Lemma LoadSectionExeFS_position (name : string) (w : World) :
  is_exefs_loaded (loader w) = true ->
  match LoadSectionExeFS L E name w with
  | Ret _ w' => same_but_position w w'
  | Fail _ w' => same_but_position w w'
  | Undefined => True
  end.
Proof.
  intros Hflag. unfold LoadSectionExeFS. rewrite bind_get.
  destruct (negb _); [apply same_but_position_refl |].
  rewrite (bind_step _ _ _ _ _ (LoadExeFS_again L E w Hflag)).
  exact (scan_sections_position name (seq 0 kMaxSections) w w
           (same_but_position_refl w)).
Qed.

(** Once the ExeFS is loaded, reading a section, whatever it returns,
    changes nothing but the read position of the file. *)
Theorem LoadSectionExeFS_moves_only_the_position (name : string) (w w' : World) :
  is_exefs_loaded (loader w) = true ->
  world_of (LoadSectionExeFS L E name w) = Some w' ->
  same_but_position w w'.
Proof.
  intros Hflag Hw'.
  pose proof (LoadSectionExeFS_position name w Hflag) as H.
  destruct (LoadSectionExeFS L E name w);
    simpl in Hw'; try discriminate; injection Hw' as <-; exact H.
Qed.

End Sections.

Lemma section_lookup_witness :
  status (LoadSectionExeFS container_layout two_slots "icon" (fresh_world plain_cxi))
  = Some ErrorNotUsed
  /\ match LoadExeFS container_layout two_slots (fresh_world plain_cxi) with
     | Ret _ w1 =>
         LoadSectionExeFS container_layout two_slots ".code" (fresh_world plain_cxi)
         = load_section container_layout two_slots
             (ExeFs_SectionHeader.Make ".code" 0 4) w1
     | _ => False
     end.
Proof.
  destruct (LoadExeFS container_layout two_slots (fresh_world plain_cxi))
    as [[] w1 | e w1 |] eqn:H1;
    [| vm_compute in H1; discriminate H1 | vm_compute in H1; discriminate H1].
  destruct (section_lookup container_layout two_slots "icon"
              (fresh_world plain_cxi) w1 eq_refl H1) as [Hmiss _].
  destruct (section_lookup container_layout two_slots ".code"
              (fresh_world plain_cxi) w1 eq_refl H1) as [_ Hhit].
  split.
  - rewrite Hmiss; [reflexivity |].
    intros n Hn. computed H1.
    do 8 (destruct n as [| n]; [vm_compute; intros Hx; discriminate Hx |]). lia.
  - rewrite (Hhit 0%nat); [| lia | | intros m Hm; lia].
    + computed H1. reflexivity.
    + computed H1. vm_compute. reflexivity.
Defined.

Lemma load_section_plain_witness :
  match LoadExeFS container_layout two_slots (fresh_world (fixed_key_cxi 1)) with
  | Ret _ w1 =>
      exists w',
        load_section container_layout two_slots
          (ExeFs_SectionHeader.Make ".code" 0 4) w1
        = Ret some_code w'
  | _ => False
  end.
Proof.
  destruct (LoadExeFS container_layout two_slots (fresh_world (fixed_key_cxi 1)))
    as [[] w1 | e w1 |] eqn:H1;
    [| vm_compute in H1; discriminate H1 | vm_compute in H1; discriminate H1].
  destruct (load_section_plain container_layout two_slots
              (ExeFs_SectionHeader.Make ".code" 0 4) w1) as [Hok _].
  - computed H1. vm_compute. reflexivity.
  - computed H1. vm_compute. intros Hx. discriminate Hx.
  - eexists. rewrite Hok.
    + computed H1. vm_compute. reflexivity.
    + computed H1. vm_compute. reflexivity.
Defined.

Lemma LoadSectionExeFS_moves_only_the_position_witness :
  match LoadExeFS container_layout two_slots (fresh_world plain_cxi) with
  | Ret _ w1 =>
      match world_of (LoadSectionExeFS container_layout two_slots ".code" w1) with
      | Some w' => same_but_position w1 w'
      | None => False
      end
  | _ => False
  end.
Proof.
  destruct (LoadExeFS container_layout two_slots (fresh_world plain_cxi))
    as [[] w1 | e w1 |] eqn:H1;
    [| vm_compute in H1; discriminate H1 | vm_compute in H1; discriminate H1].
  destruct (world_of (LoadSectionExeFS container_layout two_slots ".code" w1))
    as [w' |] eqn:Hw'.
  - apply (LoadSectionExeFS_moves_only_the_position container_layout two_slots
             ".code" w1 w'); [| exact Hw'].
    computed H1. reflexivity.
  - computed H1. vm_compute in Hw'. discriminate Hw'.
Defined.

(** ** The region of the icon *)

Lemma land_1_testbit (v : Z) : (Z.land v 1 =? 0) = negb (Z.testbit v 0).
Proof.
  change 1 with (Z.ones 1). rewrite Z.land_ones by lia.
  rewrite <- Z.bit0_mod. destruct (Z.testbit v 0); reflexivity.
Qed.

Lemma first_region_spec (n : nat) (r0 v : Z) :
  match first_region n r0 v with
  | Some r =>
      r0 <= r < r0 + Z.of_nat n
      /\ Z.testbit v (r - r0) = true
      /\ forall i, 0 <= i < r - r0 -> Z.testbit v i = false
  | None => forall i, 0 <= i < Z.of_nat n -> Z.testbit v i = false
  end.
Proof.
  revert r0 v. induction n as [| n IH]; intros r0 v; simpl.
  - intros i Hi. lia.
  - rewrite land_1_testbit, negb_involutive.
    destruct (Z.testbit v 0) eqn:Hbit.
    + rewrite Z.sub_diag. repeat split; try lia. exact Hbit.
    + specialize (IH (r0 + 1) (Z.shiftr v 1)).
      destruct (first_region n (r0 + 1) (Z.shiftr v 1)) as [r |].
      * destruct IH as (Hr & Hset & Hclear).
        rewrite Z.shiftr_spec in Hset by lia.
        replace (r - (r0 + 1) + 1) with (r - r0) in Hset by lia.
        repeat split; try lia; [exact Hset |].
        intros i Hi. destruct (Z.eq_dec i 0) as [-> | Hne]; [exact Hbit |].
        specialize (Hclear (i - 1)). rewrite Z.shiftr_spec in Hclear by lia.
        replace (i - 1 + 1) with i in Hclear by lia. apply Hclear. lia.
      * intros i Hi. destruct (Z.eq_dec i 0) as [-> | Hne]; [exact Hbit |].
        specialize (IH (i - 1)). rewrite Z.shiftr_spec in IH by lia.
        replace (i - 1 + 1) with i in IH by lia. apply IH. lia.
Qed.

(** What the loop of lines 459-466 finds: the region that the lockout
    names, or none of the seven. *)
Lemma first_region_names (region_lockout : Z) :
  match first_region REGION_COUNT 0 region_lockout with
  | Some region => names_region region_lockout region
  | None => forall i, 0 <= i < 7 -> Z.testbit region_lockout i = false
  end.
Proof.
  pose proof (first_region_spec REGION_COUNT 0 region_lockout) as H.
  unfold names_region.
  destruct (first_region REGION_COUNT 0 region_lockout) as [r |].
  - rewrite Z.sub_0_r in H. exact H.
  - exact H.
Qed.

(** A lockout names at most one region, and none if none of the seven
    bits is set. *)
Lemma region_choice_unique (L : Layout) (smdh_buffer : bytes)
    (c1 c2 : option Z) :
  region_choice L smdh_buffer c1 -> region_choice L smdh_buffer c2 -> c1 = c2.
Proof.
  unfold region_choice, names_region.
  destruct (_ <=? _); [| congruence].
  cbv zeta.
  destruct c1 as [r1 |], c2 as [r2 |]; try reflexivity.
  - intros (Hr1 & Hs1 & Hc1) (Hr2 & Hs2 & Hc2). f_equal.
    destruct (Z.lt_trichotomy r1 r2) as [Hlt | [Heq | Hgt]]; [| exact Heq |].
    + rewrite (Hc2 r1) in Hs1 by lia. discriminate Hs1.
    + rewrite (Hc1 r2) in Hs2 by lia. discriminate Hs2.
  - intros (Hr1 & Hs1 & _) Hnone. rewrite (Hnone r1 Hr1) in Hs1. discriminate Hs1.
  - intros Hnone (Hr2 & Hs2 & _). rewrite (Hnone r2 Hr2) in Hs2. discriminate Hs2.
Qed.

(** ** [Load]: what it returns and the calls it makes *)

Section Load_more.
Context (L : Layout) (E : Env).

Ltac unfold_loader :=
  unfold LoadExeFS, read_headers, read_exefs_header, decrypt_exheader,
    read_into, derive, derive_counters, derive_keys, alternate_slot,
    set_code_romfs_key, set_exefs_key, key_into, load_section.

Lemma LoadExeFS_events (ev : list Event) :
  keeps (fun w => events w = ev) (LoadExeFS L E).
Proof. unfold_loader. keeps_all. Qed.

Lemma same_but_position_members (w w' : World) :
  same_but_position w w' ->
  events w' = events w
  /\ is_loaded (loader w') = is_loaded (loader w)
  /\ is_exefs_loaded (loader w') = is_exefs_loaded (loader w)
  /\ ncch_header (loader w') = ncch_header (loader w)
  /\ exheader_header (loader w') = exheader_header (loader w).
Proof.
  intros (p & ->). destruct w as [[] ? ?]. cbn. repeat split; reflexivity.
Qed.

(** [LoadExec] on a loader with both flags set. *)
Lemma LoadExec_outcome (w : World) :
  is_loaded (loader w) = true ->
  is_exefs_loaded (loader w) = true ->
  match LoadExec L E w with
  | Ret _ w3 =>
      exists code w2,
        same_but_position w w2
        /\ w3 = emit (EvProcessRun (exheader_header (loader w2))
                        (NCCH_Header.program_id (the_ncch_header L w2))
                        (code ++ replicate
                                   (Z.to_nat
                                      (Z.land
                                         (u32 (ExHeader_Header.bss_size
                                                 (the_exheader L w2) + 0xFFF))
                                         0xFFFFF000)) 0)) w2
  | Fail e _ => e = Error
  | Undefined => True
  end.
Proof.
  intros Hl Hx. unfold LoadExec. rewrite Hl. cbn [negb].
  pose proof (LoadSectionExeFS_position L E ".code" w Hx) as H.
  unfold ReadCode.
  destruct (LoadSectionExeFS L E ".code" w) as [code w2 | e w2 |];
    [| reflexivity | exact I].
  exists code, w2. split; [exact H | reflexivity].
Qed.

(** [ParseRegionLockoutInfo] has no status. *)
Lemma ParseRegionLockoutInfo_outcome (w : World) :
  is_exefs_loaded (loader w) = true ->
  match ParseRegionLockoutInfo L E w with
  | Ret _ w' =>
      exists w0,
        same_but_position w w0
        /\ (w' = w0
            \/ exists region,
                 0 <= region < 7
                 /\ w' = emit (EvSetPreferredRegionCode region) w0)
  | Fail _ _ => False
  | Undefined => True
  end.
Proof.
  intros Hx. unfold ParseRegionLockoutInfo.
  pose proof (LoadSectionExeFS_position L E "icon" w Hx) as H.
  unfold ReadIcon.
  destruct (LoadSectionExeFS L E "icon" w) as [buffer w0 | e w0 |];
    [| exists w0; split; [exact H | left; reflexivity] | exact I].
  destruct (_ <=? _); [| exists w0; split; [exact H | left; reflexivity]].
  match goal with |- context [first_region ?n ?r ?v] =>
    pose proof (first_region_spec n r v) as Hr;
      destruct (first_region n r v) as [region |]
  end.
  - exists w0. split; [exact H |]. right. exists region.
    split; [| reflexivity]. unfold REGION_COUNT in Hr. lia.
  - exists w0. split; [exact H | left; reflexivity].
Qed.

(** [ParseRegionLockoutInfo] by what [ReadIcon] delivers. *)
Lemma ParseRegionLockoutInfo_icon (w : World) :
  match ReadIcon L E w with
  | Ret smdh_buffer w1 =>
      exists choice,
        region_choice L smdh_buffer choice
        /\ ParseRegionLockoutInfo L E w
           = Ret tt match choice with
                    | Some region => emit (EvSetPreferredRegionCode region) w1
                    | None => w1
                    end
  | Fail _ w1 => ParseRegionLockoutInfo L E w = Ret tt w1
  | Undefined => ParseRegionLockoutInfo L E w = Undefined
  end.
Proof.
  unfold ParseRegionLockoutInfo, region_choice.
  destruct (ReadIcon L E w) as [smdh_buffer w1 | e w1 |];
    [| reflexivity | reflexivity].
  destruct (_ <=? _); [| exists None; split; reflexivity].
  cbv zeta.
  match goal with |- context [first_region REGION_COUNT 0 ?v] =>
    pose proof (first_region_names v) as Hr;
      destruct (first_region REGION_COUNT 0 v) as [region |]
  end.
  - exists (Some region). split; [exact Hr | reflexivity].
  - exists None. split; [exact Hr | reflexivity].
Qed.

(** The region that [ParseRegionLockoutInfo] sets as preferred is the
    one that the icon names: when [ReadIcon] delivers a whole [SMDH],
    the lowest of the seven regions whose bit is set in its region
    lockout, and that region alone; with none of the seven bits set,
    with a shorter buffer, or when [ReadIcon] fails, no region is set
    and the call returns without a status. *)
Theorem lowest_region_wins (w : World) :
  match ReadIcon L E w with
  | Ret smdh_buffer w1 =>
      (exists choice,
         region_choice L smdh_buffer choice
         /\ ParseRegionLockoutInfo L E w
            = Ret tt match choice with
                     | Some region => emit (EvSetPreferredRegionCode region) w1
                     | None => w1
                     end)
      /\ (forall c1 c2,
            region_choice L smdh_buffer c1 -> region_choice L smdh_buffer c2 ->
            c1 = c2)
  | Fail _ w1 => ParseRegionLockoutInfo L E w = Ret tt w1
  | Undefined => ParseRegionLockoutInfo L E w = Undefined
  end.
Proof.
  pose proof (ParseRegionLockoutInfo_icon w) as H.
  destruct (ReadIcon L E w) as [smdh_buffer w1 | e w1 |]; [| exact H | exact H].
  split; [exact H | apply region_choice_unique].
Qed.

Lemma ParseRegionLockoutInfo_never_fails (w : World) (e : ResultStatus) (w' : World) :
  ParseRegionLockoutInfo L E w <> Fail e w'.
Proof.
  unfold ParseRegionLockoutInfo.
  destruct (ReadIcon L E w); [| discriminate | discriminate].
  destruct (_ <=? _); [| discriminate].
  destruct (first_region _ _ _); discriminate.
Qed.

Lemma Load_fails_in_LoadExeFS (w w1 : World) (e : ResultStatus) :
  is_loaded (loader w) = false ->
  LoadExeFS L E w = Fail e w1 ->
  Load L E w = Fail e w1.
Proof.
  intros Hl H1. unfold Load, bind, get, modify. rewrite Hl, H1. reflexivity.
Qed.

Lemma Load_undefined_in_LoadExeFS (w : World) :
  is_loaded (loader w) = false ->
  LoadExeFS L E w = Undefined ->
  Load L E w = Undefined.
Proof.
  intros Hl H1. unfold Load, bind, get, modify. rewrite Hl, H1. reflexivity.
Qed.

(** When [LoadExeFS] fails, [Load] returns its status at once: the
    loader is not marked as loaded, and nothing is reported or
    created. *)
Theorem Load_stops_at_LoadExeFS (w w1 : World) (e : ResultStatus) :
  is_loaded (loader w) = false ->
  LoadExeFS L E w = Fail e w1 ->
  Load L E w = Fail e w1
  /\ is_loaded (loader w1) = false
  /\ events w1 = events w.
Proof.
  intros Hl H1. split; [exact (Load_fails_in_LoadExeFS w w1 e Hl H1) |].
  split.
  - pose proof (LoadExeFS_loaded_is L E false w Hl) as H.
    rewrite H1 in H. exact H.
  - pose proof (LoadExeFS_events (events w) w eq_refl) as H.
    rewrite H1 in H. exact H.
Qed.

(** The statuses of [Load]: [ErrorAlreadyLoaded], those of [LoadExeFS],
    and [Error] from [LoadExec]; never [ErrorNotLoaded], and never a
    status of the icon. *)
Theorem Load_statuses :
  fails_with (fun e => e = ErrorAlreadyLoaded \/ load_exefs_status e) (Load L E).
Proof.
  intros w. destruct (Load L E w) as [a w' | e w' |] eqn:H; try exact I.
  destruct (is_loaded (loader w)) eqn:Hl.
  { rewrite (Load_again L E w Hl) in H. injection H as <- _. left. reflexivity. }
  right.
  destruct (LoadExeFS L E w) as [[] w1 | e1 w1 |] eqn:H1.
  - pose proof (LoadExeFS_sets_flag L E w w1 H1) as Hx.
    rewrite (Load_unfold L E w w1 Hl H1) in H. cbv zeta in H.
    match type of H with context [LoadExec L E ?w2] =>
      assert (Hl2 : is_loaded (loader w2) = true)
        by (destruct w1 as [[] ? ?]; reflexivity);
      assert (Hx2 : is_exefs_loaded (loader w2) = true)
        by (destruct w1 as [[] ? ?]; exact Hx);
      pose proof (LoadExec_outcome w2 Hl2 Hx2) as H2;
      destruct (LoadExec L E w2) as [[] w3 | e3 w3 |]
    end.
    + exfalso. exact (ParseRegionLockoutInfo_never_fails _ _ _ H).
    + injection H as <- _. left. exact H2.
    + discriminate H.
  - rewrite (Load_fails_in_LoadExeFS w w1 e1 Hl H1) in H. injection H as <- _.
    pose proof (LoadExeFS_fails_with L E w) as Hs. rewrite H1 in Hs. exact Hs.
  - rewrite (Load_undefined_in_LoadExeFS w Hl H1) in H. discriminate H.
Qed.

(** A successful [Load] leaves both flags set and has made, in this
    order, exactly these calls: the program identifier of the partition
    header to the telemetry, the process run from the extended header
    with the same identifier, the archive type registered, and then the
    preferred region that the icon names, as [ReadIcon] delivers it
    after the registration: that call is made exactly when the icon
    names a region, and with that region. *)
Theorem Load_success (w w' : World) :
  Load L E w = Ret tt w' ->
  is_loaded (loader w') = true
  /\ is_exefs_loaded (loader w') = true
  /\ exists w1 w3 memory tail,
       LoadExeFS L E w = Ret tt w1
       /\ LoadExec L E
            (on_loader (set_is_loaded true)
               (emit (EvTelemetryProgramId
                        (NCCH_Header.program_id (the_ncch_header L w1))) w1))
          = Ret tt w3
       /\ events w'
          = events w
            ++ [EvTelemetryProgramId
                  (NCCH_Header.program_id (the_ncch_header L w'));
                EvProcessRun (exheader_header (loader w'))
                  (NCCH_Header.program_id (the_ncch_header L w')) memory;
                EvRegisterArchiveType]
            ++ tail
       /\ match ReadIcon L E (emit EvRegisterArchiveType w3) with
          | Ret smdh_buffer _ =>
              exists choice,
                region_choice L smdh_buffer choice
                /\ tail = match choice with
                          | Some region => [EvSetPreferredRegionCode region]
                          | None => []
                          end
          | Fail _ _ => tail = []
          | Undefined => False
          end.
Proof.
  intros H.
  destruct (is_loaded (loader w)) eqn:Hl.
  { rewrite (Load_again L E w Hl) in H. discriminate H. }
  destruct (LoadExeFS L E w) as [[] w1 | e1 w1 |] eqn:H1;
    [| rewrite (Load_fails_in_LoadExeFS w w1 e1 Hl H1) in H; discriminate H
     | rewrite (Load_undefined_in_LoadExeFS w Hl H1) in H; discriminate H].
  pose proof (LoadExeFS_sets_flag L E w w1 H1) as Hx.
  pose proof (LoadExeFS_events (events w) w eq_refl) as Hev.
  rewrite H1 in Hev.
  rewrite (Load_unfold L E w w1 Hl H1) in H. cbv zeta in H.
  remember (on_loader (set_is_loaded true)
              (emit (EvTelemetryProgramId
                       (NCCH_Header.program_id (the_ncch_header L w1))) w1))
    as w2 eqn:Hw2.
  assert (Hl2 : is_loaded (loader w2) = true)
    by (subst w2; destruct w1 as [[] ? ?]; reflexivity).
  assert (Hx2 : is_exefs_loaded (loader w2) = true)
    by (subst w2; destruct w1 as [[] ? ?]; exact Hx).
  assert (Hn2 : ncch_header (loader w2) = ncch_header (loader w1))
    by (subst w2; destruct w1 as [[] ? ?]; reflexivity).
  assert (Hev2 : events w2
                 = events w
                   ++ [EvTelemetryProgramId
                         (NCCH_Header.program_id (the_ncch_header L w1))])
    by (subst w2; rewrite <- Hev; destruct w1 as [[] ? ?]; reflexivity).
  pose proof (LoadExec_outcome w2 Hl2 Hx2) as H2.
  destruct (LoadExec L E w2) as [[] w3 | e3 w3 |] eqn:Hexec;
    [| discriminate H | discriminate H].
  destruct H2 as (code & w2' & Hpos2 & Hw3).
  apply same_but_position_members in Hpos2 as (He2 & Hl2' & Hx2' & Hn2' & _).
  remember (emit EvRegisterArchiveType w3) as w4 eqn:Hw4.
  assert (Hx4 : is_exefs_loaded (loader w4) = true)
    by (subst w4 w3; cbn [emit loader]; congruence).
  assert (Hl4 : is_loaded (loader w4) = true)
    by (subst w4 w3; cbn [emit loader]; congruence).
  assert (Hn4 : ncch_header (loader w4) = ncch_header (loader w1))
    by (subst w4 w3; cbn [emit loader]; congruence).
  assert (Hh4 : exheader_header (loader w4) = exheader_header (loader w2'))
    by (subst w4 w3; reflexivity).
  assert (Hev4 : exists memory,
             events w4
             = events w
               ++ [EvTelemetryProgramId
                     (NCCH_Header.program_id (the_ncch_header L w1));
                   EvProcessRun (exheader_header (loader w2'))
                     (NCCH_Header.program_id (the_ncch_header L w1)) memory;
                   EvRegisterArchiveType]).
  { eexists. subst w4 w3. cbn [emit events]. rewrite He2, Hev2.
    unfold the_ncch_header. rewrite Hn2', Hn2.
    rewrite <- !app_assoc. reflexivity. }
  destruct Hev4 as (memory & Hev4).
  pose proof (ParseRegionLockoutInfo_icon w4) as Hicon.
  pose proof (LoadSectionExeFS_position L E "icon" w4 Hx4) as Hpos4.
  unfold ReadIcon in Hicon.
  assert (Hgoal :
    forall w5 tail,
      same_but_position w4 w5 ->
      w' = {| loader := loader w5; keys := keys w5; events := events w5 ++ tail |} ->
      is_loaded (loader w') = true
      /\ is_exefs_loaded (loader w') = true
      /\ events w'
         = events w
           ++ [EvTelemetryProgramId
                 (NCCH_Header.program_id (the_ncch_header L w'));
               EvProcessRun (exheader_header (loader w'))
                 (NCCH_Header.program_id (the_ncch_header L w')) memory;
               EvRegisterArchiveType]
           ++ tail).
  { intros w5 tail Hpos5 ->.
    apply same_but_position_members in Hpos5 as (He5 & Hl5 & Hx5 & Hn5 & Hh5).
    unfold the_ncch_header. cbn [loader events].
    rewrite Hl5, Hx5, Hn5, Hh5, He5, Hev4, Hn4, Hh4.
    unfold the_ncch_header.
    split; [exact Hl4 |]. split; [exact Hx4 |].
    rewrite <- !app_assoc. reflexivity. }
  destruct (LoadSectionExeFS L E "icon" w4) as [smdh_buffer w5 | e5 w5 |] eqn:Hread.
  - destruct Hicon as (choice & Hchoice & HP). rewrite HP in H.
    injection H as <-.
    destruct (Hgoal w5 match choice with
                       | Some region => [EvSetPreferredRegionCode region]
                       | None => []
                       end Hpos4) as (Ha & Hb & Hc).
    { destruct choice; [reflexivity |].
      destruct w5 as [? ? ?]. cbn [loader keys events]. rewrite app_nil_r.
      reflexivity. }
    split; [exact Ha |]. split; [exact Hb |].
    exists w1, w3, memory,
      match choice with
      | Some region => [EvSetPreferredRegionCode region]
      | None => []
      end.
    split; [reflexivity |]. split; [rewrite <- Hw2; exact Hexec |].
    split; [exact Hc |].
    rewrite <- Hw4. unfold ReadIcon. rewrite Hread.
    exists choice. split; [exact Hchoice | reflexivity].
  - rewrite Hicon in H. injection H as <-.
    destruct (Hgoal w5 [] Hpos4) as (Ha & Hb & Hc).
    { destruct w5 as [? ? ?]. cbn [loader keys events]. rewrite app_nil_r.
      reflexivity. }
    split; [exact Ha |]. split; [exact Hb |].
    exists w1, w3, memory, [].
    split; [reflexivity |]. split; [rewrite <- Hw2; exact Hexec |].
    split; [exact Hc |].
    rewrite <- Hw4. unfold ReadIcon. rewrite Hread. reflexivity.
  - rewrite Hicon in H. discriminate H.
Qed.

End Load_more.

Lemma Load_stops_at_LoadExeFS_witness :
  match LoadExeFS container_layout two_slots (fresh_world garbled_cxi) with
  | Fail e w1 =>
      Load container_layout two_slots (fresh_world garbled_cxi) = Fail e w1
      /\ events w1 = []
  | _ => False
  end.
Proof.
  destruct (LoadExeFS container_layout two_slots (fresh_world garbled_cxi))
    as [[] w1 | e w1 |] eqn:H1;
    [vm_compute in H1; discriminate H1 | | vm_compute in H1; discriminate H1].
  destruct (Load_stops_at_LoadExeFS container_layout two_slots
              (fresh_world garbled_cxi) w1 e eq_refl H1) as (Hload & _ & Hev).
  split; [exact Hload | exact Hev].
Defined.

Lemma Load_success_witness :
  match Load container_layout two_slots (fresh_world (cxi_with_icon 0x4C)) with
  | Ret _ w' =>
      is_loaded (loader w') = true
      /\ is_exefs_loaded (loader w') = true
      /\ (exists memory tail,
            events w'
            = [EvTelemetryProgramId 1;
               EvProcessRun (exheader_header (loader w')) 1 memory;
               EvRegisterArchiveType] ++ tail)
      /\ last (events w') = Some (EvSetPreferredRegionCode 2)
  | _ => False
  end.
Proof.
  destruct (Load container_layout two_slots (fresh_world (cxi_with_icon 0x4C)))
    as [[] w' | e w' |] eqn:H;
    [| vm_compute in H; discriminate H | vm_compute in H; discriminate H].
  destruct (Load_success container_layout two_slots _ _ H)
    as (Hl & Hx & w1 & w3 & memory & tail & _ & _ & Hev & _).
  split; [exact Hl |]. split; [exact Hx |].
  split.
  - exists memory, tail. rewrite Hev.
    vm_compute in H. injection H as <-. reflexivity.
  - vm_compute in H. injection H as <-. reflexivity.
Defined.

(** ** [LoadExec]: the memory of the process *)

Lemma land_page (x : Z) :
  0 <= x < 2 ^ 32 -> Z.land x 0xFFFFF000 = 0x1000 * (x / 0x1000).
Proof.
  intros Hx.
  change 0xFFFFF000 with (Z.land (Z.lnot (Z.ones 12)) (Z.ones 32)).
  rewrite (Z.land_comm (Z.lnot (Z.ones 12))), Z.land_assoc.
  rewrite Z.land_ones by lia. rewrite (Z.mod_small x) by lia.
  rewrite <- Z.ldiff_land, Z.ldiff_ones_r by lia.
  rewrite Z.shiftl_mul_pow2, Z.shiftr_div_pow2 by lia.
  change (2 ^ 12) with 0x1000. lia.
Qed.

Section LoadExec_more.
Context (L : Layout) (E : Env).

(** [LoadExec] on a loader with both flags set runs the process on the
    code followed by the bss, whose size is that of the extended header
    rounded up to whole pages of 0x1000 bytes in 32 bits: a size above
    0xFFFFF000 gives no bss at all. *)
Theorem LoadExec_bss (w w3 : World) :
  is_loaded (loader w) = true ->
  is_exefs_loaded (loader w) = true ->
  LoadExec L E w = Ret tt w3 ->
  let bss := ExHeader_Header.bss_size (the_exheader L w) in
  exists code w2 pages,
    ReadCode L E w = Ret code w2
    /\ events w3
       = events w
         ++ [EvProcessRun (exheader_header (loader w))
               (NCCH_Header.program_id (the_ncch_header L w))
               (code ++ replicate (Z.to_nat pages) 0)]
    /\ pages mod 0x1000 = 0
    /\ (0 <= bss <= 0xFFFFF000 -> bss <= pages < bss + 0x1000)
    /\ (0xFFFFF000 < bss < 2 ^ 32 -> pages = 0).
Proof.
  intros Hl Hx H bss. unfold LoadExec in H. rewrite Hl in H. cbn [negb] in H.
  pose proof (LoadSectionExeFS_position L E ".code" w Hx) as Hpos.
  unfold ReadCode in *.
  destruct (LoadSectionExeFS L E ".code" w) as [code w2 | e w2 |];
    [| discriminate H | discriminate H].
  apply same_but_position_members in Hpos as (Hev & _ & _ & Hn & Hh).
  injection H as <-.
  unfold the_exheader, the_ncch_header. rewrite Hn, Hh.
  fold (the_exheader L w). fold bss.
  exists code, w2, (Z.land (u32 (bss + 0xFFF)) 0xFFFFF000).
  split; [reflexivity |].
  split; [cbn [emit events]; rewrite Hev; reflexivity |].
  assert (Hu : 0 <= u32 (bss + 0xFFF) < 2 ^ 32)
    by (unfold u32; apply Z.mod_pos_bound; lia).
  rewrite (land_page _ Hu).
  split; [rewrite Z.mul_comm; apply Z.mod_mul; lia |].
  split.
  - intros Hb. unfold u32 in *. rewrite Z.mod_small by lia.
    Z.div_mod_to_equations. lia.
  - intros Hb. unfold u32 in *.
    replace ((bss + 0xFFF) mod 2 ^ 32) with (bss + 0xFFF - 2 ^ 32).
    + Z.div_mod_to_equations. lia.
    + apply Z.mod_unique with (q := 1); lia.
Qed.

End LoadExec_more.

Lemma LoadExec_bss_witness :
  match LoadExec container_layout two_slots (loaded_with_bss 1 0 0 0) with
  | Ret _ w3 =>
      events w3
      = [EvProcessRun (copy_at [1; 0; 0; 0] 0x3C (exheader_bytes 1)) 0
           (some_code ++ replicate (Z.to_nat 0x1000) 0)]
  | _ => False
  end
  /\ match LoadExec container_layout two_slots
             (loaded_with_bss 0x01 0xF0 0xFF 0xFF) with
     | Ret _ w3 =>
         events w3
         = [EvProcessRun (copy_at [0x01; 0xF0; 0xFF; 0xFF] 0x3C (exheader_bytes 1))
              0 some_code]
     | _ => False
     end.
Proof.
  split.
  - destruct (LoadExec container_layout two_slots (loaded_with_bss 1 0 0 0))
      as [[] w3 | e w3 |] eqn:H;
      [| vm_compute in H; discriminate H | vm_compute in H; discriminate H].
    destruct (LoadExec_bss container_layout two_slots
                (loaded_with_bss 1 0 0 0) w3 eq_refl eq_refl H)
      as (code & w2 & pages & Hcode & Hev & Hmod & Hlow & _).
    assert (Hc : code = some_code)
      by (vm_compute in Hcode; injection Hcode as <- _; reflexivity).
    assert (Hp : pages = 0x1000).
    { assert (1 <= pages < 1 + 0x1000) as Hr by (apply Hlow; vm_compute; split; discriminate).
      Z.div_mod_to_equations. lia. }
    rewrite Hev, Hc, Hp. reflexivity.
  - destruct (LoadExec container_layout two_slots
                (loaded_with_bss 0x01 0xF0 0xFF 0xFF))
      as [[] w3 | e w3 |] eqn:H;
      [| vm_compute in H; discriminate H | vm_compute in H; discriminate H].
    destruct (LoadExec_bss container_layout two_slots
                (loaded_with_bss 0x01 0xF0 0xFF 0xFF) w3 eq_refl eq_refl H)
      as (code & w2 & pages & Hcode & Hev & _ & _ & Hhigh).
    assert (Hc : code = some_code)
      by (vm_compute in Hcode; injection Hcode as <- _; reflexivity).
    assert (Hp : pages = 0) by (apply Hhigh; vm_compute; split; reflexivity).
    rewrite Hev, Hc, Hp. vm_compute. reflexivity.
Defined.

(** ** [ReadRomFS]: the region handed out *)

Section ReadRomFS_more.
Context (L : Layout) (E : Env).

(** The offset and the size that [ReadRomFS] hands out are 32-bit
    values; the region they describe ends inside the file whenever its
    end, offset plus size, is below 2^32: the test of line 543 compares
    the sum reduced to 32 bits with the size of the file. *)
Theorem ReadRomFS_region (w w' : World) (offset size : Z) :
  ReadRomFS L E w = Ret (offset, size) w' ->
  0 <= offset < 2 ^ 32
  /\ 0 <= size < 2 ^ 32
  /\ u32 (offset + size) <= GetSize (file (loader w))
  /\ (offset + size < 2 ^ 32 -> offset + size <= GetSize (file (loader w))).
Proof.
  unfold ReadRomFS. rewrite bind_get.
  destruct (negb (IsOpen _)); [discriminate |].
  destruct (_ && _); [| discriminate].
  match goal with |- context [GetSize ?f <? ?x] =>
    destruct (Z.ltb_spec (GetSize f) x) as [| Hfit]; [discriminate |]
  end.
  destruct (negb (reopen_ok E)); [discriminate |].
  intros [= <- <- <-].
  assert (Hu : forall z, 0 <= u32 z < 2 ^ 32)
    by (intros z; unfold u32; apply Z.mod_pos_bound; lia).
  split; [apply Hu |]. split; [apply Hu |]. split; [exact Hfit |].
  intros Hsum. unfold u32 at 1 in Hfit.
  rewrite Z.mod_small in Hfit; [exact Hfit |].
  split; [| exact Hsum].
  match goal with |- 0 <= u32 ?a + u32 ?b =>
    pose proof (Hu a); pose proof (Hu b); lia
  end.
Qed.

(** A RomFS of fewer than eight blocks is shorter than the 0x1000 bytes
    that [ReadRomFS] skips: the size handed out is the difference in 32
    bits, above 0xFFFFF000, and the test of the end of the region is
    made on a sum that has wrapped. *)
Theorem ReadRomFS_short_romfs (w : World) :
  let l := loader w in
  let h := the_ncch_header L w in
  let offset :=
    u32 (u32 (ncch_offset l + u32 (NCCH_Header.romfs_offset h * kBlockSize))
         + 0x1000) in
  let size := 2 ^ 32 - 0x1000 + NCCH_Header.romfs_size h * kBlockSize in
  IsOpen (file l) = true ->
  reopen_ok E = true ->
  NCCH_Header.romfs_offset h <> 0 ->
  0 < NCCH_Header.romfs_size h < 8 ->
  u32 (offset + size) <= GetSize (file l) ->
  ReadRomFS L E w = Ret (offset, size) w /\ 0xFFFFF000 < size < 2 ^ 32.
Proof.
  intros l h offset size Hopen Hre Hoff Hsize Hfit.
  assert (Hs : u32 (u32 (NCCH_Header.romfs_size h * kBlockSize) - 0x1000) = size).
  { subst size. unfold u32, kBlockSize in *.
    rewrite (Z.mod_small (_ * _)) by lia.
    symmetry. apply Z.mod_unique with (q := -1); lia. }
  split; [| subst size; unfold kBlockSize; lia].
  unfold ReadRomFS. rewrite bind_get. fold l. fold h.
  rewrite Hopen, Hre. cbn [negb].
  rewrite (negb_eqb_true _ _ Hoff).
  rewrite (negb_eqb_true (NCCH_Header.romfs_size h) 0) by lia.
  cbn [andb]. fold offset. rewrite Hs.
  destruct (Z.ltb_spec (GetSize (file l)) (u32 (offset + size))); [lia |].
  reflexivity.
Qed.

End ReadRomFS_more.

Lemma ReadRomFS_region_witness :
  match LoadExeFS container_layout two_slots (fresh_world romfs_only) with
  | Fail _ w =>
      match ReadRomFS container_layout two_slots w with
      | Ret (offset, size) _ => offset + size <= 0x1E00
      | _ => False
      end
  | _ => False
  end.
Proof.
  destruct (LoadExeFS container_layout two_slots (fresh_world romfs_only))
    as [[] w | e w |] eqn:H1;
    [vm_compute in H1; discriminate H1 | | vm_compute in H1; discriminate H1].
  destruct (ReadRomFS container_layout two_slots w) as [[offset size] w' | e' w' |] eqn:H2.
  - destruct (ReadRomFS_region container_layout two_slots w w' offset size H2)
      as (_ & _ & _ & Hend).
    computed H1. vm_compute in H2. injection H2 as <- <- _.
    apply Hend. reflexivity.
  - computed H1. vm_compute in H2. discriminate H2.
  - computed H1. vm_compute in H2. discriminate H2.
Defined.

Lemma ReadRomFS_short_romfs_witness :
  ReadRomFS container_layout two_slots short_romfs
  = Ret (0x2000, 0xFFFFF200) short_romfs.
Proof.
  apply (ReadRomFS_short_romfs container_layout two_slots short_romfs).
  - reflexivity.
  - reflexivity.
  - vm_compute. intros Hx. discriminate Hx.
  - vm_compute. split; reflexivity.
  - vm_compute. intros Hx. discriminate Hx.
Defined.

(** ** The counter of version 1 *)

(** The four bytes that [u32ToBEArray] makes of a 32-bit value are
    bytes, and read from the last to the first they are the value: the
    array is its big-endian form. *)
Theorem u32ToBEArray_round_trip (value : Z) :
  0 <= value < 2 ^ 32 ->
  Forall is_byte (u32ToBEArray value)
  /\ read_u32 (rev (u32ToBEArray value)) 0 = Some value.
Proof.
  intros Hv. rewrite (u32ToBEArray_be32 value Hv).
  destruct (be32_value value Hv) as [Hbytes Hsum].
  split; [exact Hbytes |].
  unfold be32 in *. cbn [rev app].
  inversion Hbytes as [| b3 ? H3 Hr3]; subst.
  inversion Hr3 as [| b2 ? H2 Hr2]; subst.
  inversion Hr2 as [| b1 ? H1 Hr1]; subst.
  inversion Hr1 as [| b0 ? H0 _]; subst.
  rewrite (read_u32_le32
             [value mod 256; value / 2 ^ 8 mod 256; value / 2 ^ 16 mod 256;
              value / 2 ^ 24 mod 256] 0
             (value mod 256) (value / 2 ^ 8 mod 256) (value / 2 ^ 16 mod 256)
             (value / 2 ^ 24 mod 256)
             eq_refl eq_refl eq_refl eq_refl H0 H1 H2 H3).
  f_equal. unfold le32. lia.
Qed.

Lemma u32ToBEArray_round_trip_witness :
  read_u32 (rev (u32ToBEArray 0x12345678)) 0 = Some 0x12345678.
Proof.
  apply (proj2 (u32ToBEArray_round_trip 0x12345678 ltac:(lia))).
Defined.

(** ** [LoadKernelSystemMode], [ReadProgramId] and [IdentifyType] *)

Section Callers.
Context (L : Layout) (E : Env).

Ltac unfold_loader :=
  unfold LoadExeFS, read_headers, read_exefs_header, decrypt_exheader,
    read_into, derive, derive_counters, derive_keys, alternate_slot,
    set_code_romfs_key, set_exefs_key, key_into, load_section.

(** [LoadKernelSystemMode] has a system mode exactly when its status is
    [Success], and then it is the one of the extended header the loader
    holds; when the call had to load the ExeFS, that header carries the
    program identifier of the partition header.  Without a mode, the
    status is one of [LoadExeFS] and both flags are clear. *)
Theorem LoadKernelSystemMode_outcome (system_mode : bytes -> Z) (w : World) :
  match LoadKernelSystemMode L E system_mode w with
  | Ret (Some mode, res) w' =>
      res = Success
      /\ mode = system_mode (exheader_header (loader w'))
      /\ (is_loaded (loader w) = true -> w' = w)
      /\ (is_loaded (loader w) = false ->
          is_exefs_loaded (loader w') = true
          /\ (is_exefs_loaded (loader w) = false -> ids_agree L w'))
  | Ret (None, res) w' =>
      load_exefs_status res
      /\ is_loaded (loader w') = false
      /\ is_exefs_loaded (loader w') = false
  | Fail _ _ => False
  | Undefined => True
  end.
Proof.
  unfold LoadKernelSystemMode.
  destruct (is_loaded (loader w)) eqn:Hl; cbn [negb].
  - split; [reflexivity |]. split; [reflexivity |].
    split; [reflexivity | intros Hx; discriminate Hx].
  - destruct (LoadExeFS L E w) as [[] w' | e w' |] eqn:H1; [| | exact I].
    + split; [reflexivity |]. split; [reflexivity |].
      split; [intros Hx; discriminate Hx |].
      intros _. split; [exact (LoadExeFS_sets_flag L E w w' H1) |].
      intros Hx. exact (proj1 (LoadExeFS_Ret L E w w' Hx H1)).
    + destruct (LoadExeFS_Fail L E w w' e H1) as (Hs & _ & Hx & Hl').
      split; [exact Hs |]. split; [congruence | exact Hx].
Qed.


Lemma rd_overlay (data old : bytes) (n : nat) (i : Z) :
  0 <= i < Z.of_nat n ->
  length (take n data) = n ->
  rd (overlay (take n data) old) i = rd data i.
Proof.
  intros Hi Hlen. unfold rd, overlay.
  destruct (Z.leb_spec 0 i) as [_ | ?]; [| lia].
  rewrite lookup_app_l by (rewrite Hlen; lia).
  apply lookup_take_lt. lia.
Qed.

Lemma read_u32_overlay (data old : bytes) (n : nat) (i : Z) :
  0 <= i -> i + 4 <= Z.of_nat n ->
  length (take n data) = n ->
  read_u32 (overlay (take n data) old) i = read_u32 data i.
Proof.
  intros Hi Hn Hlen. unfold read_u32.
  rewrite !(rd_overlay data old n) by (assumption || lia). reflexivity.
Qed.

Lemma rd_window (data : bytes) (j : Z) :
  0 <= j < 4 ->
  rd (take 4 (drop (Z.to_nat 0x100) data)) j = rd data (0x100 + j).
Proof.
  intros Hj. unfold rd.
  destruct (Z.leb_spec 0 j) as [_ | ?]; [| lia].
  destruct (Z.leb_spec 0 (0x100 + j)) as [_ | ?]; [| lia].
  rewrite lookup_take_lt by lia. rewrite lookup_drop. f_equal. lia.
Qed.

Lemma read_u32_window (data : bytes) :
  read_u32 (take 4 (drop (Z.to_nat 0x100) data)) 0 = read_u32 data 0x100.
Proof.
  unfold read_u32. rewrite !rd_window by lia.
  rewrite Z.add_0_r. change (0 + 1) with 1. change (0 + 2) with 2.
  change (0 + 3) with 3. reflexivity.
Qed.

Lemma read_u32_in_range (data : bytes) (i : Z) :
  0 <= i -> i + 4 <= Z.of_nat (length data) -> exists v, read_u32 data i = Some v.
Proof.
  intros Hi Hlen. unfold read_u32.
  destruct (rd_in_range data i) as [b0 ->]; [lia |].
  destruct (rd_in_range data (i + 1)) as [b1 ->]; [lia |].
  destruct (rd_in_range data (i + 2)) as [b2 ->]; [lia |].
  destruct (rd_in_range data (i + 3)) as [b3 ->]; [lia |].
  eexists. reflexivity.
Qed.

(** With a whole header whose magic number is that of a partition,
    [LoadExeFS] gets past the test of the format. *)
Lemma LoadExeFS_accepts_magic (w : World) :
  let data := content (file (loader w)) in
  let sz := sizeof_NCCH_Header L in
  let first := overlay (take (Z.to_nat sz) data) (ncch_header (loader w)) in
  is_exefs_loaded (loader w) = false ->
  IsOpen (file (loader w)) = true ->
  Z.of_nat (length (take (Z.to_nat sz) data)) = sz ->
  NCCH_Header.magic (as_NCCH_Header L first) <> magic_NCSD L ->
  NCCH_Header.magic (as_NCCH_Header L first) = magic_NCCH L ->
  status (LoadExeFS L E w) <> Some ErrorInvalidFormat.
Proof.
  intros data sz first Hflag Hopen Hlen Hncsd Hncch. subst first data sz.
  destruct w as [[[op data0 p] ? ? ? hd ? ? ? ? ? ? ?] ks ev]. members.
  match goal with |- context [LoadExeFS L E ?w0] =>
    remember (LoadExeFS L E w0) as o eqn:Ho
  end.
  unfold LoadExeFS in Ho. exec_in Ho @bind_get. rewrite Hflag in Ho.
  unfold read_headers in Ho. exec_in Ho @bind_get.
  rewrite Hopen in Ho. cbn [negb] in Ho.
  exec_in Ho @bind_Seek.
  unfold read_into at 1 in Ho. exec_in Ho @bind_ReadBytes. cbv zeta in Ho.
  change (0 <? 0) with false in Ho. cbv iota in Ho.
  change (Z.to_nat 0) with 0%nat in Ho. rewrite drop_0 in Ho.
  exec_in Ho @bind_modify. exec_in Ho @bind_ret.
  rewrite Hlen, Z.eqb_refl in Ho. cbn [negb] in Ho.
  exec_in Ho @bind_get.
  apply not_eq_sym, Z.eqb_neq in Hncsd. rewrite Hncsd in Ho.
  exec_in Ho @bind_ret. exec_in Ho @bind_get.
  rewrite Hncch, Z.eqb_refl in Ho. cbn [negb] in Ho.
  rewrite ?bind_assoc in Ho.
  match type of Ho with _ = ?m ?w1 =>
    assert (Hf : fails_with not_a_format_error m)
      by (unfold_loader; fails_all; discriminate);
    specialize (Hf w1); rewrite <- Ho in Hf
  end.
  destruct o as [a w' | e w' |]; simpl; try discriminate.
  intros [= ->]. apply Hf. reflexivity.
Qed.

(** [IdentifyType] and [LoadExeFS] look at the same four bytes, when the
    magic number of the partition header lies at its byte 0x100: a file
    that [IdentifyType] takes for a partition is not turned down by
    [LoadExeFS] for its format, and a file it takes for neither a
    partition nor a disc container is turned down, with [Error] or
    [ErrorInvalidFormat]. *)
Theorem IdentifyType_and_LoadExeFS (w : World) :
  let f := file (loader w) in
  let sz := sizeof_NCCH_Header L in
  let first := overlay (take (Z.to_nat sz) (content f)) (ncch_header (loader w)) in
  0x104 <= sz ->
  (forall magic,
     read_u32 first 0x100 = Some magic ->
     NCCH_Header.magic (as_NCCH_Header L first) = magic) ->
  is_exefs_loaded (loader w) = false ->
  match fst (IdentifyType L f) with
  | FileType_Error =>
      status (LoadExeFS L E w) = Some Error
      \/ status (LoadExeFS L E w) = Some ErrorInvalidFormat
  | FileType_CXI => status (LoadExeFS L E w) <> Some ErrorInvalidFormat
  | FileType_CCI => True
  end.
Proof.
  intros f sz first Hsz Hmagic Hflag.
  destruct (LoadExeFS_first_header L E w Hflag) as [Hclosed Hopened].
  pose proof (LoadExeFS_accepts_magic w Hflag) as Haccepts.
  cbv zeta in Hopened, Haccepts. fold f sz first in Hopened, Haccepts.
  unfold IdentifyType. fold f.
  destruct (IsOpen f) eqn:Hopen; cbn [negb];
    [| cbn [fst]; left; rewrite (Hclosed Hopen); reflexivity].
  destruct (Hopened eq_refl) as [Hshort Hwhole].
  specialize (Haccepts eq_refl).
  destruct (Z.eq_dec (Z.of_nat (length (take (Z.to_nat sz) (content f)))) sz)
    as [Hlen | Hlen].
  2:{ rewrite (Hshort Hlen).
      destruct (read_u32 _ 0) as [magic |]; cbn [fst]; [| left; reflexivity].
      destruct (_ =? _); [exact I |].
      destruct (_ =? _); cbn [fst]; [discriminate | left; reflexivity]. }
  assert (Hnat : length (take (Z.to_nat sz) (content f)) = Z.to_nat sz) by lia.
  assert (Hsame : read_u32 first 0x100 = read_u32 (content f) 0x100).
  { subst first. apply read_u32_overlay; [lia | lia | exact Hnat]. }
  rewrite read_u32_window.
  destruct (read_u32_in_range (content f) 0x100) as [magic Hread]; [lia | |].
  { rewrite length_take in Hnat. lia. }
  rewrite Hread. rewrite Hread in Hsame.
  specialize (Hmagic magic Hsame).
  destruct (Z.eqb_spec (magic_NCSD L) magic) as [| Hncsd]; [exact I |].
  destruct (Z.eqb_spec (magic_NCCH L) magic) as [Hncch | Hncch]; cbn [fst].
  - apply (Haccepts Hlen); congruence.
  - right. apply (Hwhole Hlen); congruence.
Qed.

End Callers.

Lemma IdentifyType_and_LoadExeFS_witness :
  fst (IdentifyType container_layout (file (loader (fresh_world garbled_cxi))))
  = FileType_CXI
  /\ status (LoadExeFS container_layout two_slots (fresh_world garbled_cxi))
     <> Some ErrorInvalidFormat.
Proof.
  split; [vm_compute; reflexivity |].
  pose proof (IdentifyType_and_LoadExeFS container_layout two_slots
                (fresh_world garbled_cxi)) as H.
  cbv zeta in H.
  assert (Hsz : 0x104 <= sizeof_NCCH_Header container_layout)
    by (vm_compute; intros Hx; discriminate Hx).
  specialize (H Hsz).
  assert (Hmagic : forall magic,
             read_u32
               (overlay
                  (take (Z.to_nat (sizeof_NCCH_Header container_layout))
                     (content (file (loader (fresh_world garbled_cxi)))))
                  (ncch_header (loader (fresh_world garbled_cxi)))) 0x100
             = Some magic ->
             NCCH_Header.magic
               (as_NCCH_Header container_layout
                  (overlay
                     (take (Z.to_nat (sizeof_NCCH_Header container_layout))
                        (content (file (loader (fresh_world garbled_cxi)))))
                     (ncch_header (loader (fresh_world garbled_cxi)))))
             = magic).
  { intros magic Hm. vm_compute in Hm. injection Hm as <-. vm_compute. reflexivity. }
  specialize (H Hmagic eq_refl).
  replace (fst (IdentifyType container_layout
                  (file (loader (fresh_world garbled_cxi)))))
    with FileType_CXI in H by (vm_compute; reflexivity).
  exact H.
Defined.

(** ** The decompressor as [LoadSectionExeFS] calls it *)

(** The two loops of the decompressor end: a run from the [while] test
    halts within [11 * length compressed + 2] steps, more steps change
    nothing, and what it halts with is the result of
    [LZSS_Decompress]. *)
Theorem decompress_terminates
    (compressed : bytes) (compressed_size decompressed_size stop_index : Z)
    (st0 : lz_state) (steps : nat) :
  lz_init compressed compressed_size decompressed_size = Some (stop_index, st0) ->
  (11 * length compressed + 2 <= steps)%nat ->
  lz_run compressed decompressed_size stop_index steps (AtWhile, st0)
  = Some (LZSS_Decompress compressed compressed_size decompressed_size).
Proof.
  intros Hinit Hsteps.
  apply (run_mono compressed decompressed_size stop_index (lz_fuel compressed)).
  - exact (decompress_total _ _ _ _ _ Hinit).
  - unfold lz_fuel. lia.
Qed.

Lemma decompress_terminates_witness :
  lz_run crosses_stop 20 3 1000 (AtWhile, LzState 8 20 (crosses_stop ++ [0; 0; 0; 0]))
  = Some (LZSS_Decompress crosses_stop 16 20).
Proof.
  apply (decompress_terminates crosses_stop 16 20 3
           (LzState 8 20 (crosses_stop ++ [0; 0; 0; 0])) 1000 eq_refl).
  simpl. lia.
Defined.

(** When the sum of [LZSS_GetDecompressedSize] wraps, the size it
    returns is below the size of the compressed buffer, and
    [LZSS_Decompress], called with it as [LoadSectionExeFS] does, copies
    the compressed bytes over the end of the output buffer. *)
Theorem wrapped_size_overruns (buffer : bytes) (size offset_size : Z) :
  0 <= size < 2 ^ 32 ->
  read_u32 buffer (size - 4) = Some offset_size ->
  offset_size < 2 ^ 32 <= offset_size + size ->
  exists decompressed_size,
    LZSS_GetDecompressedSize buffer size = Some decompressed_size
    /\ 0 <= decompressed_size < size
    /\ LZSS_Decompress buffer size decompressed_size = LZ_out_of_bounds.
Proof.
  intros Hsize Hread Hwrap.
  exists (offset_size + size - 2 ^ 32).
  assert (Hd : u32 (offset_size + size) = offset_size + size - 2 ^ 32).
  { unfold u32. symmetry. apply Z.mod_unique with (q := 1); lia. }
  split; [unfold LZSS_GetDecompressedSize; rewrite Hread; simpl; rewrite Hd; reflexivity |].
  split; [lia |].
  unfold LZSS_Decompress, lz_init.
  destruct (read_u32 buffer (size - 8)) as [v |]; [| reflexivity].
  simpl.
  destruct (Z.leb_spec size (offset_size + size - 2 ^ 32)) as [| _]; [lia |].
  rewrite andb_false_r. reflexivity.
Qed.

Lemma wrapped_size_overruns_witness :
  LZSS_GetDecompressedSize size_wraps 8 = Some 7
  /\ LZSS_Decompress size_wraps 8 7 = LZ_out_of_bounds.
Proof.
  destruct (wrapped_size_overruns size_wraps 8 0xFFFFFFFF) as (d & Hd & _ & Hrun).
  - lia.
  - reflexivity.
  - lia.
  - vm_compute in Hd. injection Hd as <-. split; [reflexivity | exact Hrun].
Defined.

(** ** The statuses of reading a section *)

Lemma fails_with_weaken {A} (S S' : ResultStatus -> Prop) (m : M A) :
  (forall e, S e -> S' e) -> fails_with S m -> fails_with S' m.
Proof.
  intros HS Hm w. specialize (Hm w).
  destruct (m w); [exact I | apply HS; exact Hm | exact I].
Qed.

Section Section_statuses.
Context (L : Layout) (E : Env).

Lemma load_section_fails_with (s : ExeFs_SectionHeader.t) :
  fails_with (section_status (ExeFs_SectionHeader.name s)) (load_section L E s).
Proof.
  unfold load_section.
  apply fails_with_bind; [apply fails_with_get | intros w].
  cbv zeta.
  apply fails_with_bind; [apply fails_with_Seek | intros _].
  destruct (String.eqb_spec (ExeFs_SectionHeader.name s) ".code") as [Hname | _];
    cbn [andb].
  - destruct (is_compressed _).
    + destruct (negb (alloc_ok _ _));
        [apply fails_with_fail; right; split; [exact Hname | left; reflexivity] |].
      apply fails_with_bind; [apply fails_with_ReadBytes | intros temp].
      destruct (negb _); [apply fails_with_fail; left; reflexivity |].
      destruct (LZSS_GetDecompressedSize _ _); [| apply fails_with_undefined].
      destruct (LZSS_Decompress _ _ _) as [[] buffer |].
      * apply fails_with_ret.
      * apply fails_with_fail. right. split; [exact Hname | right; reflexivity].
      * apply fails_with_undefined.
    + apply fails_with_bind; [apply fails_with_ReadBytes | intros buffer].
      destruct (negb _); [apply fails_with_fail; left; reflexivity |].
      apply fails_with_ret.
  - apply fails_with_bind; [apply fails_with_ReadBytes | intros buffer].
    destruct (negb _); [apply fails_with_fail; left; reflexivity |].
    apply fails_with_ret.
Qed.

Lemma scan_sections_fails_with (name : string) (ns : list nat) :
  fails_with (fun e => e = ErrorNotUsed \/ section_status name e)
    (scan_sections L E name ns).
Proof.
  induction ns as [| n ns IH]; simpl.
  - apply fails_with_fail. left. reflexivity.
  - apply fails_with_bind; [apply fails_with_get | intros w].
    destruct (String.eqb_spec
                (ExeFs_SectionHeader.name
                   (exefs_section L (exefs_header (loader w)) n)) name)
      as [Hname | _]; [| exact IH].
    apply (fails_with_weaken
             (section_status
                (ExeFs_SectionHeader.name
                   (exefs_section L (exefs_header (loader w)) n)))).
    + intros e He. right. rewrite <- Hname. exact He.
    + apply load_section_fails_with.
Qed.

(** The statuses of [LoadSectionExeFS]: those of [LoadExeFS],
    [ErrorNotUsed], and, for the section [.code] alone,
    [ErrorMemoryAllocationFailed]; [ErrorNotLoaded] and
    [ErrorAlreadyLoaded] never. *)
Theorem LoadSectionExeFS_statuses (name : string) :
  fails_with (load_section_exefs_status name) (LoadSectionExeFS L E name).
Proof.
  unfold LoadSectionExeFS.
  apply fails_with_bind; [apply fails_with_get | intros w].
  destruct (negb _); [apply fails_with_fail; left; left; reflexivity |].
  apply fails_with_bind.
  - apply (fails_with_weaken load_exefs_status);
      [intros e He; left; exact He | apply LoadExeFS_fails_with].
  - intros _.
    apply (fails_with_weaken (fun e => e = ErrorNotUsed \/ section_status name e));
      [| apply scan_sections_fails_with].
    intros e [He | [He | (Hname & [He | He])]].
    + right. left. exact He.
    + left. left. exact He.
    + right. right. split; assumption.
    + left. right. left. exact He.
Qed.

(** A [.code] section that [load_section] hands out decompressed: the
    bytes of the section were read in full from the file, at the offset
    of the section behind the ExeFS header, and decrypted with the
    context of the code section, if there is one; the buffer handed out
    is what the decompressor made of them, with [true], and has the
    length that their footer gives.  Only the read position has
    changed. *)
Theorem compressed_code_length (s : ExeFs_SectionHeader.t) (w w' : World)
    (buffer : bytes) :
  let l := loader w in
  let size := ExeFs_SectionHeader.size s in
  let off := u32 (ExeFs_SectionHeader.offset s + exefs_offset l)
             + sizeof_ExeFs_Header L + ncch_offset l in
  let raw := take (Z.to_nat size) (drop (Z.to_nat off) (content (file l))) in
  let temp_buffer :=
    match exerfs_code_aes l with
    | Some a =>
        aes_ctr E (key a) (ctr a)
          (ExeFs_SectionHeader.offset s + sizeof_ExeFs_Header L) raw
    | None => raw
    end in
  ExeFs_SectionHeader.name s = ".code" ->
  is_compressed (info l) = true ->
  0 <= off ->
  load_section L E s w = Ret buffer w' ->
  alloc_ok E size = true
  /\ Z.of_nat (length raw) = size
  /\ (exists decompressed_size,
        LZSS_GetDecompressedSize temp_buffer size = Some decompressed_size
        /\ LZSS_Decompress temp_buffer size decompressed_size
           = LZ_return true buffer
        /\ Z.of_nat (length buffer) = decompressed_size)
  /\ w' = on_loader (set_file {| IsOpen := IsOpen (file l);
                                 content := content (file l);
                                 pos := off + size |}) w.
Proof.
  intros l size off raw temp_buffer Hname Hcomp Hoff H.
  subst temp_buffer raw off size l.
  destruct w as [[[op data0 p] ? ? ? ? ? ? ? ? ? ? ?] ks ev]. members.
  unfold load_section in H.
  exec_in H @bind_get. exec_in H @bind_Seek.
  rewrite Hname, Hcomp in H. cbn [String.eqb Ascii.eqb Bool.eqb andb] in H.
  destruct (alloc_ok E (ExeFs_SectionHeader.size s)); cbn [negb] in H;
    [| discriminate H].
  exec_in H @bind_ReadBytes. cbv zeta in H.
  match type of H with context [if ?a <? 0 then _ else _] =>
    destruct (Z.ltb_spec a 0); [lia |]
  end.
  match type of H with context [negb (?a =? ?b)] =>
    destruct (Z.eqb_spec a b) as [Hlen | Hlen]; cbn [negb] in H;
      [| discriminate H]
  end.
  match type of H with
  | context [LZSS_GetDecompressedSize ?t ?n] =>
      destruct (LZSS_GetDecompressedSize t n) as [d |] eqn:Hd; [| discriminate H];
      destruct (LZSS_Decompress t n d) as [[] out |] eqn:Hrun;
        try discriminate H
  end.
  unfold ret in H. injection H as <- <-.
  split; [reflexivity |]. split; [exact Hlen |].
  split.
  - exists d. split; [reflexivity |]. split; [exact Hrun |].
    exact (decompress_length _ _ _ _ _ Hrun).
  - rewrite Hlen. reflexivity.
Qed.

End Section_statuses.

Lemma compressed_code_length_witness :
  match load_section container_layout two_slots
          (ExeFs_SectionHeader.Make ".code" 0 16) compressed_code with
  | Ret buffer w' =>
      LZSS_Decompress crosses_stop 16 20 = LZ_return true buffer
      /\ Z.of_nat (length buffer) = 20
      /\ pos (file (loader w')) = 0x210
  | _ => False
  end.
Proof.
  destruct (load_section container_layout two_slots
              (ExeFs_SectionHeader.Make ".code" 0 16) compressed_code)
    as [buffer w' | e w' |] eqn:H;
    [| vm_compute in H; discriminate H | vm_compute in H; discriminate H].
  destruct (compressed_code_length container_layout two_slots
              (ExeFs_SectionHeader.Make ".code" 0 16) compressed_code w' buffer
              eq_refl eq_refl)
    as (_ & _ & (d & Hd & Hrun & Hlen) & ->); [| exact H |].
  - vm_compute. intros Hx. discriminate Hx.
  - vm_compute in Hd. injection Hd as <-.
    split; [exact Hrun |]. split; [exact Hlen | reflexivity].
Defined.

Lemma lowest_region_wins_witness :
  match LoadExeFS container_layout two_slots (fresh_world (cxi_with_icon 0x4C)) with
  | Ret _ w =>
      match ReadIcon container_layout two_slots w with
      | Ret smdh_buffer w1 =>
          region_choice container_layout smdh_buffer (Some 2)
          /\ ParseRegionLockoutInfo container_layout two_slots w
             = Ret tt (emit (EvSetPreferredRegionCode 2) w1)
      | _ => False
      end
  | _ => False
  end.
Proof.
  destruct (LoadExeFS container_layout two_slots (fresh_world (cxi_with_icon 0x4C)))
    as [[] w | e w |] eqn:H1;
    [| vm_compute in H1; discriminate H1 | vm_compute in H1; discriminate H1].
  pose proof (lowest_region_wins container_layout two_slots w) as H.
  destruct (ReadIcon container_layout two_slots w)
    as [smdh_buffer w1 | e w1 |] eqn:Hicon.
  - destruct H as ((choice & Hchoice & HP) & Hunique).
    assert (Hnames : region_choice container_layout smdh_buffer (Some 2)).
    { computed H1. vm_compute in Hicon. injection Hicon as <- _.
      unfold region_choice.
      match goal with |- if ?b then _ else _ =>
        replace b with true by (vm_compute; reflexivity)
      end.
      cbv zeta.
      match goal with |- names_region ?v 2 =>
        replace v with 0x4C by (vm_compute; reflexivity)
      end.
      split; [lia |]. split; [reflexivity |].
      intros i Hi.
      assert (i = 0 \/ i = 1) as [-> | ->] by lia; reflexivity. }
    rewrite (Hunique _ _ Hchoice Hnames) in HP.
    split; [exact Hnames | exact HP].
  - computed H1. vm_compute in Hicon. discriminate Hicon.
  - computed H1. vm_compute in Hicon. discriminate Hicon.
Defined.

Lemma LoadKernelSystemMode_outcome_witness :
  match LoadKernelSystemMode container_layout two_slots
          (fun exheader => le_value (field exheader 0x20E 1))
          (fresh_world garbled_cxi) with
  | Ret (None, res) w' =>
      load_exefs_status res /\ is_exefs_loaded (loader w') = false
  | _ => False
  end.
Proof.
  pose proof (LoadKernelSystemMode_outcome container_layout two_slots
                (fun exheader => le_value (field exheader 0x20E 1))
                (fresh_world garbled_cxi)) as H.
  destruct (LoadKernelSystemMode container_layout two_slots
              (fun exheader => le_value (field exheader 0x20E 1))
              (fresh_world garbled_cxi)) as [[[mode |] res] w' | e w' |] eqn:Hrun.
  - vm_compute in Hrun. discriminate Hrun.
  - destruct H as (Hs & _ & Hx). split; assumption.
  - exact H.
  - vm_compute in Hrun. discriminate Hrun.
Defined.

